(** * Descriptor_homework: detector / matcher wrapper over OpenCV

    A shallow embedding of the two versions of the feature-matching header
    of the repository:

    - [src/feature.hpp]      (module [FeatureHpp]), the earlier version;
    - [src/unnamed/part_000] (module [Part000]), the later version.

    The C++ classes [Detector], [Matcher] and [MatchHandler] become records
    and their member functions become functions in a small
    state-and-exception monad [M]:

    - [float] is IEEE-754 binary32, the Standard Library's [SpecFloat] at
      precision 24 and maximal exponent 128, with round to nearest even;
    - the process state [World] holds the function-local static of
      [Matcher::AcceptRatio] and what was written to [std::cout] and
      [std::cerr];
    - a computation returns, throws ([std::string] or [std::exception]),
      fails an [assert], or has undefined behaviour (an index out of range,
      a null [cv::Ptr], a [float] that does not fit an [int]);
    - a member function that modifies [*this] takes the object and returns
      the modified object; an exception nobody catches ends the run, so the
      state of a half-modified object is not modelled;
    - the OpenCV and libstdc++ entry points are the fields of a record
      [Library]; what the theorems need of them is stated as hypotheses, and
      [Toy.lib] is an instance on which everything computes;
    - [Matcher::MatchDescriptors] is declared to return a reference and has
      no [return] statement: the language leaves the behaviour at its closing
      brace undefined.  What the compiled code does there is a field of
      [Library] too: it goes back to the caller, which discards the value
      (code compiled without optimisation, as the repository's
      [CMakeLists.txt] asks [g++] for), or anything else may happen. *)

From Stdlib Require Import String Ascii ZArith List Bool Lia.
From Stdlib Require Import Permutation Sorted Sorting.Mergesort Orders.
From Stdlib Require Import Floats.SpecFloat.
Import ListNotations.

Local Open Scope Z_scope.

(** ** Single-precision floats *)

Module F32.

Definition prec : Z := 24.
Definition emax : Z := 128.

Definition t : Type := spec_float.

Definition add : t -> t -> t := SFadd prec emax.
Definition mul : t -> t -> t := SFmul prec emax.
Definition div : t -> t -> t := SFdiv prec emax.
Definition ltb : t -> t -> bool := SFltb.
Definition leb : t -> t -> bool := SFleb.

Definition is_nan (x : t) : bool :=
  match x with S754_nan => true | _ => false end.

(** The float literals of the source. *)
Definition zero : t := S754_zero false.                      (* 0.f   *)
Definition half : t := S754_finite false 8388608 (-24).      (* 0.5f  *)
Definition one  : t := S754_finite false 8388608 (-23).      (* 1.f   *)

(** Conversion of an integer ([int], [size_t]) to [float]: round to
    nearest, ties to even. *)
Definition of_Z (z : Z) : t := binary_normalize prec emax z 0 false.

(** The integral part of a finite float, truncated toward zero. *)
Definition trunc (x : t) : option Z :=
  match x with
  | S754_zero _ => Some 0
  | S754_finite s m e => Some (cond_Zopp s (Z.shiftl (Zpos m) e))
  | S754_infinity _ | S754_nan => None
  end.

Definition INT_MIN : Z := - 2 ^ 31.
Definition INT_MAX : Z := 2 ^ 31 - 1.

(** Conversion of a [float] to [int]: truncation; the behaviour is
    undefined ([None]) when the truncated value is not representable. *)
Definition to_int (x : t) : option Z :=
  match trunc x with
  | Some z => if (INT_MIN <=? z) && (z <=? INT_MAX) then Some z else None
  | None => None
  end.

(** [std::min] and [std::max] as libstdc++ defines them:
    [min(a,b) = (b < a) ? b : a] and [max(a,b) = (a < b) ? b : a]. *)
Definition std_min (a b : t) : t := if ltb b a then b else a.
Definition std_max (a b : t) : t := if ltb a b then b else a.

(** The floats of the binary32 format. *)
Definition valid (x : t) : bool := valid_binary prec emax x.

(** A float that is a number between 0 and 1. *)
Definition in_unit (x : t) : bool := leb zero x && leb x one.

End F32.

(** ** Exceptions, output streams and the process-wide state *)

(** The source throws [std::string] values; the libraries throw
    [cv::Exception], which derives from [std::exception] and carries a
    [what()] message. *)
Inductive exn : Type :=
| ExnString (s : string)
| ExnStd (what : string).

(** What is written to [std::cout] and [std::cerr]. *)
Inductive OutItem : Type :=
| OStr (s : string)
| OChar (c : ascii)
| OFloat (f : F32.t)
| OEndl.

(** The state shared by the whole process: the function-local static of
    [Matcher::AcceptRatio] and the two output streams (oldest item first). *)
Record World : Type := mkWorld {
  static_acceptRatio : F32.t;
  cout : list OutItem;
  cerr : list OutItem
}.

(** The state at program start: [static float acceptRatio = 0.5f]. *)
Definition initial_world : World :=
  {| static_acceptRatio := F32.half; cout := []; cerr := [] |}.

Inductive Outcome (A : Type) : Type :=
| Ret (a : A)             (* normal return *)
| Throw (e : exn)         (* an exception propagates *)
| AssertFail              (* a failed [assert]: the process aborts *)
| Undefined.              (* undefined behaviour *)
Arguments Ret {A} a.
Arguments Throw {A} e.
Arguments AssertFail {A}.
Arguments Undefined {A}.

Definition M (A : Type) : Type := World -> Outcome A * World.

Definition ret {A} (a : A) : M A := fun w => (Ret a, w).

Definition bind {A B} (m : M A) (k : A -> M B) : M B :=
  fun w =>
    match m w with
    | (Ret a, w') => k a w'
    | (Throw e, w') => (Throw e, w')
    | (AssertFail, w') => (AssertFail, w')
    | (Undefined, w') => (Undefined, w')
    end.

Declare Scope cxx_scope.
Delimit Scope cxx_scope with cxx.
Notation "x <- m ;; k" := (bind m (fun x => k))
  (at level 61, m at next level, right associativity) : cxx_scope.
Notation "m ;; k" := (bind m (fun _ => k))
  (at level 61, right associativity) : cxx_scope.
Local Open Scope cxx_scope.

Definition throw {A} (e : exn) : M A := fun w => (Throw e, w).
Definition undefined {A} : M A := fun w => (Undefined, w).

(** [assert(c)], compiled without [NDEBUG] (the build sets no such flag). *)
Definition cassert (c : bool) : M unit :=
  fun w => if c then (Ret tt, w) else (AssertFail, w).

(** [try { m } catch (const std::exception& e) { h e.what() }]: only
    exceptions derived from [std::exception] are caught. *)
Definition try_catch_std {A} (m : M A) (h : string -> M A) : M A :=
  fun w =>
    match m w with
    | (Throw (ExnStd what), w') => h what w'
    | r => r
    end.

Definition put_cout (items : list OutItem) : M unit :=
  fun w => (Ret tt, {| static_acceptRatio := static_acceptRatio w;
                       cout := cout w ++ items;
                       cerr := cerr w |}).

Definition put_cerr (items : list OutItem) : M unit :=
  fun w => (Ret tt, {| static_acceptRatio := static_acceptRatio w;
                       cout := cout w;
                       cerr := cerr w ++ items |}).

(** A call into a library: it returns a value or throws a
    [std::exception] with the given message. *)
Definition Lib (A : Type) : Type := (string + A)%type.

Definition call {A} (r : Lib A) : M A :=
  match r with
  | inl what => throw (ExnStd what)
  | inr a => ret a
  end.

(** A value the program needs to exist ([v\[i\]] in range, a non-null
    pointer, an in-range conversion); its absence is undefined behaviour. *)
Definition defined {A} (o : option A) : M A :=
  match o with
  | Some a => ret a
  | None => undefined
  end.

(** [for (const T& x : xs) acc.push_back(f x)] and
    [for (auto& x : xs) x.f()]: the elements are visited in order. *)
Fixpoint for_each {A B} (f : A -> M B) (xs : list A) : M (list B) :=
  match xs with
  | [] => ret []
  | x :: xs' => y <- f x ;; ys <- for_each f xs' ;; ret (y :: ys)
  end.

(** [for (i = lo; i < lo + n; i++) body]: the loop state is threaded
    through the [n] iterations. *)
Fixpoint for_loop {S} (n : nat) (i : nat) (body : nat -> S -> M S) (s : S)
  : M S :=
  match n with
  | O => ret s
  | Datatypes.S n' => s' <- body i s ;; for_loop n' (Datatypes.S i) body s'
  end.

(** Assignment to [v\[i\]]. *)
Fixpoint set_nth {A} (i : nat) (x : A) (l : list A) : list A :=
  match l, i with
  | [], _ => []
  | _ :: l', O => x :: l'
  | y :: l', Datatypes.S i' => y :: set_nth i' x l'
  end.

(** ** OpenCV data and algorithm handles *)

(** [cv::Mat]: a dense matrix, here its header and the sequence of its
    elements.  A default-constructed [cv::Mat] has no rows and no data. *)
Record Mat : Type := mkMat {
  rows : Z;
  cols : Z;
  mat_type : Z;
  data : list Z
}.

Definition Mat_default : Mat :=
  {| rows := 0; cols := 0; mat_type := 0; data := [] |}.

(** [cv::Mat::empty()]: no element. *)
Definition Mat_empty (m : Mat) : bool :=
  match data m with [] => true | _ => (rows m * cols m =? 0) end.

(** [cv::Mat::clone()] is a deep copy: the same value. *)
Definition Mat_clone (m : Mat) : Mat := m.

Record KeyPoint : Type := mkKeyPoint {
  pt_x : F32.t;
  pt_y : F32.t;
  size : F32.t;
  angle : F32.t;
  response : F32.t;
  octave : Z;
  class_id : Z
}.

Record DMatch : Type := mkDMatch {
  queryIdx : Z;
  trainIdx : Z;
  imgIdx : Z;
  distance : F32.t
}.

(** [cv::DMatch::operator<] compares the distances. *)
Definition DMatch_lt (a b : DMatch) : bool :=
  F32.ltb (distance a) (distance b).

(** The objects behind a [cv::Ptr<cv::Feature2D>], each created by its
    [create()] with default parameters. *)
Inductive Feature2D : Type := SIFT | SURF | ORB | KAZE | BRISK.

Inductive NormType : Type :=
| NORM_INF | NORM_L1 | NORM_L2 | NORM_L2SQR | NORM_HAMMING | NORM_HAMMING2.

Inductive IndexParams : Type :=
| DefaultIndexParams
| LshIndexParams (table_number key_size multi_probe_level : Z).

(** The objects behind a [cv::Ptr<cv::DescriptorMatcher>]. *)
Inductive DescriptorMatcher : Type :=
| FlannBasedMatcher (indexParams : IndexParams)
| BFMatcher (normType : NormType).

(** A [cv::Ptr] may be null. *)
Definition FeaturePtr : Type := option Feature2D.
Definition MatcherPtr : Type := option DescriptorMatcher.

(** ** The library entry points the header calls, and the platform

    Output arguments are modelled by the returned value (OpenCV allocates
    and overwrites them).  [drawMatches] is the one call whose exception the
    source catches, so it returns the content of its output image together
    with the exception, if any.  Two fields describe the build rather than a
    library: the value of the macro [CV_NEON], and what the compiled code
    does where the language defines nothing, at the end of a function that
    should have returned a value. *)
Record Library : Type := mkLibrary {
  (* feature->detectAndCompute(image, mask, keypts, descriptors) *)
  detectAndCompute : Feature2D -> Mat -> Mat -> Lib (list KeyPoint * Mat);
  (* matcher->match(queryDescriptors, trainDescriptors, matches) *)
  cv_match : DescriptorMatcher -> Mat -> Mat -> Lib (list DMatch);
  (* cv::drawMatches(img1, keypoints1, img2, keypoints2, matches, outImg) *)
  drawMatches : Mat -> list KeyPoint -> Mat -> list KeyPoint -> list DMatch ->
                Mat -> Mat * option string;
  (* cv::putText(img, text, org, fontFace, fontScale, color, thickness) *)
  putText : Mat -> string -> Z * Z -> Z -> Z -> Z -> Z -> Lib Mat;
  (* cv::vconcat(src, dst) *)
  vconcat : list Mat -> Lib Mat;
  (* cv::resize(src, dst, dsize, fx, fy, interpolation) *)
  resize : Mat -> Z * Z -> Z -> Z -> Z -> Lib Mat;
  (* the value of the macro CV_NEON on the build platform *)
  CV_NEON : Z;
  (* std::sort(first, last) on a vector of cv::DMatch *)
  std_sort : list DMatch -> list DMatch;
  (* whether control that reaches the closing brace of a function with a
     return type, without a return statement, goes back to the caller *)
  off_end_returns : bool
}.

(** Control reaches the closing brace of a function that is declared to
    return a value and has executed no [return]: undefined behaviour in the
    language; on a platform that goes back to the caller the value is
    indeterminate. *)
Definition off_end (L : Library) : M unit :=
  if off_end_returns L then ret tt else undefined.

Definition FONT_HERSHEY_SIMPLEX : Z := 0.
Definition INTER_LINEAR : Z := 1.

(** ** The structs and classes common to both versions *)

Record DetectResult : Type := mkDetectResult {
  dr_name : string;
  dr_image : Mat;
  dr_keypts : list KeyPoint;
  dr_descriptors : Mat
}.

Record MatcherResult : Type := mkMatcherResult {
  mr_name : string;
  mr_matches : list DMatch
}.

Module Detector.

Record t : Type := mk {
  feature : FeaturePtr;
  name : string;
  image : Mat;
  keypts : list KeyPoint;
  descriptors : Mat
}.

(** [Detector(const std::string _name, FeaturePtr _feature)]: the other
    members are default-constructed. *)
Definition new (_name : string) (_feature : FeaturePtr) : t :=
  {| feature := _feature; name := _name; image := Mat_default;
     keypts := []; descriptors := Mat_default |}.

Definition DetectAndCompute (L : Library) (_image : Mat) (this : t) : M t :=
  f <- defined (feature this) ;;
  kd <- call (detectAndCompute L f _image Mat_default) ;;
  ret {| feature := feature this; name := name this; image := _image;
         keypts := fst kd; descriptors := snd kd |}.

Definition getResult (this : t) : DetectResult :=
  {| dr_name := name this; dr_image := image this;
     dr_keypts := keypts this; dr_descriptors := descriptors this |}.

Definition GetName (this : t) : string := name this.

End Detector.

Module Matcher.

Record t : Type := mk {
  matcher : MatcherPtr;
  name : string;
  matches : list DMatch;
  minMathces : Z
}.

(** [Matcher(const std::string _name, MatcherPtr _matcher)], with
    [const int minMathces = 10]. *)
Definition new (_name : string) (_matcher : MatcherPtr) : t :=
  {| matcher := _matcher; name := _name; matches := []; minMathces := 10 |}.

(** [static float& AcceptRatio()]: reading and writing the static. *)
Definition AcceptRatio : M F32.t := fun w => (Ret (static_acceptRatio w), w).

Definition set_AcceptRatio (r : F32.t) : M unit :=
  fun w => (Ret tt, {| static_acceptRatio := r;
                       cout := cout w; cerr := cerr w |}).

Definition getResult (this : t) : MatcherResult :=
  {| mr_name := name this; mr_matches := matches this |}.

(** [const int numGoodMatches = matches.size() * AcceptRatio();] the size
    is converted to [float], the product is a [float] product, and the
    result is converted to [int]. *)
Definition numGoodMatches (size : nat) (ratio : F32.t) : option Z :=
  F32.to_int (F32.mul (F32.of_Z (Z.of_nat size)) ratio).

(** [matches.erase(matches.begin() + n, matches.end())]: defined when
    [begin() + n] is a position of the vector. *)
Definition erase_from (n : Z) (v : list DMatch) : option (list DMatch) :=
  if (0 <=? n) && (n <=? Z.of_nat (length v))
  then Some (firstn (Z.to_nat n) v)
  else None.

(** The three statements that follow the call of the library matcher in
    both versions: sort, compute [numGoodMatches], erase the tail. *)
Definition sort_and_truncate (L : Library) (raw : list DMatch)
  : M (list DMatch) :=
  let sorted := std_sort L raw in
  ratio <- AcceptRatio ;;
  numGood <- defined (numGoodMatches (length sorted) ratio) ;;
  defined (erase_from numGood sorted).

End Matcher.

Module MatchHandler.

Record t : Type := mk {
  referDets : list Detector.t;
  inputDets : list Detector.t;
  matchers : list Matcher.t;
  acceptRatio : F32.t
}.

End MatchHandler.

(** The exception, if any, that a library call left pending. *)
Definition raise_pending (failure : option string) : M unit :=
  match failure with
  | Some what => throw (ExnStd what)
  | None => ret tt
  end.

Definition newline : ascii := ascii_of_nat 10.

(** ** The later version: [src/unnamed/part_000] *)

Module Part000.

Definition Detector_Factory (name : string) : M Detector.t :=
  if (name =? "sift")%string then
    ret (Detector.new name (Some SIFT))
  else if (name =? "surf")%string then
    ret (Detector.new name (Some SURF))
  else if (name =? "orb")%string then
    ret (Detector.new name (Some ORB))
  else if (name =? "kaze")%string then
    ret (Detector.new name (Some KAZE))
  else if (name =? "brisk")%string then
    ret (Detector.new name (Some BRISK))
  else
    throw (ExnString "error").

Definition Matcher_Factory (name descName : string) : M Matcher.t :=
  if (name =? "flann")%string then
    if (descName =? "orb")%string then
      ret (Matcher.new name
             (Some (FlannBasedMatcher (LshIndexParams 12 20 2))))
    else
      ret (Matcher.new name (Some (FlannBasedMatcher DefaultIndexParams)))
  else if (name =? "bf")%string then
    if (descName =? "orb")%string then
      ret (Matcher.new name (Some (BFMatcher NORM_HAMMING)))
    else
      ret (Matcher.new name (Some (BFMatcher NORM_L1)))
  else
    throw (ExnString "error").

(** The library matcher writes into the member [matches], which is then
    sorted and truncated in place.  The function is declared to return a
    reference and has no [return]: control flows off its end.  Its only
    caller discards the value. *)
Definition MatchDescriptors (L : Library) (referDesc inputDesc : Mat)
           (this : Matcher.t) : M Matcher.t :=
  m <- defined (Matcher.matcher this) ;;
  raw <- call (cv_match L m inputDesc referDesc) ;;
  kept <- Matcher.sort_and_truncate L raw ;;
  _ <- off_end L ;;
  ret {| Matcher.matcher := Matcher.matcher this;
         Matcher.name := Matcher.name this;
         Matcher.matches := kept;
         Matcher.minMathces := Matcher.minMathces this |}.

Definition MatchHandler_ctor (features matcher : list string)
  : M MatchHandler.t :=
  cassert (length features =? length matcher)%nat ;;
  referDets <- for_each Detector_Factory features ;;
  inputDets <- for_each Detector_Factory features ;;
  matchers <- for_loop (length matcher) 0
    (fun i matchers =>
       mi <- defined (nth_error matcher i) ;;
       di <- defined (nth_error inputDets i) ;;
       m <- Matcher_Factory mi (dr_name (Detector.getResult di)) ;;
       ret (matchers ++ [m])) [] ;;
  ret {| MatchHandler.referDets := referDets;
         MatchHandler.inputDets := inputDets;
         MatchHandler.matchers := matchers;
         MatchHandler.acceptRatio := F32.half |}.

Definition SetRefImage (L : Library) (refimg : Mat) (this : MatchHandler.t)
  : M MatchHandler.t :=
  referDets <- for_each (Detector.DetectAndCompute L refimg)
                        (MatchHandler.referDets this) ;;
  ret {| MatchHandler.referDets := referDets;
         MatchHandler.inputDets := MatchHandler.inputDets this;
         MatchHandler.matchers := MatchHandler.matchers this;
         MatchHandler.acceptRatio := MatchHandler.acceptRatio this |}.

Definition MatchImage (L : Library) (inpimg : Mat) (this : MatchHandler.t)
  : M MatchHandler.t :=
  inputDets <- for_each (Detector.DetectAndCompute L inpimg)
                        (MatchHandler.inputDets this) ;;
  matchers <- for_loop (length (MatchHandler.matchers this)) 0
    (fun i matchers =>
       mi <- defined (nth_error matchers i) ;;
       ri <- defined (nth_error (MatchHandler.referDets this) i) ;;
       di <- defined (nth_error inputDets i) ;;
       mi' <- MatchDescriptors L
                (dr_descriptors (Detector.getResult ri))
                (dr_descriptors (Detector.getResult di)) mi ;;
       ret (set_nth i mi' matchers))
    (MatchHandler.matchers this) ;;
  ret {| MatchHandler.referDets := MatchHandler.referDets this;
         MatchHandler.inputDets := inputDets;
         MatchHandler.matchers := matchers;
         MatchHandler.acceptRatio := MatchHandler.acceptRatio this |}.

Definition ChangeAcceptRatio (change : F32.t) (this : MatchHandler.t)
  : M MatchHandler.t :=
  put_cout [OStr " Change number: "; OFloat change; OEndl] ;;
  let acceptRatio := F32.add (MatchHandler.acceptRatio this) change in
  let acceptRatio :=
    F32.std_max (F32.std_min acceptRatio F32.one) F32.zero in
  put_cout [OStr "Ratio:"; OFloat acceptRatio; OEndl] ;;
  Matcher.set_AcceptRatio acceptRatio ;;
  ret {| MatchHandler.referDets := MatchHandler.referDets this;
         MatchHandler.inputDets := MatchHandler.inputDets this;
         MatchHandler.matchers := MatchHandler.matchers this;
         MatchHandler.acceptRatio := acceptRatio |}.

(** The guard of the downscaling branch of [DrawSingleResult]. *)
Definition resize_guard (maxheight rows_ : Z) : bool :=
  (100 <? maxheight) && (maxheight <? rows_).

Definition DrawSingleResult (L : Library)
           (refDet inpDet : DetectResult) (match_ : MatcherResult) : M Mat :=
  let result_ := Mat_default in
  let matchimg := Mat_default in
  let maxheight := 0 in
  let drawn := drawMatches L (dr_image inpDet) (dr_keypts inpDet)
                 (dr_image refDet) (dr_keypts refDet)
                 (mr_matches match_) matchimg in
  let matchimg := fst drawn in
  try_catch_std (raise_pending (snd drawn))
    (fun what => put_cerr [OStr what; OChar newline]) ;;
  matchimg <- call (putText L matchimg (dr_name inpDet) (10, 30)
                      FONT_HERSHEY_SIMPLEX 1 0 2) ;;
  result_ <- (if Mat_empty result_ then ret matchimg
              else call (vconcat L [result_; matchimg])) ;;
  let resimg := Mat_clone result_ in
  if resize_guard maxheight (rows resimg) then
    let scale := F32.div (F32.of_Z maxheight) (F32.of_Z (rows resimg)) in
    w <- defined (F32.to_int (F32.mul (F32.of_Z (cols resimg)) scale)) ;;
    h <- defined (F32.to_int (F32.mul (F32.of_Z (rows resimg)) scale)) ;;
    call (resize L resimg (w, h) 0 0 INTER_LINEAR)
  else
    ret resimg.

(** The frames of all pipelines, in order: the loop of [DrawMatchResult]. *)
Definition DrawFrames (L : Library) (this : MatchHandler.t)
  : M (list Mat) :=
  for_loop (length (MatchHandler.matchers this)) 0
    (fun i resultImgs =>
       ri <- defined (nth_error (MatchHandler.referDets this) i) ;;
       di <- defined (nth_error (MatchHandler.inputDets this) i) ;;
       mi <- defined (nth_error (MatchHandler.matchers this) i) ;;
       result <- DrawSingleResult L (Detector.getResult ri)
                   (Detector.getResult di) (Matcher.getResult mi) ;;
       ret (resultImgs ++ [result])) [].

Definition DrawMatchResult (L : Library) (maxHeight : Z)
           (this : MatchHandler.t) : M Mat :=
  resultImgs <- DrawFrames L this ;;
  stackedResult <- call (vconcat L resultImgs) ;;
  if maxHeight <? rows stackedResult then
    call (resize L stackedResult
            (Z.quot (cols stackedResult) 2, Z.quot (rows stackedResult) 2)
            0 0 (CV_NEON L))
  else
    ret stackedResult.

End Part000.

(** ** The earlier version: [src/feature.hpp] *)

Module FeatureHpp.

Definition Detector_Factory (name : string) : M Detector.t :=
  desc <- (if (name =? "sift")%string then ret (Some SIFT)
           else if (name =? "surf")%string then ret (Some SURF)
           else if (name =? "orb")%string then ret (Some ORB)
           else if (name =? "kaze")%string then ret (Some KAZE)
           else if (name =? "brisk")%string then ret (Some BRISK)
           else throw (ExnString "error")) ;;
  ret (Detector.new name desc).

Definition Matcher_Factory (name : string) : M Matcher.t :=
  put_cout [OStr "match factorcy"; OEndl] ;;
  match_ <- (if (name =? "flann")%string then
               put_cout [OStr "im in"; OEndl] ;;
               ret (Some (FlannBasedMatcher DefaultIndexParams))
             else if (name =? "bf")%string then
               put_cout [OStr "im in2"; OEndl] ;;
               ret (Some (BFMatcher NORM_L1))
             else
               throw (ExnString "error")) ;;
  ret (Matcher.new name match_).

(** Here the library matcher writes into a local vector named [matches],
    which hides the member; the member is not assigned.  As in the later
    version there is no [return]. *)
Definition MatchDescriptors (L : Library) (referDesc inputDesc : Mat)
           (this : Matcher.t) : M Matcher.t :=
  m <- defined (Matcher.matcher this) ;;
  raw <- call (cv_match L m inputDesc referDesc) ;;
  _local <- Matcher.sort_and_truncate L raw ;;
  _ <- off_end L ;;
  ret this.

Definition MatchHandler_ctor (features matcher : list string)
  : M MatchHandler.t :=
  cassert (length features =? length matcher)%nat ;;
  referDets <- for_each Detector_Factory features ;;
  inputDets <- for_each Detector_Factory features ;;
  matchers <- for_each Matcher_Factory matcher ;;
  ret {| MatchHandler.referDets := referDets;
         MatchHandler.inputDets := inputDets;
         MatchHandler.matchers := matchers;
         MatchHandler.acceptRatio := F32.half |}.

Definition SetRefImage (L : Library) (refimg : Mat) (this : MatchHandler.t)
  : M MatchHandler.t :=
  put_cout [OStr " Set Ref!!!"; OEndl] ;;
  referDets <- for_each (Detector.DetectAndCompute L refimg)
                        (MatchHandler.referDets this) ;;
  ret {| MatchHandler.referDets := referDets;
         MatchHandler.inputDets := MatchHandler.inputDets this;
         MatchHandler.matchers := MatchHandler.matchers this;
         MatchHandler.acceptRatio := MatchHandler.acceptRatio this |}.

Definition MatchImage (L : Library) (inpimg : Mat) (this : MatchHandler.t)
  : M MatchHandler.t :=
  inputDets <- for_each (Detector.DetectAndCompute L inpimg)
                        (MatchHandler.inputDets this) ;;
  matchers <- for_loop (length (MatchHandler.matchers this)) 0
    (fun i matchers =>
       mi <- defined (nth_error matchers i) ;;
       ri <- defined (nth_error (MatchHandler.referDets this) i) ;;
       di <- defined (nth_error inputDets i) ;;
       mi' <- MatchDescriptors L
                (dr_descriptors (Detector.getResult ri))
                (dr_descriptors (Detector.getResult di)) mi ;;
       ret (set_nth i mi' matchers))
    (MatchHandler.matchers this) ;;
  ret {| MatchHandler.referDets := MatchHandler.referDets this;
         MatchHandler.inputDets := inputDets;
         MatchHandler.matchers := matchers;
         MatchHandler.acceptRatio := MatchHandler.acceptRatio this |}.

Definition ChangeAcceptRatio (change : F32.t) (this : MatchHandler.t)
  : M MatchHandler.t :=
  let acceptRatio := F32.add (MatchHandler.acceptRatio this) change in
  let acceptRatio :=
    F32.std_max (F32.std_min acceptRatio F32.one) F32.zero in
  Matcher.set_AcceptRatio acceptRatio ;;
  ret {| MatchHandler.referDets := MatchHandler.referDets this;
         MatchHandler.inputDets := MatchHandler.inputDets this;
         MatchHandler.matchers := MatchHandler.matchers this;
         MatchHandler.acceptRatio := acceptRatio |}.

Definition resize_guard (maxheight rows_ : Z) : bool :=
  (100 <? maxheight) && (maxheight <? rows_).

Definition DrawSingleResult (L : Library)
           (refDet inpDet : DetectResult) (match_ : MatcherResult) : M Mat :=
  let result_ := Mat_default in
  let matchimg := Mat_default in
  let maxheight := 0 in
  let drawn := drawMatches L (dr_image inpDet) (dr_keypts inpDet)
                 (dr_image refDet) (dr_keypts refDet)
                 (mr_matches match_) matchimg in
  let matchimg := fst drawn in
  raise_pending (snd drawn) ;;
  matchimg <- call (putText L matchimg (dr_name inpDet) (10, 30)
                      FONT_HERSHEY_SIMPLEX 1 0 2) ;;
  result_ <- (if Mat_empty result_ then ret matchimg
              else call (vconcat L [result_; matchimg])) ;;
  let resimg := Mat_clone result_ in
  if resize_guard maxheight (rows resimg) then
    let scale := F32.div (F32.of_Z maxheight) (F32.of_Z (rows resimg)) in
    w <- defined (F32.to_int (F32.mul (F32.of_Z (cols resimg)) scale)) ;;
    h <- defined (F32.to_int (F32.mul (F32.of_Z (rows resimg)) scale)) ;;
    call (resize L resimg (w, h) 0 0 INTER_LINEAR)
  else
    ret resimg.

Definition DrawFrames (L : Library) (this : MatchHandler.t)
  : M (list Mat) :=
  for_loop (length (MatchHandler.matchers this)) 0
    (fun i resultImgs =>
       ri <- defined (nth_error (MatchHandler.referDets this) i) ;;
       di <- defined (nth_error (MatchHandler.inputDets this) i) ;;
       mi <- defined (nth_error (MatchHandler.matchers this) i) ;;
       result <- DrawSingleResult L (Detector.getResult ri)
                   (Detector.getResult di) (Matcher.getResult mi) ;;
       ret (resultImgs ++ [result])) [].

(** [maxHeight] is unused in this version: the test is commented out. *)
Definition DrawMatchResult (L : Library) (maxHeight : Z)
           (this : MatchHandler.t) : M Mat :=
  resultImgs <- DrawFrames L this ;;
  call (vconcat L resultImgs).

End FeatureHpp.

(** ** Sessions, the recognised names, and a small library instance *)

(** The recognised names as the specification lists them. *)
Definition detector_names : list string :=
  ["sift"; "surf"; "orb"; "kaze"; "brisk"]%string.

Definition matcher_names : list string := ["flann"; "bf"]%string.

Definition recognised (names : list string) (name : string) : bool :=
  existsb (String.eqb name) names.
Arguments recognised : simpl never.

(** The specification's table from detector name to algorithm. *)
Definition detector_table : list (string * Feature2D) :=
  [("sift", SIFT); ("surf", SURF); ("orb", ORB); ("kaze", KAZE);
   ("brisk", BRISK)]%string.

Fixpoint lookup_name {A} (name : string) (table : list (string * A))
  : option A :=
  match table with
  | [] => None
  | (k, v) :: table' =>
      if (name =? k)%string then Some v else lookup_name name table'
  end.

(** The specification's choice of matching strategy: the metric (or the
    index structure) follows the descriptor algorithm. *)
Definition matcher_table (descName : string)
  : list (string * DescriptorMatcher) :=
  [("flann", FlannBasedMatcher
               (if (descName =? "orb")%string then LshIndexParams 12 20 2
                else DefaultIndexParams));
   ("bf", BFMatcher
            (if (descName =? "orb")%string then NORM_HAMMING
             else NORM_L1))]%string.

(** The same library with another implementation of [cv::resize]. *)
Definition with_resize (L : Library)
           (f : Mat -> Z * Z -> Z -> Z -> Z -> Lib Mat) : Library :=
  {| detectAndCompute := detectAndCompute L;
     cv_match := cv_match L;
     drawMatches := drawMatches L;
     putText := putText L;
     vconcat := vconcat L;
     resize := f;
     CV_NEON := CV_NEON L;
     std_sort := std_sort L;
     off_end_returns := off_end_returns L |}.

(** The member functions a client may call on a constructed handler. *)
Inductive Op : Type :=
| OpSetRefImage (refimg : Mat)
| OpMatchImage (inpimg : Mat)
| OpChangeAcceptRatio (change : F32.t)
| OpDrawMatchResult (maxHeight : Z).

Definition is_ChangeAcceptRatio (op : Op) : bool :=
  match op with OpChangeAcceptRatio _ => true | _ => false end.

Definition run_op_p0 (L : Library) (op : Op) (h : MatchHandler.t)
  : M MatchHandler.t :=
  match op with
  | OpSetRefImage img => Part000.SetRefImage L img h
  | OpMatchImage img => Part000.MatchImage L img h
  | OpChangeAcceptRatio d => Part000.ChangeAcceptRatio d h
  | OpDrawMatchResult mh => _ <- Part000.DrawMatchResult L mh h ;; ret h
  end.

Definition run_op_hpp (L : Library) (op : Op) (h : MatchHandler.t)
  : M MatchHandler.t :=
  match op with
  | OpSetRefImage img => FeatureHpp.SetRefImage L img h
  | OpMatchImage img => FeatureHpp.MatchImage L img h
  | OpChangeAcceptRatio d => FeatureHpp.ChangeAcceptRatio d h
  | OpDrawMatchResult mh => _ <- FeatureHpp.DrawMatchResult L mh h ;; ret h
  end.

Fixpoint run_ops (step : Op -> MatchHandler.t -> M MatchHandler.t)
         (ops : list Op) (h : MatchHandler.t) : M MatchHandler.t :=
  match ops with
  | [] => ret h
  | op :: ops' => h' <- step op h ;; run_ops step ops' h'
  end.

(** What identifies the pipelines of a handler: the name and the algorithm
    of every detector and of every matcher, in order. *)
Definition detector_sig (d : Detector.t) : string * FeaturePtr :=
  (Detector.name d, Detector.feature d).

Definition matcher_sig (m : Matcher.t) : string * MatcherPtr :=
  (Matcher.name m, Matcher.matcher m).

Definition pipelines (h : MatchHandler.t)
  : list (string * FeaturePtr) * list (string * FeaturePtr)
    * list (string * MatcherPtr) :=
  (map detector_sig (MatchHandler.referDets h),
   map detector_sig (MatchHandler.inputDets h),
   map matcher_sig (MatchHandler.matchers h)).


(** The frame of one pipeline as [DrawSingleResult] of the later version
    leaves it: the output image of [drawMatches], whether or not that call
    failed, with the name written on it. *)
Definition pipeline_frame (L : Library)
           (rdm : Detector.t * Detector.t * Matcher.t) : Lib Mat :=
  let '(ri, di, mi) := rdm in
  putText L
    (fst (drawMatches L (Detector.image di) (Detector.keypts di)
            (Detector.image ri) (Detector.keypts ri)
            (Matcher.matches mi) Mat_default))
    (Detector.name di) (10, 30) FONT_HERSHEY_SIMPLEX 1 0 2.

(** What the later version writes to [std::cerr] for one pipeline. *)
Definition pipeline_log (L : Library)
           (rdm : Detector.t * Detector.t * Matcher.t) : list OutItem :=
  let '(ri, di, mi) := rdm in
  match snd (drawMatches L (Detector.image di) (Detector.keypts di)
               (Detector.image ri) (Detector.keypts ri)
               (Matcher.matches mi) Mat_default) with
  | Some what => [OStr what; OChar newline]
  | None => []
  end.

Definition add_cerr (items : list OutItem) (w : World) : World :=
  {| static_acceptRatio := static_acceptRatio w;
     cout := cout w;
     cerr := cerr w ++ items |}.

(** The handler with its tracked ratio replaced. *)
Definition set_tracked (this : MatchHandler.t) (r : F32.t) : MatchHandler.t :=
  {| MatchHandler.referDets := MatchHandler.referDets this;
     MatchHandler.inputDets := MatchHandler.inputDets this;
     MatchHandler.matchers := MatchHandler.matchers this;
     MatchHandler.acceptRatio := r |}.

(** [std::max(std::min(x, 1.f), 0.f)]. *)
Definition clamp01 (x : F32.t) : F32.t :=
  F32.std_max (F32.std_min x F32.one) F32.zero.

(** What [k] right shifts of an exact mantissa [m0] leave. *)
Definition shifted (m0 k : Z) (mrs : shr_record) : Prop :=
  shr_m mrs = m0 / 2 ^ k /\
  (m0 mod 2 ^ k = 0 -> shr_r mrs = false /\ shr_s mrs = false).

(** The matcher with its stored match list replaced. *)
Definition with_matches (this : Matcher.t) (ms : list DMatch) : Matcher.t :=
  {| Matcher.matcher := Matcher.matcher this;
     Matcher.name := Matcher.name this;
     Matcher.matches := ms;
     Matcher.minMathces := Matcher.minMathces this |}.

(** No distance of the list is a NaN. *)
Definition distances_are_numbers (l : list DMatch) : Prop :=
  Forall (fun d => F32.is_nan (distance d) = false) l.

(** Non-decreasing distance. *)
Definition distance_le (a b : DMatch) : Prop :=
  F32.leb (distance a) (distance b) = true.

(** The contract of [std::sort] for a range on which [operator<] is a strict
    weak ordering, which it is when no distance is a NaN: the result is a
    rearrangement of the input in which no element is less than the one
    before it. *)
Definition DMatch_le (a b : DMatch) : Prop := DMatch_lt b a = false.

Definition std_sort_contract (sort : list DMatch -> list DMatch) : Prop :=
  forall l, distances_are_numbers l ->
            Permutation (sort l) l /\ Sorted DMatch_le (sort l).

(** A computation that leaves the shared acceptance ratio as it found it,
    however it ends. *)
Definition keeps_ratio {A} (m : M A) : Prop :=
  forall w, static_acceptRatio (snd (m w)) = static_acceptRatio w.

(** The detector and the matcher that the specification's tables give for
    a name, and the handler of a list of pipelines: the same detector on the
    reference side and on the input side, and the matcher of position i
    configured for the feature of position i. *)
Definition detector_of (name : string) : Detector.t :=
  Detector.new name (lookup_name name detector_table).

Definition matcher_of (name descName : string) : Matcher.t :=
  Matcher.new name (lookup_name name (matcher_table descName)).

Definition paired_handler (features matcher : list string) : MatchHandler.t :=
  {| MatchHandler.referDets := map detector_of features;
     MatchHandler.inputDets := map detector_of features;
     MatchHandler.matchers :=
       map (fun fm => matcher_of (snd fm) (fst fm)) (combine features matcher);
     MatchHandler.acceptRatio := F32.half |}.

(** The pipelines of a handler, position by position. *)
Definition triples (h : MatchHandler.t)
  : list (Detector.t * Detector.t * Matcher.t) :=
  combine (combine (MatchHandler.referDets h) (MatchHandler.inputDets h))
          (MatchHandler.matchers h).

(** A computation that leaves the whole process state as it found it. *)
Definition keeps_world {A} (m : M A) : Prop := forall w, snd (m w) = w.

(** What configures a matcher: everything but its stored matches. *)
Definition matcher_cfg (m : Matcher.t) : string * MatcherPtr * Z :=
  (Matcher.name m, Matcher.matcher m, Matcher.minMathces m).

(** The count the specification names: floor (n * ratio), the product
    taken on the real numbers.  A finite binary32 number is the dyadic
    number [+-m * 2^e], so the floor is an integer division. *)
Definition floor_of_product (n : Z) (ratio : F32.t) : option Z :=
  match ratio with
  | S754_zero _ => Some 0
  | S754_finite s m e =>
      Some (if 0 <=? e then n * cond_Zopp s (Zpos m) * 2 ^ e
            else n * cond_Zopp s (Zpos m) / 2 ^ (- e))
  | S754_infinity _ | S754_nan => None
  end.

(** *** A library instance on which the definitions compute *)

Module Toy.

Fixpoint insert (x : DMatch) (l : list DMatch) : list DMatch :=
  match l with
  | [] => [x]
  | y :: l' => if DMatch_lt x y then x :: l else y :: insert x l'
  end.

Fixpoint sort (l : list DMatch) : list DMatch :=
  match l with
  | [] => []
  | x :: l' => insert x (sort l')
  end.

Definition keypoint (z : Z) : KeyPoint :=
  {| pt_x := F32.of_Z z; pt_y := F32.zero; size := F32.one;
     angle := F32.zero; response := F32.zero; octave := 0; class_id := 0 |}.

(** One keypoint per element; the descriptors are the elements. *)
Definition detect (f : Feature2D) (img mask : Mat)
  : Lib (list KeyPoint * Mat) :=
  inr (map keypoint (data img), img).

Fixpoint enumerate (i : Z) (l : list Z) : list (Z * Z) :=
  match l with
  | [] => []
  | x :: l' => (i, x) :: enumerate (i + 1) l'
  end.

(** One match per query element, at a distance equal to the element.  The
    approximate matcher reports train indices that do not exist. *)
Definition match_ (m : DescriptorMatcher) (query train : Mat)
  : Lib (list DMatch) :=
  inr (map (fun ix =>
              {| queryIdx := fst ix;
                 trainIdx := match m with
                             | BFMatcher _ => 0
                             | FlannBasedMatcher _ => 1000
                             end;
                 imgIdx := 0;
                 distance := F32.of_Z (snd ix) |})
           (enumerate 0 (data query))).

(** Side by side; it fails, leaving the output image untouched, when a
    match names a keypoint that does not exist. *)
Definition draw (img1 : Mat) (kp1 : list KeyPoint) (img2 : Mat)
           (kp2 : list KeyPoint) (ms : list DMatch) (out : Mat)
  : Mat * option string :=
  if forallb (fun m => (trainIdx m <? Z.of_nat (length kp2))
                       && (queryIdx m <? Z.of_nat (length kp1))) ms
  then ({| rows := Z.max (rows img1) (rows img2);
           cols := cols img1 + cols img2;
           mat_type := mat_type img1;
           data := data img1 ++ data img2 |}, None)
  else (out, Some "keypoint index out of range"%string).

Definition text (img : Mat) (s : string) (org : Z * Z)
           (face scale color thickness : Z) : Lib Mat := inr img.

Definition stack (l : list Mat) : Lib Mat :=
  inr {| rows := fold_right (fun m acc => rows m + acc) 0 l;
         cols := match l with [] => 0 | m :: _ => cols m end;
         mat_type := match l with [] => 0 | m :: _ => mat_type m end;
         data := flat_map data l |}.

Definition scale (src : Mat) (dsize : Z * Z) (fx fy interp : Z) : Lib Mat :=
  inr {| rows := snd dsize; cols := fst dsize;
         mat_type := mat_type src; data := data src |}.

(** The toy platform goes back to the caller at a missing [return], as
    code compiled without optimisation does. *)
Definition lib : Library :=
  {| detectAndCompute := detect;
     cv_match := match_;
     drawMatches := draw;
     putText := text;
     vconcat := stack;
     resize := scale;
     CV_NEON := 0;
     std_sort := sort;
     off_end_returns := true |}.

Definition image (l : list Z) : Mat :=
  {| rows := 1; cols := Z.of_nat (length l); mat_type := 0; data := l |}.

Definition refimg : Mat := image [5; 9].
Definition imageA : Mat := image [7; 3; 8; 1].
Definition imageB : Mat := image [4; 2].

Definition empty_handler : MatchHandler.t :=
  {| MatchHandler.referDets := [];
     MatchHandler.inputDets := [];
     MatchHandler.matchers := [];
     MatchHandler.acceptRatio := F32.half |}.

(** A session on the later version: a handler with two pipelines, then the
    given calls. *)
Definition session (ops : list Op) : Outcome MatchHandler.t * World :=
  (h <- Part000.MatchHandler_ctor ["orb"; "sift"]%string
                                  ["bf"; "flann"]%string ;;
   run_ops (run_op_p0 lib) ops h) initial_world.

Definition handler_of (r : Outcome MatchHandler.t * World)
  : MatchHandler.t :=
  match fst r with Ret h => h | _ => empty_handler end.

(** The handler after the reference image and image A. *)
Definition handler_A : MatchHandler.t :=
  Eval vm_compute in
    handler_of (session [OpSetRefImage refimg; OpMatchImage imageA]).

(** The same session on the earlier version. *)
Definition session_hpp (ops : list Op) : Outcome MatchHandler.t * World :=
  (h <- FeatureHpp.MatchHandler_ctor ["orb"; "sift"]%string
                                     ["bf"; "flann"]%string ;;
   run_ops (run_op_hpp lib) ops h) initial_world.

Definition stored_matches (h : MatchHandler.t) : list (list DMatch) :=
  map (fun m => mr_matches (Matcher.getResult m)) (MatchHandler.matchers h).

Definition bf_matcher : Matcher.t :=
  Matcher.new "bf" (Some (BFMatcher NORM_L1)).

Definition match_at (q t d : Z) : DMatch :=
  {| queryIdx := q; trainIdx := t; imgIdx := 0; distance := F32.of_Z d |}.

(** 0.8f, -2.0f and 0.7f. *)
Definition f0_8 : F32.t := S754_finite false 13421773 (-24).
Definition fm2 : F32.t := S754_finite true 8388608 (-22).
Definition f0_7 : F32.t := S754_finite false 11744051 (-24).

(** 0.2f: added to 0.5f it gives 0.7f. *)
Definition f0_2 : F32.t := S754_finite false 13421773 (-26).

(** An image with ten elements. *)
Definition image10 : Mat := image [10; 9; 8; 7; 6; 5; 4; 3; 2; 1].

(** [cv::vconcat] as OpenCV documents it: the matrices must have the same
    number of columns and the same type. *)
Definition strict_stack (l : list Mat) : Lib Mat :=
  match l with
  | [] => inl "vconcat: no input"%string
  | m0 :: _ =>
      if forallb (fun m => (cols m =? cols m0) && (mat_type m =? mat_type m0))
                 l
      then stack l
      else inl "vconcat: the matrices differ in width or type"%string
  end.

Definition strict_lib : Library :=
  {| detectAndCompute := detect;
     cv_match := match_;
     drawMatches := draw;
     putText := text;
     vconcat := strict_stack;
     resize := scale;
     CV_NEON := 0;
     std_sort := sort;
     off_end_returns := true |}.

End Toy.

(** ** More vocabulary for the properties of the member functions *)

(** The outcome with its returned value transformed. *)
Definition Outcome_map {A B} (f : A -> B) (o : Outcome A) : Outcome B :=
  match o with
  | Ret a => Ret (f a)
  | Throw e => Throw e
  | AssertFail => AssertFail
  | Undefined => Undefined
  end.

(** An outcome that is a return or a [std::exception]: no undefined
    behaviour, no failed assertion, no thrown [std::string]. *)
Definition benign {A} (o : Outcome A) : Prop :=
  match o with
  | Ret _ => True
  | Throw (ExnStd _) => True
  | _ => False
  end.

Definition add_cout (items : list OutItem) (w : World) : World :=
  {| static_acceptRatio := static_acceptRatio w;
     cout := cout w ++ items;
     cerr := cerr w |}.

(** A detector on which [detectAndCompute] can be called and returns. *)
Definition detects (L : Library) (img : Mat) (d : Detector.t) : Prop :=
  exists f kd, Detector.feature d = Some f /\
               detectAndCompute L f img Mat_default = inr kd.

(** What [DetectAndCompute] on image [img] makes of detector [d]. *)
Definition detected (L : Library) (img : Mat) (d d' : Detector.t) : Prop :=
  detector_sig d' = detector_sig d /\
  Detector.image d' = img /\
  exists f, Detector.feature d = Some f /\
            detectAndCompute L f img Mat_default
            = inr (Detector.keypts d', Detector.descriptors d').

(** What the matcher factory of the earlier version writes to [std::cout]
    for a recognised name, and the handler its constructor builds. *)
Definition hpp_trace (name : string) : list OutItem :=
  [OStr "match factorcy"; OEndl;
   OStr (if (name =? "flann")%string then "im in" else "im in2"); OEndl].

Definition hpp_matcher (name : string) : Matcher.t :=
  Matcher.new name
    (Some (if (name =? "flann")%string
           then FlannBasedMatcher DefaultIndexParams
           else BFMatcher NORM_L1)).

Definition hpp_handler (features matcher : list string) : MatchHandler.t :=
  {| MatchHandler.referDets := map detector_of features;
     MatchHandler.inputDets := map detector_of features;
     MatchHandler.matchers := map hpp_matcher matcher;
     MatchHandler.acceptRatio := F32.half |}.

(** A pipeline that the earlier [DrawSingleResult] draws without failure. *)
Definition draws (L : Library) (rdm : Detector.t * Detector.t * Matcher.t)
  : Prop :=
  pipeline_log L rdm = [] /\ exists f, pipeline_frame L rdm = inr f.

(** The world with another value of the shared ratio. *)
Definition with_ratio (r : F32.t) (w : World) : World :=
  {| static_acceptRatio := r; cout := cout w; cerr := cerr w |}.

(** Matcher [m'] is matcher [m] after [MatchDescriptors] on the descriptors
    of the input detector [d] (the query) and of the reference detector [r]
    (the train set), in process state [w]. *)
Definition matched_from (L : Library) (w : World) (r d : Detector.t)
           (m m' : Matcher.t) : Prop :=
  exists algo raw,
    Matcher.matcher m = Some algo /\
    cv_match L algo (Detector.descriptors d) (Detector.descriptors r)
    = inr raw /\
    Matcher.sort_and_truncate L raw w = (Ret (Matcher.matches m'), w) /\
    matcher_cfg m' = matcher_cfg m.

(** A computation that, started in [w], returns or throws a
    [std::exception] and leaves a process state related to [w] by [R]. *)
Definition safe_at {A} (R : World -> World -> Prop) (m : M A) (w : World)
  : Prop :=
  benign (fst (m w)) /\ R w (snd (m w)).

(** The process state [w'] is [w] with more written to [std::cerr]. *)
Definition cerr_grows (w w' : World) : Prop :=
  exists items, w' = add_cerr items w.

(** Two runs that end the same way in the same process state, with returned
    values related by [Rel]. *)
Definition sim {A B} (Rel : A -> B -> Prop)
           (r1 : Outcome A * World) (r2 : Outcome B * World) : Prop :=
  snd r1 = snd r2 /\
  match fst r1, fst r2 with
  | Ret a, Ret b => Rel a b
  | Throw e1, Throw e2 => e1 = e2
  | AssertFail, AssertFail => True
  | Undefined, Undefined => True
  | _, _ => False
  end.

(** The handler with its matchers replaced. *)
Definition with_matchers (this : MatchHandler.t) (ms : list Matcher.t)
  : MatchHandler.t :=
  {| MatchHandler.referDets := MatchHandler.referDets this;
     MatchHandler.inputDets := MatchHandler.inputDets this;
     MatchHandler.matchers := ms;
     MatchHandler.acceptRatio := MatchHandler.acceptRatio this |}.

(** The changes requested by a sequence of calls, in order, and the ratio
    they lead to: every change is added and the sum clamped at once. *)
Definition changes (ops : list Op) : list F32.t :=
  flat_map (fun op => match op with
                      | OpChangeAcceptRatio d => [d]
                      | _ => []
                      end) ops.

Definition apply_changes (r : F32.t) (ds : list F32.t) : F32.t :=
  fold_left (fun r d => clamp01 (F32.add r d)) ds r.

(** A computation whose outcome does not depend on the process state and
    which leaves that state as it is. *)
Definition stateless {A} (m : M A) : Prop :=
  exists o, forall w, m w = (o, w).

(** The same library with a matcher that reports at most [cap] matches. *)
Definition with_match_cap (cap : nat) (L : Library) : Library :=
  {| detectAndCompute := detectAndCompute L;
     cv_match := fun algo q t =>
                   match cv_match L algo q t with
                   | inr raw => inr (firstn cap raw)
                   | inl what => inl what
                   end;
     drawMatches := drawMatches L;
     putText := putText L;
     vconcat := vconcat L;
     resize := resize L;
     CV_NEON := CV_NEON L;
     std_sort := std_sort L;
     off_end_returns := off_end_returns L |}.

(** * Properties *)

(** ** Single-precision comparison and rounding *)

Lemma SFcompare_antisym (x y : spec_float) :
  SFcompare x y = option_map CompOpp (SFcompare y x).
Proof.
  destruct x as [sx | sx | | sx mx ex], y as [sy | sy | | sy my ey];
    simpl; try reflexivity;
    try (destruct sx; reflexivity); try (destruct sy; reflexivity);
    try (destruct sx, sy; reflexivity).
  rewrite (Z.compare_antisym ey ex).
  change (Pos.compare_cont Eq mx my) with (Pos.compare mx my).
  change (Pos.compare_cont Eq my mx) with (Pos.compare my mx).
  rewrite (Pos.compare_antisym my mx).
  destruct sx, sy; simpl; try reflexivity;
    destruct (ey ?= ex); simpl; try reflexivity;
    destruct (my ?= mx)%positive; reflexivity.
Qed.

Lemma SFcompare_not_nan (x y : spec_float) :
  F32.is_nan x = false -> F32.is_nan y = false ->
  exists c, SFcompare x y = Some c.
Proof.
  destruct x, y; simpl; intros Hx Hy; try discriminate; eauto.
Qed.

(** On numbers, [not (x < y)] is [y <= x]. *)
Lemma ltb_false_leb (x y : F32.t) :
  F32.is_nan x = false -> F32.is_nan y = false ->
  F32.ltb x y = false -> F32.leb y x = true.
Proof.
  intros Hx Hy. unfold F32.ltb, F32.leb, SFltb, SFleb.
  rewrite (SFcompare_antisym y x).
  destruct (SFcompare_not_nan x y Hx Hy) as [c ->].
  destruct c; simpl; congruence.
Qed.

Lemma ltb_irrefl_pair (x y : F32.t) :
  F32.ltb x y = true -> F32.ltb y x = false.
Proof.
  unfold F32.ltb, SFltb. rewrite (SFcompare_antisym y x).
  destruct (SFcompare x y) as [[ | | ] | ]; simpl; congruence.
Qed.

(** Shifting right keeps a mantissa non-negative. *)
Lemma shr_1_nonneg (mrs : shr_record) :
  0 <= shr_m mrs -> 0 <= shr_m (shr_1 mrs).
Proof.
  destruct mrs as [m r s]. simpl.
  destruct m as [ | [p | p | ] | [p | p | ]]; simpl; lia.
Qed.

Lemma iter_pos_shr_1_nonneg (p : positive) (mrs : shr_record) :
  0 <= shr_m mrs -> 0 <= shr_m (iter_pos shr_1 p mrs).
Proof.
  revert mrs. induction p as [p IH | p IH | ]; intros mrs H; simpl.
  - apply IH, IH, shr_1_nonneg, H.
  - apply IH, IH, H.
  - apply shr_1_nonneg, H.
Qed.

Lemma shr_fexp_nonneg (m e : Z) (l : location) :
  0 <= m -> 0 <= shr_m (fst (shr_fexp F32.prec F32.emax m e l)).
Proof.
  intros H. unfold shr_fexp, shr.
  assert (H0 : 0 <= shr_m (shr_record_of_loc m l))
    by (destruct l as [ | [ | | ]]; simpl; exact H).
  destruct (fexp F32.prec F32.emax (Zdigits2 m + e) - e); simpl;
    try exact H0.
  apply iter_pos_shr_1_nonneg, H0.
Qed.

Lemma round_nearest_even_nonneg (m : Z) (l : location) :
  0 <= m -> 0 <= round_nearest_even m l.
Proof.
  intros H. destruct l as [ | [ | | ]]; simpl; try lia.
  destruct (Z.even m); lia.
Qed.

(** Rounding a non-negative mantissa never produces a NaN. *)
Lemma binary_round_aux_not_nan (s : bool) (m e : Z) (l : location) :
  0 <= m ->
  F32.is_nan (binary_round_aux F32.prec F32.emax s m e l) = false.
Proof.
  intros H. unfold binary_round_aux.
  pose proof (shr_fexp_nonneg m e l H) as H1.
  destruct (shr_fexp F32.prec F32.emax m e l) as [mrs' e'].
  simpl in H1.
  pose proof (round_nearest_even_nonneg _ (loc_of_shr_record mrs') H1) as H2.
  pose proof (shr_fexp_nonneg _ e' loc_Exact H2) as H3.
  destruct (shr_fexp F32.prec F32.emax
              (round_nearest_even (shr_m mrs') (loc_of_shr_record mrs'))
              e' loc_Exact) as [mrs'' e''].
  simpl in H3.
  destruct (shr_m mrs'') as [ | p | p]; try reflexivity.
  - destruct (e'' <=? F32.emax - F32.prec); reflexivity.
  - lia.
Qed.

Lemma binary_normalize_not_nan (m e : Z) (sz : bool) :
  F32.is_nan (binary_normalize F32.prec F32.emax m e sz) = false.
Proof.
  unfold binary_normalize, binary_round.
  destruct m as [ | p | p]; try reflexivity.
  - destruct (shl_align p e _) as [mz ez].
    apply binary_round_aux_not_nan. lia.
  - destruct (shl_align p e _) as [mz ez].
    apply binary_round_aux_not_nan. lia.
Qed.

(** A sum is a NaN only when an operand is, or when the operands are the
    two infinities. *)
Lemma add_not_nan (x y : F32.t) :
  F32.is_nan x = false -> F32.is_nan y = false ->
  (forall s, x <> S754_infinity s) ->
  F32.is_nan (F32.add x y) = false.
Proof.
  intros Hx Hy Hfin.
  destruct x as [sx | sx | | sx mx ex]; try discriminate.
  - destruct y as [sy | sy | | sy my ey]; try discriminate; simpl;
      try reflexivity.
    destruct sx, sy; reflexivity.
  - exfalso. exact (Hfin sx eq_refl).
  - destruct y as [sy | sy | | sy my ey]; try discriminate;
      try reflexivity.
    unfold F32.add, SFadd. apply binary_normalize_not_nan.
Qed.

(** The clamp of [ChangeAcceptRatio] sends every number into [0,1]. *)
Lemma clamp_in_unit (x : F32.t) :
  F32.is_nan x = false ->
  F32.leb F32.zero (F32.std_max (F32.std_min x F32.one) F32.zero) = true /\
  F32.leb (F32.std_max (F32.std_min x F32.one) F32.zero) F32.one = true.
Proof.
  intros Hx.
  assert (Hmin : F32.is_nan (F32.std_min x F32.one) = false /\
                 F32.leb (F32.std_min x F32.one) F32.one = true).
  { unfold F32.std_min. destruct (F32.ltb F32.one x) eqn:E.
    - split; reflexivity.
    - split; [exact Hx | ].
      apply ltb_false_leb; [reflexivity | exact Hx | exact E]. }
  destruct Hmin as [Hn Hle]. set (y := F32.std_min x F32.one) in *.
  unfold F32.std_max. destruct (F32.ltb y F32.zero) eqn:E.
  - split; reflexivity.
  - split; [ | exact Hle].
    apply ltb_false_leb; [exact Hn | reflexivity | exact E].
Qed.


(** ** Rounding to single precision, in terms of integer arithmetic *)

Lemma digits2_pos_bounds (p : positive) :
  2 ^ (Zpos (digits2_pos p) - 1) <= Zpos p < 2 ^ Zpos (digits2_pos p).
Proof.
  induction p as [p IH | p IH | ]; simpl digits2_pos.
  - rewrite Pos2Z.inj_succ.
    replace (Z.succ (Zpos (digits2_pos p)) - 1)
      with (Z.succ (Zpos (digits2_pos p) - 1)) by lia.
    rewrite !Z.pow_succ_r by lia. lia.
  - rewrite Pos2Z.inj_succ.
    replace (Z.succ (Zpos (digits2_pos p)) - 1)
      with (Z.succ (Zpos (digits2_pos p) - 1)) by lia.
    rewrite !Z.pow_succ_r by lia. lia.
  - simpl. lia.
Qed.

Lemma digits2_pos_unique (p : positive) (d : Z) :
  2 ^ (d - 1) <= Zpos p < 2 ^ d -> Zpos (digits2_pos p) = d.
Proof.
  intros [Hlo Hhi]. pose proof (digits2_pos_bounds p) as [Blo Bhi].
  assert (Hd : 0 < d).
  { destruct (Z_lt_le_dec 0 d) as [H | H]; [exact H | ].
    exfalso. destruct (Z.eq_dec d 0) as [-> | Hne].
    - simpl in Hhi. lia.
    - rewrite Z.pow_neg_r in Hhi by lia. lia. }
  destruct (Z_lt_le_dec (Zpos (digits2_pos p)) d) as [H1 | H1].
  - exfalso.
    assert (2 ^ Zpos (digits2_pos p) <= 2 ^ (d - 1))
      by (apply Z.pow_le_mono_r; lia).
    lia.
  - destruct (Z_lt_le_dec d (Zpos (digits2_pos p))) as [H2 | H2]; [ | lia].
    exfalso.
    assert (2 ^ d <= 2 ^ (Zpos (digits2_pos p) - 1))
      by (apply Z.pow_le_mono_r; lia).
    lia.
Qed.

(** One right shift halves the mantissa and records the bit shifted out. *)
Lemma shr_1_spec (m : Z) (r s : bool) :
  0 <= m ->
  shr_1 {| shr_m := m; shr_r := r; shr_s := s |} =
  {| shr_m := m / 2; shr_r := Z.odd m; shr_s := r || s |}.
Proof.
  intros Hm. destruct m as [ | p | p]; try lia.
  - reflexivity.
  - destruct p as [p | p | ]; simpl shr_1.
    + f_equal. rewrite Pos2Z.inj_xI.
      apply Z.div_unique with (r := 1); lia.
    + f_equal. rewrite Pos2Z.inj_xO.
      apply Z.div_unique with (r := 0); lia.
    + reflexivity.
Qed.

Lemma shifted_step (m0 k : Z) (mrs : shr_record) :
  0 <= m0 -> 0 <= k ->
  shifted m0 k mrs -> shifted m0 (k + 1) (shr_1 mrs).
Proof.
  intros Hm Hk [Hq Hex]. destruct mrs as [m r s]. simpl in Hq, Hex.
  assert (Hpos : 0 < 2 ^ k) by (apply Z.pow_pos_nonneg; lia).
  assert (Hm' : 0 <= m) by (subst m; apply Z.div_pos; lia).
  rewrite shr_1_spec by exact Hm'.
  assert (Hpow : 2 ^ (k + 1) = 2 ^ k * 2) by (rewrite Z.pow_add_r; lia).
  split; simpl.
  - rewrite Hpow, <- Z.div_div by lia. rewrite Hq. reflexivity.
  - intros Hmod. rewrite Hpow in Hmod.
    assert (Hdiv : m0 = 2 ^ k * 2 * (m0 / (2 ^ k * 2)))
      by (pose proof (Z.div_mod m0 (2 ^ k * 2)); lia).
    assert (Hmk : m0 mod 2 ^ k = 0).
    { rewrite Hdiv. rewrite <- Z.mul_assoc, Z.mul_comm.
      apply Z.mod_mul. lia. }
    destruct (Hex Hmk) as [-> ->]. split; [ | reflexivity].
    assert (Hm2 : m = 2 * (m0 / (2 ^ k * 2))).
    { rewrite Hq. rewrite Hdiv at 1.
      rewrite <- Z.mul_assoc, Z.mul_comm, Z.div_mul by lia. lia. }
    rewrite Hm2, Z.odd_mul. reflexivity.
Qed.

Lemma shifted_iter (m0 : Z) (p : positive) :
  0 <= m0 ->
  forall (k : Z) (mrs : shr_record),
    0 <= k -> shifted m0 k mrs ->
    shifted m0 (k + Zpos p) (iter_pos shr_1 p mrs).
Proof.
  intros Hm. induction p as [p IH | p IH | ]; intros k mrs Hk H; simpl.
  - replace (k + Zpos p~1) with (k + 1 + Zpos p + Zpos p) by lia.
    apply IH; [lia | ]. apply IH; [lia | ].
    apply shifted_step; assumption.
  - replace (k + Zpos p~0) with (k + Zpos p + Zpos p) by lia.
    apply IH; [lia | ]. apply IH; assumption.
  - apply shifted_step; assumption.
Qed.

(** The first component of [shr_fexp] on an exact mantissa: the mantissa
    divided by a power of two, the exponent raised by as much. *)
Lemma shr_exact_spec (m0 e k : Z) :
  0 <= m0 ->
  exists mrs,
    shr {| shr_m := m0; shr_r := false; shr_s := false |} e k
    = (mrs, e + Z.max k 0) /\
    shifted m0 (Z.max k 0) mrs.
Proof.
  intros Hm. unfold shr. destruct k as [ | p | p].
  - eexists. split; [f_equal; simpl; lia | ].
    split; simpl; [rewrite Z.div_1_r; reflexivity | auto].
  - eexists. split; [f_equal; lia | ].
    replace (Z.max (Zpos p) 0) with (0 + Zpos p) by lia.
    apply shifted_iter; [exact Hm | lia | ].
    split; simpl; [rewrite Z.div_1_r; reflexivity | auto].
  - eexists. split; [f_equal; simpl; lia | ].
    split; simpl; [rewrite Z.div_1_r; reflexivity | auto].
Qed.

(** Rounding to nearest moves the shifted mantissa up by at most one, and
    only when bits were lost. *)
Lemma round_shifted (m0 k : Z) (mrs : shr_record) :
  0 <= m0 -> 0 <= k -> shifted m0 k mrs ->
  let m' := round_nearest_even (shr_m mrs) (loc_of_shr_record mrs) in
  m0 / 2 ^ k <= m' /\ m' * 2 ^ k < m0 + 2 ^ k /\
  (m0 mod 2 ^ k = 0 -> m' = m0 / 2 ^ k).
Proof.
  intros Hm Hk [Hq Hex] m'.
  assert (Hpos : 0 < 2 ^ k) by (apply Z.pow_pos_nonneg; lia).
  pose proof (Z.div_mod m0 (2 ^ k) ltac:(lia)) as Hdm.
  pose proof (Z.mod_pos_bound m0 (2 ^ k) Hpos) as Hmod.
  destruct (Z.eq_dec (m0 mod 2 ^ k) 0) as [Hz | Hnz].
  - destruct (Hex Hz) as [Hr Hs].
    assert (Hm' : m' = m0 / 2 ^ k).
    { unfold m'. destruct mrs as [m r s]. simpl in *. subst. reflexivity. }
    rewrite Hm'. repeat split; try lia; try nia.
  - assert (Hm' : m0 / 2 ^ k <= m' <= m0 / 2 ^ k + 1).
    { unfold m'. destruct mrs as [m r s]. simpl in *. subst m.
      destruct r, s; simpl; try lia; destruct (Z.even _); lia. }
    repeat split; try lia; try nia.
Qed.

(** [binary_round_aux] on an exact positive mantissa, step by step: a first
    shift by [k] to the target exponent, rounding to nearest, and a second
    shift by [k2] that absorbs a carry. *)
Lemma binary_round_aux_spec (s : bool) (p : positive) (E : Z) :
  let k := Z.max (fexp F32.prec F32.emax (Zpos (digits2_pos p) + E) - E) 0 in
  exists m' : Z,
    Zpos p / 2 ^ k <= m' /\
    m' * 2 ^ k < Zpos p + 2 ^ k /\
    (Zpos p mod 2 ^ k = 0 -> m' = Zpos p / 2 ^ k) /\
    let k2 := Z.max (fexp F32.prec F32.emax (Zdigits2 m' + (E + k))
                     - (E + k)) 0 in
    binary_round_aux F32.prec F32.emax s (Zpos p) E loc_Exact =
    match m' / 2 ^ k2 with
    | Z0 => S754_zero s
    | Zpos q => if E + k + k2 <=? F32.emax - F32.prec
                then S754_finite s q (E + k + k2) else S754_infinity s
    | Zneg _ => S754_nan
    end.
Proof.
  intros k. unfold binary_round_aux, shr_fexp.
  simpl shr_record_of_loc. simpl Zdigits2.
  destruct (shr_exact_spec (Zpos p) E
              (fexp F32.prec F32.emax (Zpos (digits2_pos p) + E) - E)
              ltac:(lia)) as [mrs' [-> Hsh]].
  fold k in Hsh |- *.
  assert (Hk : 0 <= k) by (unfold k; lia).
  pose proof (round_shifted (Zpos p) k mrs' ltac:(lia) Hk Hsh) as Hr.
  cbv zeta in Hr.
  set (m' := round_nearest_even (shr_m mrs') (loc_of_shr_record mrs')) in *.
  exists m'. destruct Hr as [H1 [H2 H3]].
  split; [exact H1 | ]. split; [exact H2 | ]. split; [exact H3 | ].
  set (k2 := Z.max (fexp F32.prec F32.emax (Zdigits2 m' + (E + k))
                      - (E + k)) 0).
  assert (Hpos : 0 < 2 ^ k) by (apply Z.pow_pos_nonneg; lia).
  assert (Hm' : 0 <= m').
  { apply Z.le_trans with (2 := H1). apply Z.div_pos; lia. }
  destruct (shr_exact_spec m' (E + k)
              (fexp F32.prec F32.emax (Zdigits2 m' + (E + k)) - (E + k))
              Hm') as [mrs'' [-> [Hq _]]].
  fold k2 in Hq. rewrite Hq. reflexivity.
Qed.

Lemma fexp_32 (x : Z) : fexp F32.prec F32.emax x = Z.max (x - 24) (-149).
Proof. reflexivity. Qed.

Lemma Zdigits2_le (m b : Z) :
  0 <= m -> 0 <= b -> m < 2 ^ b -> Zdigits2 m <= b.
Proof.
  intros Hm Hb Hlt. destruct m as [ | p | p]; simpl; try lia.
  pose proof (digits2_pos_bounds p) as [Blo _].
  destruct (Z_lt_le_dec b (Zpos (digits2_pos p))) as [H | H]; [ | exact H].
  exfalso.
  assert (2 ^ b <= 2 ^ (Zpos (digits2_pos p) - 1))
    by (apply Z.pow_le_mono_r; lia).
  lia.
Qed.

(** A product that needs no rounding: a 24-bit mantissa [m0] followed by [j]
    zero bits rounds to [m0] itself. *)
Lemma binary_round_aux_exact (s : bool) (m0 p : positive) (e0 j : Z) :
  Zpos (digits2_pos m0) = 24 -> -149 <= e0 <= 104 -> 0 <= j ->
  Zpos p = Zpos m0 * 2 ^ j ->
  binary_round_aux F32.prec F32.emax s (Zpos p) (e0 - j) loc_Exact
  = S754_finite s m0 e0.
Proof.
  intros Hd He Hj Hp.
  pose proof (digits2_pos_bounds m0) as Hb. rewrite Hd in Hb.
  assert (Hpj : 0 < 2 ^ j) by (apply Z.pow_pos_nonneg; lia).
  assert (Hdp : Zpos (digits2_pos p) = 24 + j).
  { apply digits2_pos_unique. rewrite Hp.
    replace (24 + j - 1) with (23 + j) by lia.
    rewrite !Z.pow_add_r by lia. simpl (24 - 1) in Hb. nia. }
  destruct (binary_round_aux_spec s p (e0 - j)) as [m' [_ [_ [Hex Heq]]]].
  rewrite Hdp in Hex, Heq.
  assert (Hk : Z.max (fexp F32.prec F32.emax (24 + j + (e0 - j)) - (e0 - j)) 0
               = j) by (rewrite fexp_32; lia).
  rewrite Hk in Hex, Heq.
  assert (Hm' : m' = Zpos m0).
  { rewrite Hex; rewrite Hp.
    - apply Z.div_mul. lia.
    - apply Z.mod_mul. lia. }
  cbv zeta in Heq. rewrite Hm' in Heq. simpl Zdigits2 in Heq.
  rewrite Hd in Heq.
  assert (Hk2 : Z.max (fexp F32.prec F32.emax (24 + (e0 - j + j))
                       - (e0 - j + j)) 0 = 0) by (rewrite fexp_32; lia).
  rewrite Hk2, Z.pow_0_r, Z.div_1_r in Heq.
  replace (e0 - j + j + 0) with e0 in Heq by lia.
  replace (e0 <=? F32.emax - F32.prec) with true in Heq; [exact Heq | ].
  symmetry. apply Z.leb_le. unfold F32.emax, F32.prec. lia.
Qed.


Lemma Pos_iter_xO (p n : positive) :
  Zpos (Pos.iter xO p n) = Zpos p * 2 ^ Zpos n.
Proof.
  rewrite <- Z.shiftl_mul_pow2 by lia. simpl Z.shiftl.
  apply Pos.iter_swap_gen. reflexivity.
Qed.

(** The conversion of a positive integer below [2^24] is exact: a 24-bit
    mantissa and an exponent between -23 and 0. *)
Lemma of_Z_exact (n : Z) :
  0 < n < 2 ^ 24 ->
  exists (mz : positive) (ez : Z),
    F32.of_Z n = S754_finite false mz ez /\
    Zpos (digits2_pos mz) = 24 /\ -23 <= ez <= 0 /\
    Zpos mz = n * 2 ^ (- ez).
Proof.
  intros Hn. destruct n as [ | p | p]; try lia.
  unfold F32.of_Z, binary_normalize, binary_round.
  pose proof (digits2_pos_bounds p) as [Blo Bhi].
  assert (Hd : Zpos (digits2_pos p) <= 24)
    by (apply (Zdigits2_le (Zpos p)); lia).
  set (d := Zpos (digits2_pos p)) in *.
  assert (Hf : fexp F32.prec F32.emax (d + 0) = d - 24)
    by (rewrite fexp_32; lia).
  rewrite Hf. unfold shl_align.
  destruct (d - 24 - 0) as [ | q | q] eqn:Ed; try lia.
  - (* already 24 bits *)
    assert (Hd24 : d = 24) by lia.
    exists p, 0. split; [ | split; [exact Hd24 | split; [lia | simpl; lia]]].
    replace 0 with (0 - 0) at 1 by lia.
    apply binary_round_aux_exact with (m0 := p); try lia; exact Hd24.
  - (* shifted left to 24 bits *)
    pose proof (Pos_iter_xO p q) as Hmz.
    set (mz := Pos.iter xO p q) in *.
    assert (Hq : Zpos q = 24 - d) by lia.
    assert (Hpq : 0 < 2 ^ Zpos q) by (apply Z.pow_pos_nonneg; lia).
    assert (Hdz : Zpos (digits2_pos mz) = 24).
    { apply digits2_pos_unique. rewrite Hmz.
      assert (H23 : 2 ^ (24 - 1) = 2 ^ (d - 1) * 2 ^ Zpos q)
        by (rewrite <- Z.pow_add_r by lia; f_equal; lia).
      assert (H24 : 2 ^ 24 = 2 ^ d * 2 ^ Zpos q)
        by (rewrite <- Z.pow_add_r by lia; f_equal; lia).
      rewrite H23, H24. nia. }
    exists mz, (d - 24).
    split; [ | split; [exact Hdz | split; [lia | ]]].
    + replace (d - 24) with (d - 24 - 0) at 1 by lia.
      apply binary_round_aux_exact with (m0 := mz); try lia; exact Hdz.
    + rewrite Hmz. f_equal. f_equal. lia.
Qed.

Lemma to_int_finite (m : positive) (e z : Z) :
  e <= 0 -> Zpos m / 2 ^ (- e) = z -> 0 <= z < 2 ^ 24 ->
  F32.to_int (S754_finite false m e) = Some z.
Proof.
  intros He Hz Hr. unfold F32.to_int, F32.trunc, cond_Zopp.
  rewrite Z.shiftl_div_pow2 by lia. rewrite Hz.
  replace ((F32.INT_MIN <=? z) && (z <=? F32.INT_MAX)) with true;
    [reflexivity | ].
  symmetry. apply andb_true_iff. unfold F32.INT_MIN, F32.INT_MAX.
  split; apply Z.leb_le; simpl in *; lia.
Qed.

(** A finite float of the format has a mantissa of at most 24 bits. *)
Lemma valid_mantissa_bound (s : bool) (m : positive) (e : Z) :
  F32.valid (S754_finite s m e) = true -> Zpos m < 2 ^ 24.
Proof.
  unfold F32.valid, valid_binary, bounded, canonical_mantissa.
  intros Hv. apply andb_true_iff in Hv as [Hc _]. apply Z.eqb_eq in Hc.
  rewrite fexp_32 in Hc.
  pose proof (digits2_pos_bounds m) as [_ Bhi].
  apply Z.lt_le_trans with (1 := Bhi).
  apply Z.pow_le_mono_r; lia.
Qed.

(** A positive finite float that compares at most 1.f. *)
Lemma leb_one_finite (m : positive) (e : Z) :
  F32.leb (S754_finite false m e) F32.one = true ->
  e < -23 \/ (e = -23 /\ Zpos m <= 8388608).
Proof.
  unfold F32.leb, SFleb, SFcompare, F32.one.
  destruct (Z.compare_spec e (-23)) as [He | He | He].
  - intros H. right. split; [exact He | ].
    rewrite Pos.compare_cont_spec in H. simpl Pos.switch_Eq in H.
    assert (Hle : (m <= 8388608)%positive).
    { unfold Pos.le. intros Hgt. rewrite Hgt in H. discriminate H. }
    exact (Pos2Z.pos_le_pos _ _ Hle).
  - intros _. left. exact He.
  - discriminate.
Qed.

(** ** The number of matches kept *)


(** The rounded product against the exact one: a product below [2^24] is
    rounded to a binary32 number between the integers around it, so its
    integral part is the floor of the exact product or that floor plus one. *)
Lemma binary_round_aux_floor (p : positive) (E n : Z) :
  E <= 0 -> 0 <= n < 2 ^ 24 -> Zpos p <= n * 2 ^ (- E) ->
  exists z, F32.to_int (binary_round_aux F32.prec F32.emax false
                          (Zpos p) E loc_Exact) = Some z
            /\ Zpos p / 2 ^ (- E) <= z <= Zpos p / 2 ^ (- E) + 1
            /\ 0 <= z <= n.
Proof.
  intros HE Hn Hle.
  pose proof (digits2_pos_bounds p) as [Blo Bhi].
  set (d := Zpos (digits2_pos p)) in *.
  assert (Hd : 0 < d) by (unfold d; lia).
  assert (HpE : 0 < 2 ^ (- E)) by (apply Z.pow_pos_nonneg; lia).
  assert (HdE : d + E - 24 <= 0).
  { assert (H : 2 ^ (d - 1) < 2 ^ (24 - E)).
    { replace (24 - E) with (24 + - E) by lia.
      rewrite Z.pow_add_r by lia. nia. }
    apply Z.pow_lt_mono_r_iff in H; lia. }
  destruct (binary_round_aux_spec false p E) as [m' [H1 [H2 [_ Heq]]]].
  cbv zeta in Heq. fold d in H1, H2, Heq.
  rewrite !fexp_32 in H1, H2, Heq.
  set (k := Z.max (Z.max (d + E - 24) (-149) - E) 0) in *.
  assert (Hk : 0 <= k) by (unfold k; lia).
  set (e' := E + k) in *.
  assert (He' : e' <= 0) by (unfold e', k; lia).
  assert (Hpk : 0 < 2 ^ k) by (apply Z.pow_pos_nonneg; lia).
  assert (Hpe' : 0 < 2 ^ (- e')) by (apply Z.pow_pos_nonneg; lia).
  assert (Hsplit : 2 ^ (- E) = 2 ^ k * 2 ^ (- e')).
  { rewrite <- Z.pow_add_r by lia. f_equal. unfold e'. lia. }
  assert (Hm'0 : 0 <= m').
  { apply Z.le_trans with (2 := H1). apply Z.div_pos; lia. }
  assert (Hm' : m' <= n * 2 ^ (- e')).
  { rewrite Hsplit in Hle.
    assert (m' * 2 ^ k < (n * 2 ^ (- e') + 1) * 2 ^ k) by nia.
    assert (m' < n * 2 ^ (- e') + 1) by nia. lia. }
  (* the rounded mantissa is the truncated one or the next *)
  assert (Hq1 : m' <= Zpos p / 2 ^ k + 1).
  { pose proof (Z.div_mod (Zpos p) (2 ^ k) ltac:(lia)) as Hdm.
    pose proof (Z.mod_pos_bound (Zpos p) (2 ^ k) Hpk) as Hmod.
    assert (m' * 2 ^ k < (Zpos p / 2 ^ k + 2) * 2 ^ k) by nia.
    assert (m' < Zpos p / 2 ^ k + 2) by nia. lia. }
  assert (Hfloor : Zpos p / 2 ^ (- E) = Zpos p / 2 ^ k / 2 ^ (- e')).
  { rewrite Hsplit. symmetry. apply Z.div_div; lia. }
  set (k2 := Z.max (Z.max (Zdigits2 m' + e' - 24) (-149) - e') 0) in *.
  assert (Hdm : Zdigits2 m' <= 24 - e').
  { apply Zdigits2_le; [exact Hm'0 | lia | ].
    replace (24 - e') with (24 + - e') by lia.
    rewrite Z.pow_add_r by lia. nia. }
  assert (Hk2 : 0 <= k2) by (unfold k2; lia).
  set (e'' := e' + k2) in *.
  assert (He'' : e'' <= 0) by (unfold e'', k2; lia).
  assert (Hpk2 : 0 < 2 ^ k2) by (apply Z.pow_pos_nonneg; lia).
  assert (Hpe'' : 0 < 2 ^ (- e'')) by (apply Z.pow_pos_nonneg; lia).
  assert (Hsplit2 : 2 ^ (- e') = 2 ^ k2 * 2 ^ (- e'')).
  { rewrite <- Z.pow_add_r by lia. f_equal. unfold e''. lia. }
  assert (Hz : m' / 2 ^ k2 / 2 ^ (- e'') = m' / 2 ^ (- e')).
  { rewrite Hsplit2. apply Z.div_div; lia. }
  assert (Hlo : Zpos p / 2 ^ (- E) <= m' / 2 ^ (- e')).
  { rewrite Hfloor. apply Z.div_le_mono; lia. }
  assert (Hhi : m' / 2 ^ (- e') <= Zpos p / 2 ^ (- E) + 1).
  { rewrite Hfloor.
    apply Z.le_trans with ((Zpos p / 2 ^ k + 1 * 2 ^ (- e')) / 2 ^ (- e')).
    - apply Z.div_le_mono; lia.
    - rewrite Z.div_add by lia. lia. }
  assert (Hn' : 0 <= m' / 2 ^ (- e') <= n).
  { split; [apply Z.div_pos; lia | ].
    apply Z.div_le_upper_bound; lia. }
  assert (Heq' :
            binary_round_aux F32.prec F32.emax false (Zpos p) E loc_Exact =
            match m' / 2 ^ k2 with
            | Z0 => S754_zero false
            | Zpos q => if e'' <=? F32.emax - F32.prec
                        then S754_finite false q e''
                        else S754_infinity false
            | Zneg _ => S754_nan
            end) by exact Heq.
  rewrite Heq'. clear Heq Heq'.
  assert (Hdiv0 : 0 <= m' / 2 ^ k2) by (apply Z.div_pos; lia).
  exists (m' / 2 ^ (- e')).
  split; [ | split; [split; assumption | exact Hn']].
  rewrite <- Hz.
  destruct (m' / 2 ^ k2) as [ | q | q] eqn:Eq; try lia.
  - rewrite Z.div_0_l by lia. reflexivity.
  - replace (e'' <=? F32.emax - F32.prec) with true
      by (symmetry; apply Z.leb_le; unfold F32.emax, F32.prec; lia).
    unfold F32.to_int, F32.trunc, cond_Zopp.
    rewrite Z.shiftl_div_pow2 by lia.
    assert (Hzq : 0 <= Zpos q / 2 ^ (- e'') <= n) by (rewrite Hz; exact Hn').
    replace ((F32.INT_MIN <=? Zpos q / 2 ^ (- e''))
             && (Zpos q / 2 ^ (- e'') <=? F32.INT_MAX)) with true;
      [reflexivity | ].
    symmetry. apply andb_true_iff. unfold F32.INT_MIN, F32.INT_MAX.
    split; apply Z.leb_le; simpl in *; lia.
Qed.

(** The number of kept matches against the count of the specification: the
    floor of the exact product, or one more when the single-precision
    product is rounded up to the next integer. *)
Lemma numGoodMatches_near_floor (n : nat) (ratio : F32.t) :
  Z.of_nat n < 2 ^ 24 ->
  F32.valid ratio = true -> F32.in_unit ratio = true ->
  exists k f,
    Matcher.numGoodMatches n ratio = Some k /\
    floor_of_product (Z.of_nat n) ratio = Some f /\
    f <= k <= f + 1 /\ 0 <= k <= Z.of_nat n.
Proof.
  intros Hn Hv Hu. unfold Matcher.numGoodMatches.
  unfold F32.in_unit in Hu. apply andb_true_iff in Hu as [Hu0 Hu1].
  destruct (Z.eq_dec (Z.of_nat n) 0) as [H0 | H0].
  - rewrite H0. exists 0, 0.
    destruct ratio as [s | s | | s m e]; try discriminate.
    + repeat split; try reflexivity; lia.
    + destruct s; discriminate.
    + destruct s; [discriminate | ].
      split; [reflexivity | ]. split; [ | lia].
      unfold floor_of_product. cbn [cond_Zopp].
      destruct (0 <=? e); [reflexivity | ].
      rewrite Z.mul_0_l, Z.div_0_l; [reflexivity | ].
      apply Z.pow_nonzero; [lia | ].
      destruct (leb_one_finite _ _ Hu1) as [He | [He _]]; lia.
  - destruct (of_Z_exact (Z.of_nat n) ltac:(lia))
      as [mz [ez [-> [Hdz [Hez Hmz]]]]].
    destruct ratio as [s | s | | s m e]; try discriminate.
    + exists 0, 0. repeat split; try reflexivity; lia.
    + destruct s; discriminate.
    + destruct s; [discriminate | ].
      assert (Hm : e <= -23 /\ Zpos m <= 2 ^ (- e)).
      { pose proof (valid_mantissa_bound _ _ _ Hv) as Hm24.
        destruct (leb_one_finite _ _ Hu1) as [He | [He Hm]].
        - split; [lia | ].
          apply Z.le_trans with (2 ^ 24); [lia | ].
          apply Z.pow_le_mono_r; lia.
        - subst e. split; [lia | ].
          change (2 ^ (- -23)) with 8388608. exact Hm. }
      destruct Hm as [He Hm].
      unfold F32.mul, SFmul. simpl xorb.
      assert (Hpz : 0 < 2 ^ (- ez)) by (apply Z.pow_pos_nonneg; lia).
      assert (Hpe : 0 < 2 ^ (- e)) by (apply Z.pow_pos_nonneg; lia).
      assert (Hpow : 2 ^ (- (ez + e)) = 2 ^ (- ez) * 2 ^ (- e)).
      { replace (- (ez + e)) with (- ez + - e) by lia.
        apply Z.pow_add_r; lia. }
      destruct (binary_round_aux_floor (mz * m) (ez + e) (Z.of_nat n))
        as (z & Hz & Hzf & Hzn); [lia | lia | | ].
      { rewrite Pos2Z.inj_mul, Hmz, Hpow. nia. }
      exists z, (Z.of_nat n * Zpos m / 2 ^ (- e)).
      split; [exact Hz | ]. split.
      * unfold floor_of_product. cbn [cond_Zopp].
        replace (0 <=? e) with false by (symmetry; apply Z.leb_gt; lia).
        reflexivity.
      * split; [ | exact Hzn].
        assert (Hsame : Zpos (mz * m) / 2 ^ (- (ez + e))
                        = Z.of_nat n * Zpos m / 2 ^ (- e)).
        { rewrite Pos2Z.inj_mul, Hmz, Hpow.
          rewrite (Z.mul_comm (Z.of_nat n) (2 ^ (- ez))), <- Z.mul_assoc.
          apply Z.div_mul_cancel_l; lia. }
        rewrite <- Hsame. exact Hzf.
Qed.

(** At ratio 0.5 exactly half of the matches are kept, rounded down. *)
Lemma numGoodMatches_half (n : nat) :
  Z.of_nat n < 2 ^ 24 ->
  Matcher.numGoodMatches n F32.half = Some (Z.of_nat n / 2).
Proof.
  intros Hn. unfold Matcher.numGoodMatches.
  destruct (Z.eq_dec (Z.of_nat n) 0) as [H0 | H0].
  - rewrite H0. reflexivity.
  - destruct (of_Z_exact (Z.of_nat n) ltac:(lia))
      as [mz [ez [-> [Hdz [Hez Hmz]]]]].
    unfold F32.mul, SFmul, F32.half. simpl xorb.
    replace (ez + -24) with (ez - 1 - 23) by lia.
    rewrite (binary_round_aux_exact false mz (mz * 8388608) (ez - 1) 23
               Hdz ltac:(lia) ltac:(lia) ltac:(rewrite Pos2Z.inj_mul; reflexivity)).
    assert (Hp : 0 < 2 ^ (- ez)) by (apply Z.pow_pos_nonneg; lia).
    apply to_int_finite; [lia | | ].
    + replace (- (ez - 1)) with (- ez + 1) by lia.
      rewrite Z.pow_add_r, Hmz, Z.pow_1_r by lia.
      rewrite (Z.mul_comm (2 ^ (- ez)) 2), Z.div_mul_cancel_r by lia.
      reflexivity.
    + split; [apply Z.div_pos; lia | ].
      apply Z.div_lt_upper_bound; lia.
Qed.

(** At ratio 1 every match is kept, at ratio 0 none. *)
Lemma numGoodMatches_one (n : nat) :
  Z.of_nat n < 2 ^ 24 ->
  Matcher.numGoodMatches n F32.one = Some (Z.of_nat n).
Proof.
  intros Hn. unfold Matcher.numGoodMatches.
  destruct (Z.eq_dec (Z.of_nat n) 0) as [H0 | H0].
  - rewrite H0. reflexivity.
  - destruct (of_Z_exact (Z.of_nat n) ltac:(lia))
      as [mz [ez [-> [Hdz [Hez Hmz]]]]].
    unfold F32.mul, SFmul, F32.one. simpl xorb.
    replace (ez + -23) with (ez - 23) by lia.
    rewrite (binary_round_aux_exact false mz (mz * 8388608) ez 23
               Hdz ltac:(lia) ltac:(lia) ltac:(rewrite Pos2Z.inj_mul; reflexivity)).
    assert (Hp : 0 < 2 ^ (- ez)) by (apply Z.pow_pos_nonneg; lia).
    apply to_int_finite; [lia | | lia].
    rewrite Hmz. apply Z.div_mul. lia.
Qed.

Lemma numGoodMatches_zero (n : nat) :
  Z.of_nat n < 2 ^ 24 ->
  Matcher.numGoodMatches n F32.zero = Some 0.
Proof.
  intros Hn. unfold Matcher.numGoodMatches.
  destruct (Z.eq_dec (Z.of_nat n) 0) as [H0 | H0].
  - rewrite H0. reflexivity.
  - destruct (of_Z_exact (Z.of_nat n) ltac:(lia)) as [mz [ez [-> _]]].
    reflexivity.
Qed.

(** The product is rounded to single precision before it is truncated: at
    0.7f, which is a little below 7/10, ten matches keep seven although the
    exact product of 10 and 0.7f is below 7. *)
Example numGoodMatches_rounds_the_product :
  Matcher.numGoodMatches 10 Toy.f0_7 = Some 7 /\
  10 * 11744051 < 7 * 2 ^ 24.
Proof. split; [vm_compute; reflexivity | reflexivity]. Qed.

(** ** The factories *)

(** Case analysis on every string comparison of the goal. *)
Ltac name_cases :=
  repeat match goal with
         | |- context [String.eqb ?a ?b] =>
             destruct (String.eqb_spec a b); try subst; simpl
         end.

Lemma recognised_In (names : list string) (name : string) :
  recognised names name = true <-> In name names.
Proof.
  unfold recognised. rewrite existsb_exists. split.
  - intros [x [Hin Heq]]. apply String.eqb_eq in Heq. subst. exact Hin.
  - intros Hin. exists name. split; [exact Hin | apply String.eqb_refl].
Qed.

(** The later detector factory, as a table lookup. *)
Lemma Detector_Factory_p0_table (name : string) (w : World) :
  Part000.Detector_Factory name w =
  match lookup_name name detector_table with
  | Some a => (Ret (Detector.new name (Some a)), w)
  | None => (Throw (ExnString "error"), w)
  end.
Proof.
  unfold Part000.Detector_Factory, detector_table, lookup_name.
  name_cases; reflexivity.
Qed.

(** The earlier detector factory, as the same table lookup. *)
Lemma Detector_Factory_hpp_table (name : string) (w : World) :
  FeatureHpp.Detector_Factory name w =
  match lookup_name name detector_table with
  | Some a => (Ret (Detector.new name (Some a)), w)
  | None => (Throw (ExnString "error"), w)
  end.
Proof.
  unfold FeatureHpp.Detector_Factory, detector_table, lookup_name, bind.
  name_cases; reflexivity.
Qed.

(** The later matcher factory, as a table lookup. *)
Lemma Matcher_Factory_p0_table (name descName : string) (w : World) :
  Part000.Matcher_Factory name descName w =
  match lookup_name name (matcher_table descName) with
  | Some a => (Ret (Matcher.new name (Some a)), w)
  | None => (Throw (ExnString "error"), w)
  end.
Proof.
  unfold Part000.Matcher_Factory, matcher_table, lookup_name.
  name_cases; reflexivity.
Qed.

Lemma lookup_detector_recognised (name : string) :
  recognised detector_names name = true <->
  exists a, lookup_name name detector_table = Some a.
Proof.
  unfold recognised, detector_names, detector_table, lookup_name, existsb.
  name_cases; split; intros H; try reflexivity; try discriminate;
    eauto; destruct H as [a H]; discriminate.
Qed.

Lemma lookup_matcher_recognised (name descName : string) :
  recognised matcher_names name = true <->
  exists a, lookup_name name (matcher_table descName) = Some a.
Proof.
  unfold recognised, matcher_names, matcher_table, lookup_name, existsb.
  name_cases; split; intros H; try reflexivity; try discriminate;
    eauto; destruct H as [a H]; discriminate.
Qed.

(** The earlier matcher factory takes the matcher name only; it accepts the
    same two names and always builds the default matcher of the strategy. *)
Lemma Matcher_Factory_hpp_cases (name : string) (w : World) :
  (In name matcher_names ->
   exists m w', FeatureHpp.Matcher_Factory name w = (Ret m, w')
                /\ Matcher.name m = name
                /\ (Matcher.matcher m = Some (FlannBasedMatcher DefaultIndexParams)
                    \/ Matcher.matcher m = Some (BFMatcher NORM_L1))
                /\ static_acceptRatio w' = static_acceptRatio w) /\
  (~ In name matcher_names ->
   exists w', FeatureHpp.Matcher_Factory name w = (Throw (ExnString "error"), w')
              /\ static_acceptRatio w' = static_acceptRatio w).
Proof.
  unfold FeatureHpp.Matcher_Factory, matcher_names, bind, put_cout. simpl.
  split.
  - intros [H | [H | []]]; subst; simpl; unfold ret;
      do 2 eexists; (split; [reflexivity | ]); simpl; auto.
  - intros H. name_cases.
    + exfalso. apply H. simpl. auto.
    + exfalso. apply H. simpl. auto.
    + eauto.
Qed.

(** C5: a detector name outside sift, surf, orb, kaze, brisk makes the
    detector factory throw instead of returning a detector, and a matcher
    name outside flann, bf makes the matcher factory throw; for every name
    inside the respective set the factory returns. *)
Theorem factories_accept_exactly_the_recognised_names
        (name descName : string) (w : World) :
  (In name detector_names ->
   exists d, Part000.Detector_Factory name w = (Ret d, w)) /\
  (~ In name detector_names ->
   Part000.Detector_Factory name w = (Throw (ExnString "error"), w)) /\
  (In name matcher_names ->
   exists m, Part000.Matcher_Factory name descName w = (Ret m, w)) /\
  (~ In name matcher_names ->
   Part000.Matcher_Factory name descName w = (Throw (ExnString "error"), w)).
Proof.
  rewrite Detector_Factory_p0_table, Matcher_Factory_p0_table.
  rewrite <- !recognised_In.
  pose proof (lookup_detector_recognised name) as Hd.
  pose proof (lookup_matcher_recognised name descName) as Hm.
  destruct (lookup_name name detector_table) as [a | ];
    destruct (lookup_name name (matcher_table descName)) as [b | ];
    repeat split; intros H; eauto;
    try (exfalso; apply H; apply Hd; eauto);
    try (exfalso; apply H; apply Hm; eauto);
    try (apply Hd in H; destruct H; discriminate);
    try (apply Hm in H; destruct H; discriminate).
Qed.

Lemma factories_accept_exactly_the_recognised_names_witness :
  (exists d, Part000.Detector_Factory "kaze" initial_world
             = (Ret d, initial_world)) /\
  Part000.Detector_Factory "akaze" initial_world
  = (Throw (ExnString "error"), initial_world) /\
  (exists m, Part000.Matcher_Factory "bf" "kaze" initial_world
             = (Ret m, initial_world)) /\
  Part000.Matcher_Factory "knn" "kaze" initial_world
  = (Throw (ExnString "error"), initial_world).
Proof.
  pose proof (factories_accept_exactly_the_recognised_names
                "kaze" "kaze" initial_world) as [H1 _].
  pose proof (factories_accept_exactly_the_recognised_names
                "akaze" "kaze" initial_world) as [_ [H2 _]].
  pose proof (factories_accept_exactly_the_recognised_names
                "bf" "kaze" initial_world) as [_ [_ [H3 _]]].
  pose proof (factories_accept_exactly_the_recognised_names
                "knn" "kaze" initial_world) as [_ [_ [_ H4]]].
  split; [apply H1; simpl; auto | ].
  split; [apply H2; simpl; intuition discriminate | ].
  split; [apply H3; simpl; auto | ].
  apply H4; simpl; intuition discriminate.
Defined.

(** C6: in the factory that takes the matcher name and the descriptor
    algorithm name, the descriptor name selects the metric or the index: for
    orb, bf compares with the Hamming norm and flann searches an LSH index;
    for every other descriptor name, bf uses the L1 norm and flann its
    default index. *)
Theorem Matcher_Factory_selects_metric_by_descriptor
        (descName : string) (w : World) :
  Part000.Matcher_Factory "bf" descName w =
    (Ret (Matcher.new "bf"
            (Some (BFMatcher (if (descName =? "orb")%string
                              then NORM_HAMMING else NORM_L1)))), w) /\
  Part000.Matcher_Factory "flann" descName w =
    (Ret (Matcher.new "flann"
            (Some (FlannBasedMatcher
                     (if (descName =? "orb")%string
                      then LshIndexParams 12 20 2
                      else DefaultIndexParams)))), w).
Proof.
  unfold Part000.Matcher_Factory. simpl.
  destruct (descName =? "orb")%string; split; reflexivity.
Qed.

(** C10: the two versions of the detector factory agree on every string:
    both return on exactly sift, surf, orb, kaze, brisk, with the same
    algorithm and the same stored name, and both throw the string "error"
    on every other input. *)
Theorem Detector_Factory_versions_agree (name : string) (w : World) :
  FeatureHpp.Detector_Factory name w = Part000.Detector_Factory name w /\
  Part000.Detector_Factory name w =
    match lookup_name name detector_table with
    | Some a => (Ret (Detector.new name (Some a)), w)
    | None => (Throw (ExnString "error"), w)
    end /\
  ((exists a, lookup_name name detector_table = Some a) <->
   In name detector_names).
Proof.
  split; [ | split].
  - rewrite Detector_Factory_hpp_table, Detector_Factory_p0_table.
    reflexivity.
  - apply Detector_Factory_p0_table.
  - rewrite <- lookup_detector_recognised. apply recognised_In.
Qed.

(** ** Ordering of distances and the contract of [std::sort] *)

Lemma SFleb_trans (x y z : spec_float) :
  SFleb x y = true -> SFleb y z = true -> SFleb x z = true.
Proof.
  unfold SFleb, SFcompare.
  destruct x as [sx | sx | | sx mx ex], y as [sy | sy | | sy my ey],
           z as [sz | sz | | sz mz ez];
    try (intros; discriminate); try reflexivity;
    try (destruct sx; try (intros; discriminate); try reflexivity);
    try (destruct sy; try (intros; discriminate); try reflexivity);
    try (destruct sz; try (intros; discriminate); try reflexivity);
    change (Pos.compare_cont Eq mx my) with (Pos.compare mx my);
    change (Pos.compare_cont Eq my mz) with (Pos.compare my mz);
    change (Pos.compare_cont Eq mx mz) with (Pos.compare mx mz);
    destruct (Z.compare_spec ex ey); try (intros; discriminate);
    destruct (Z.compare_spec ey ez); try (intros; discriminate);
    destruct (Z.compare_spec ex ez); try reflexivity; try lia;
    try subst;
    destruct (Pos.compare_spec mx my); try (intros; discriminate);
    destruct (Pos.compare_spec my mz); try (intros; discriminate);
    destruct (Pos.compare_spec mx mz); simpl;
    try reflexivity; try (intros; discriminate); try lia.
Qed.

(** Non-decreasing distance, as a relation on matches. *)
Lemma distance_le_trans : Relations_1.Transitive distance_le.
Proof.
  intros a b c Hab Hbc. exact (SFleb_trans _ _ _ Hab Hbc).
Qed.

Lemma DMatch_le_leb (a b : DMatch) :
  F32.is_nan (distance a) = false -> F32.is_nan (distance b) = false ->
  DMatch_le a b -> distance_le a b.
Proof.
  intros Ha Hb H. apply ltb_false_leb; assumption.
Qed.

(** A range without NaN distances that [std::sort] has rearranged is in
    non-decreasing order of distance, every element against every later. *)
Lemma Sorted_distance (l : list DMatch) :
  distances_are_numbers l ->
  Sorted DMatch_le l ->
  StronglySorted distance_le l.
Proof.
  intros Hnn Hs. apply Sorted_StronglySorted; [exact distance_le_trans | ].
  induction Hs as [ | a l Hs IH Hhd].
  - constructor.
  - inversion Hnn as [ | a' l' Ha Hl]; subst.
    constructor; [apply IH; exact Hl | ].
    destruct Hhd as [ | b l Hab]; constructor.
    inversion Hl; subst. apply DMatch_le_leb; assumption.
Qed.

Lemma StronglySorted_app_cross {A} (R : A -> A -> Prop) (l1 l2 : list A) :
  StronglySorted R (l1 ++ l2) ->
  forall a b, In a l1 -> In b l2 -> R a b.
Proof.
  induction l1 as [ | x l1 IH]; intros Hs a b Ha Hb; [destruct Ha | ].
  simpl in Hs. inversion Hs as [ | x' l' Hs' Hall]; subst.
  destruct Ha as [-> | Ha].
  - rewrite Forall_forall in Hall. apply Hall, in_or_app. right. exact Hb.
  - exact (IH Hs' a b Ha Hb).
Qed.

(** The insertion sort of the small library instance meets the contract. *)
Lemma Toy_insert_perm (x : DMatch) (l : list DMatch) :
  Permutation (Toy.insert x l) (x :: l).
Proof.
  induction l as [ | y l IH]; simpl; [reflexivity | ].
  destruct (DMatch_lt x y); [reflexivity | ].
  rewrite IH. apply perm_swap.
Qed.

Lemma Toy_insert_sorted (x : DMatch) (l : list DMatch) :
  Sorted DMatch_le l -> Sorted DMatch_le (Toy.insert x l).
Proof.
  induction l as [ | y l IH]; intros Hs; simpl.
  - repeat constructor.
  - destruct (DMatch_lt x y) eqn:E.
    + constructor; [exact Hs | ]. constructor.
      unfold DMatch_le, DMatch_lt in *. apply ltb_irrefl_pair. exact E.
    + inversion Hs as [ | y' l' Hs' Hhd]; subst.
      constructor; [apply IH; exact Hs' | ].
      destruct l as [ | z l]; simpl.
      * constructor. exact E.
      * destruct (DMatch_lt x z); constructor; [exact E | ].
        inversion Hhd; subst. assumption.
Qed.

Lemma Toy_sort_contract : std_sort_contract Toy.sort.
Proof.
  intros l _. induction l as [ | x l [IHp IHs]]; simpl.
  - split; constructor.
  - split.
    + rewrite Toy_insert_perm. constructor. exact IHp.
    + apply Toy_insert_sorted. exact IHs.
Qed.

(** ** Monad facts *)

Lemma bind_ext {A B} (m : M A) (k1 k2 : A -> M B) (w : World) :
  (forall a w', k1 a w' = k2 a w') -> bind m k1 w = bind m k2 w.
Proof.
  intros H. unfold bind. destruct (m w) as [[a | e | | ] w']; auto.
Qed.

Lemma bind_Ret_inv {A B} (m : M A) (k : A -> M B) (w w' : World) (b : B) :
  bind m k w = (Ret b, w') ->
  exists a w1, m w = (Ret a, w1) /\ k a w1 = (Ret b, w').
Proof.
  unfold bind. destruct (m w) as [[a | e | | ] w1]; intros H;
    try discriminate. eauto.
Qed.

Lemma bind_run {A B} (m : M A) (k : A -> M B) (w w1 : World) (a : A) :
  m w = (Ret a, w1) -> bind m k w = k a w1.
Proof. intros H. unfold bind. rewrite H. reflexivity. Qed.

Lemma bind_throw {A B} (m : M A) (k : A -> M B) (w w1 : World) (e : exn) :
  m w = (Throw e, w1) -> bind m k w = (Throw e, w1).
Proof. intros H. unfold bind. rewrite H. reflexivity. Qed.

Lemma bind_congr {A B} (m1 m2 : M A) (k1 k2 : A -> M B) (w : World) :
  m1 w = m2 w ->
  (forall a w', m2 w = (Ret a, w') -> k1 a w' = k2 a w') ->
  bind m1 k1 w = bind m2 k2 w.
Proof.
  intros Hm Hk. unfold bind. rewrite Hm.
  destruct (m2 w) as [[a | e | | ] w']; auto.
Qed.

Lemma bind_map_ret {A B C} (m : M A) (f : A -> B) (k : B -> M C)
      (w : World) :
  bind (bind m (fun a => ret (f a))) k w = bind m (fun a => k (f a)) w.
Proof.
  unfold bind. destruct (m w) as [[a | e | | ] w']; reflexivity.
Qed.

Lemma bind_ret_r {A} (m : M A) (w : World) : bind m ret w = m w.
Proof.
  unfold bind, ret. destruct (m w) as [[a | e | | ] w']; reflexivity.
Qed.

Lemma ret_inv {A} (a b : A) (w w' : World) :
  ret a w = (Ret b, w') -> a = b /\ w = w'.
Proof. unfold ret. intros H. inversion H. auto. Qed.

Lemma defined_Ret_inv {A} (o : option A) (w w' : World) (a : A) :
  defined o w = (Ret a, w') -> o = Some a /\ w = w'.
Proof.
  destruct o; simpl; unfold ret, undefined; intros H; inversion H; auto.
Qed.

Lemma call_Ret_inv {A} (r : Lib A) (w w' : World) (a : A) :
  call r w = (Ret a, w') -> r = inr a /\ w = w'.
Proof.
  destruct r; simpl; unfold ret, throw; intros H; inversion H; auto.
Qed.

(** Every element of a range-for that completed was processed. *)
Lemma for_each_Forall2 {A B} (f : A -> M B) (R : A -> B -> Prop) :
  (forall x w y w', f x w = (Ret y, w') -> R x y) ->
  forall xs w ys w',
    for_each f xs w = (Ret ys, w') -> Forall2 R xs ys.
Proof.
  intros Hf. induction xs as [ | x xs IH]; intros w ys w' H; simpl in H.
  - apply ret_inv in H as [<- _]. constructor.
  - apply bind_Ret_inv in H as [y [w1 [Hy H]]].
    apply bind_Ret_inv in H as [ys' [w2 [Hys H]]].
    apply ret_inv in H as [<- _].
    constructor; [exact (Hf _ _ _ _ Hy) | exact (IH _ _ _ Hys)].
Qed.

(** A property of the loop state that every iteration keeps. *)
Lemma for_loop_invariant {S} (P : S -> Prop) (body : nat -> S -> M S) :
  (forall i s w s' w', P s -> body i s w = (Ret s', w') -> P s') ->
  forall n i s w s' w',
    P s -> for_loop n i body s w = (Ret s', w') -> P s'.
Proof.
  intros Hb. induction n as [ | n IH]; intros i s w s' w' Hs H; simpl in H.
  - apply ret_inv in H as [<- _]. exact Hs.
  - apply bind_Ret_inv in H as [s1 [w1 [H1 H]]].
    exact (IH _ _ _ _ _ (Hb _ _ _ _ _ Hs H1) H).
Qed.

(** *** Computations that leave the shared ratio alone *)

Create HintDb keeps.

Lemma keeps_ret {A} (a : A) : keeps_ratio (ret a).
Proof. intros w. reflexivity. Qed.

Lemma keeps_throw {A} (e : exn) : keeps_ratio (@throw A e).
Proof. intros w. reflexivity. Qed.

Lemma keeps_undefined {A} : keeps_ratio (@undefined A).
Proof. intros w. reflexivity. Qed.

Lemma keeps_cassert (c : bool) : keeps_ratio (cassert c).
Proof. intros w. unfold cassert. destruct c; reflexivity. Qed.

Lemma keeps_put_cout (items : list OutItem) : keeps_ratio (put_cout items).
Proof. intros w. reflexivity. Qed.

Lemma keeps_put_cerr (items : list OutItem) : keeps_ratio (put_cerr items).
Proof. intros w. reflexivity. Qed.

Lemma keeps_call {A} (r : Lib A) : keeps_ratio (call r).
Proof. intros w. destruct r; reflexivity. Qed.

Lemma keeps_defined {A} (o : option A) : keeps_ratio (defined o).
Proof. intros w. destruct o; reflexivity. Qed.

Lemma keeps_raise_pending (o : option string) : keeps_ratio (raise_pending o).
Proof. intros w. destruct o; reflexivity. Qed.

Lemma keeps_AcceptRatio : keeps_ratio Matcher.AcceptRatio.
Proof. intros w. reflexivity. Qed.

Lemma keeps_bind {A B} (m : M A) (k : A -> M B) :
  keeps_ratio m -> (forall a, keeps_ratio (k a)) -> keeps_ratio (bind m k).
Proof.
  intros Hm Hk w. unfold bind. specialize (Hm w).
  destruct (m w) as [[a | e | | ] w1]; simpl in *; try exact Hm.
  rewrite (Hk a w1). exact Hm.
Qed.

Lemma keeps_try_catch_std {A} (m : M A) (h : string -> M A) :
  keeps_ratio m -> (forall what, keeps_ratio (h what)) ->
  keeps_ratio (try_catch_std m h).
Proof.
  intros Hm Hh w. unfold try_catch_std. specialize (Hm w).
  destruct (m w) as [[a | [s | what] | | ] w1]; simpl in *; try exact Hm.
  rewrite (Hh what w1). exact Hm.
Qed.

Lemma keeps_if {A} (c : bool) (m1 m2 : M A) :
  keeps_ratio m1 -> keeps_ratio m2 -> keeps_ratio (if c then m1 else m2).
Proof. destruct c; auto. Qed.

Lemma keeps_for_each {A B} (f : A -> M B) (xs : list A) :
  (forall x, keeps_ratio (f x)) -> keeps_ratio (for_each f xs).
Proof.
  intros Hf. induction xs as [ | x xs IH]; simpl.
  - apply keeps_ret.
  - apply keeps_bind; [apply Hf | intros y].
    apply keeps_bind; [exact IH | intros ys]. apply keeps_ret.
Qed.

Lemma keeps_for_loop {S} (body : nat -> S -> M S) (n i : nat) (s : S) :
  (forall j t, keeps_ratio (body j t)) -> keeps_ratio (for_loop n i body s).
Proof.
  intros Hb. revert i s. induction n as [ | n IH]; intros i s; simpl.
  - apply keeps_ret.
  - apply keeps_bind; [apply Hb | intros s']. apply IH.
Qed.

#[global] Hint Resolve keeps_ret keeps_throw keeps_undefined keeps_cassert
  keeps_put_cout keeps_put_cerr keeps_call keeps_defined keeps_raise_pending
  keeps_AcceptRatio keeps_bind keeps_try_catch_std keeps_if keeps_for_each
  keeps_for_loop : keeps.

(** Discharges [keeps_ratio] goals by following the structure of the code. *)
Ltac keeps :=
  repeat first
    [ progress intros
    | apply keeps_bind
    | apply keeps_for_each
    | apply keeps_for_loop
    | apply keeps_try_catch_std
    | apply keeps_if
    | solve [auto with keeps]
    | match goal with
      | |- keeps_ratio (match ?x with _ => _ end) => destruct x
      | |- keeps_ratio (let '(_, _) := ?x in _) => destruct x
      end ].

(** ** The downscaling branch of [DrawSingleResult] *)

Lemma resize_guard_p0_false (rows_ : Z) : Part000.resize_guard 0 rows_ = false.
Proof. reflexivity. Qed.

Lemma resize_guard_hpp_false (rows_ : Z) :
  FeatureHpp.resize_guard 0 rows_ = false.
Proof. reflexivity. Qed.

(** C8: in [DrawSingleResult] the guard of the downscaling branch is tested
    with the local [maxheight], which is 0, so it is false for every frame
    height, and the function never calls [cv::resize]: its outcome is the
    same whatever [cv::resize] would do, and the frame it returns is the
    image that [putText] returned, at its own size.  This holds in both
    versions. *)
Theorem DrawSingleResult_never_resizes
        (L : Library) (f : Mat -> Z * Z -> Z -> Z -> Z -> Lib Mat)
        (refDet inpDet : DetectResult) (match_ : MatcherResult) (w : World) :
  (forall rows_ : Z, Part000.resize_guard 0 rows_ = false) /\
  (forall rows_ : Z, FeatureHpp.resize_guard 0 rows_ = false) /\
  Part000.DrawSingleResult (with_resize L f) refDet inpDet match_ w =
  Part000.DrawSingleResult L refDet inpDet match_ w /\
  FeatureHpp.DrawSingleResult (with_resize L f) refDet inpDet match_ w =
  FeatureHpp.DrawSingleResult L refDet inpDet match_ w /\
  (let drawn := drawMatches L (dr_image inpDet) (dr_keypts inpDet)
                  (dr_image refDet) (dr_keypts refDet)
                  (mr_matches match_) Mat_default in
   Part000.DrawSingleResult L refDet inpDet match_ w =
   (try_catch_std (raise_pending (snd drawn))
      (fun what => put_cerr [OStr what; OChar newline]) ;;
    call (putText L (fst drawn) (dr_name inpDet) (10, 30)
            FONT_HERSHEY_SIMPLEX 1 0 2)) w /\
   FeatureHpp.DrawSingleResult L refDet inpDet match_ w =
   (raise_pending (snd drawn) ;;
    call (putText L (fst drawn) (dr_name inpDet) (10, 30)
            FONT_HERSHEY_SIMPLEX 1 0 2)) w).
Proof.
  split; [exact resize_guard_p0_false | ].
  split; [exact resize_guard_hpp_false | ].
  split; [ | split; [ | split]].
  - unfold Part000.DrawSingleResult. simpl.
    apply bind_ext; intros _ w1.
    apply bind_ext; intros matchimg w2.
    reflexivity.
  - unfold FeatureHpp.DrawSingleResult. simpl.
    apply bind_ext; intros _ w1.
    apply bind_ext; intros matchimg w2.
    reflexivity.
  - unfold Part000.DrawSingleResult. simpl.
    apply bind_ext; intros _ w1. apply bind_ret_r.
  - unfold FeatureHpp.DrawSingleResult. simpl.
    apply bind_ext; intros _ w1. apply bind_ret_r.
Qed.

(** ** [ChangeAcceptRatio] *)

Lemma in_unit_number (x : F32.t) :
  F32.in_unit x = true ->
  F32.is_nan x = false /\ forall s, x <> S754_infinity s.
Proof.
  unfold F32.in_unit. intros H. apply andb_true_iff in H as [H0 H1].
  destruct x as [s | s | | s m e]; try discriminate.
  - split; [reflexivity | discriminate].
  - destruct s; discriminate.
  - split; [reflexivity | discriminate].
Qed.

Lemma ChangeAcceptRatio_p0_run (change : F32.t) (this : MatchHandler.t)
      (w : World) :
  let r := clamp01 (F32.add (MatchHandler.acceptRatio this) change) in
  Part000.ChangeAcceptRatio change this w =
  (Ret (set_tracked this r),
   {| static_acceptRatio := r;
      cout := (cout w ++ [OStr " Change number: "; OFloat change; OEndl])
              ++ [OStr "Ratio:"; OFloat r; OEndl];
      cerr := cerr w |}).
Proof. reflexivity. Qed.

Lemma ChangeAcceptRatio_hpp_run (change : F32.t) (this : MatchHandler.t)
      (w : World) :
  let r := clamp01 (F32.add (MatchHandler.acceptRatio this) change) in
  FeatureHpp.ChangeAcceptRatio change this w =
  (Ret (set_tracked this r),
   {| static_acceptRatio := r; cout := cout w; cerr := cerr w |}).
Proof. reflexivity. Qed.

(** C4, as stated, fails: a NaN passes through the sum, through [std::min]
    and through [std::max], and a NaN is stored as the shared ratio. *)
Lemma ChangeAcceptRatio_clamp_counterexample :
  ~ (forall (change : F32.t) (this : MatchHandler.t) (w : World),
        F32.in_unit (MatchHandler.acceptRatio this) = true ->
        F32.in_unit
          (static_acceptRatio (snd (Part000.ChangeAcceptRatio change this w)))
        = true).
Proof.
  intros H.
  specialize (H S754_nan Toy.empty_handler initial_world eq_refl).
  vm_compute in H. discriminate H.
Qed.

(** C4, amended: for every [change] that is not a NaN, applied to a handler
    whose tracked ratio is in [0,1], [ChangeAcceptRatio] adds [change] to the
    tracked ratio, clamps the sum to [0,1], and stores the clamped value both
    as the tracked ratio and as the shared ratio that every matcher reads on
    its next match call; from 0.5, +0.8 gives exactly 1.0 and -2.0 gives
    exactly 0.0.  This holds in both versions. *)
Theorem ChangeAcceptRatio_clamps_numbers :
  (forall (change : F32.t) (this : MatchHandler.t) (w : World),
      F32.is_nan change = false ->
      F32.in_unit (MatchHandler.acceptRatio this) = true ->
      let r := clamp01 (F32.add (MatchHandler.acceptRatio this) change) in
      F32.in_unit r = true /\
      fst (Part000.ChangeAcceptRatio change this w) = Ret (set_tracked this r) /\
      static_acceptRatio (snd (Part000.ChangeAcceptRatio change this w)) = r /\
      fst (FeatureHpp.ChangeAcceptRatio change this w)
      = Ret (set_tracked this r) /\
      static_acceptRatio (snd (FeatureHpp.ChangeAcceptRatio change this w))
      = r /\
      forall w', Matcher.AcceptRatio
                   (snd (Part000.ChangeAcceptRatio change this w')) =
                 (Ret r, snd (Part000.ChangeAcceptRatio change this w'))) /\
  (forall this w,
      MatchHandler.acceptRatio this = F32.half ->
      static_acceptRatio (snd (Part000.ChangeAcceptRatio Toy.f0_8 this w))
      = F32.one /\
      static_acceptRatio (snd (Part000.ChangeAcceptRatio Toy.fm2 this w))
      = F32.zero /\
      static_acceptRatio (snd (FeatureHpp.ChangeAcceptRatio Toy.f0_8 this w))
      = F32.one /\
      static_acceptRatio (snd (FeatureHpp.ChangeAcceptRatio Toy.fm2 this w))
      = F32.zero).
Proof.
  split.
  - intros change this w Hc Hu r.
    destruct (in_unit_number _ Hu) as [Hn Hfin].
    pose proof (add_not_nan _ _ Hn Hc Hfin) as Hsum.
    destruct (clamp_in_unit _ Hsum) as [H0 H1].
    split.
    { unfold F32.in_unit, r, clamp01. rewrite H0, H1. reflexivity. }
    rewrite ChangeAcceptRatio_p0_run, ChangeAcceptRatio_hpp_run.
    repeat split.
  - intros this w H.
    rewrite !ChangeAcceptRatio_p0_run, !ChangeAcceptRatio_hpp_run.
    cbn [snd static_acceptRatio]. rewrite H.
    repeat split; vm_compute; reflexivity.
Qed.

Lemma ChangeAcceptRatio_clamps_numbers_witness :
  F32.in_unit F32.one = true /\
  fst (Part000.ChangeAcceptRatio Toy.f0_8 Toy.empty_handler initial_world)
  = Ret (set_tracked Toy.empty_handler F32.one) /\
  static_acceptRatio
    (snd (Part000.ChangeAcceptRatio Toy.f0_8 Toy.empty_handler initial_world))
  = F32.one.
Proof.
  destruct ChangeAcceptRatio_clamps_numbers as [H _].
  destruct (H Toy.f0_8 Toy.empty_handler initial_world eq_refl eq_refl)
    as [H1 [H2 [H3 _]]].
  split; [exact H1 | split; [exact H2 | exact H3]].
Defined.
(** ** [MatchDescriptors] *)

(** The statements shared by both versions, run on the raw matches: the
    sorted list cut after [numGoodMatches] entries. *)
Lemma sort_and_truncate_run (L : Library) (raw : list DMatch) (w : World)
      (k : Z) :
  length (std_sort L raw) = length raw ->
  Matcher.numGoodMatches (length raw) (static_acceptRatio w) = Some k ->
  0 <= k <= Z.of_nat (length raw) ->
  Matcher.sort_and_truncate L raw w
  = (Ret (firstn (Z.to_nat k) (std_sort L raw)), w).
Proof.
  intros Hlen Hk Hr.
  unfold Matcher.sort_and_truncate, Matcher.AcceptRatio, bind, defined.
  rewrite Hlen, Hk. unfold ret, Matcher.erase_from. rewrite Hlen.
  replace ((0 <=? k) && (k <=? Z.of_nat (length raw))) with true;
    [reflexivity | ].
  symmetry. apply andb_true_iff. split; apply Z.leb_le; lia.
Qed.

(** The closing brace of [MatchDescriptors]. *)
Lemma off_end_run (L : Library) (w : World) :
  off_end L w = (if off_end_returns L then Ret tt else Undefined, w).
Proof. unfold off_end. destruct (off_end_returns L); reflexivity. Qed.

Lemma off_end_Ret_inv (L : Library) (w w' : World) (u : unit) :
  off_end L w = (Ret u, w') -> off_end_returns L = true /\ w' = w.
Proof.
  rewrite off_end_run. destruct (off_end_returns L); intros H;
    [injection H as _ <-; auto | discriminate].
Qed.

(** When the library matcher and the truncation return, the member holds the
    kept matches and control reaches the closing brace. *)
Lemma MatchDescriptors_p0_run (L : Library) (referDesc inputDesc : Mat)
      (this : Matcher.t) (w : World) (m : DescriptorMatcher)
      (raw kept : list DMatch) :
  Matcher.matcher this = Some m ->
  cv_match L m inputDesc referDesc = inr raw ->
  Matcher.sort_and_truncate L raw w = (Ret kept, w) ->
  Part000.MatchDescriptors L referDesc inputDesc this w
  = (if off_end_returns L then Ret (with_matches this kept) else Undefined,
     w).
Proof.
  intros Hm Hraw Hst.
  unfold Part000.MatchDescriptors, bind, defined, call.
  unfold with_matches.
  rewrite Hm. simpl. rewrite Hraw. simpl. rewrite Hst.
  rewrite off_end_run. destruct (off_end_returns L); reflexivity.
Qed.

Lemma MatchDescriptors_hpp_run (L : Library) (referDesc inputDesc : Mat)
      (this : Matcher.t) (w : World) (m : DescriptorMatcher)
      (raw kept : list DMatch) :
  Matcher.matcher this = Some m ->
  cv_match L m inputDesc referDesc = inr raw ->
  Matcher.sort_and_truncate L raw w = (Ret kept, w) ->
  FeatureHpp.MatchDescriptors L referDesc inputDesc this w
  = (if off_end_returns L then Ret this else Undefined, w).
Proof.
  intros Hm Hraw Hst.
  unfold FeatureHpp.MatchDescriptors, bind, defined, call.
  rewrite Hm. simpl. rewrite Hraw. simpl. rewrite Hst.
  rewrite off_end_run. destruct (off_end_returns L); reflexivity.
Qed.

(** What the truncation keeps: the leading [numGoodMatches] entries of the
    sorted raw matches, none of them farther than a dropped one. *)
Lemma sort_and_truncate_lowest (L : Library) (raw : list DMatch) (w : World) :
  std_sort_contract (std_sort L) ->
  distances_are_numbers raw ->
  Z.of_nat (length raw) < 2 ^ 24 ->
  F32.valid (static_acceptRatio w) = true ->
  F32.in_unit (static_acceptRatio w) = true ->
  exists (k : nat) (f : Z) (kept dropped : list DMatch),
    Matcher.numGoodMatches (length raw) (static_acceptRatio w)
    = Some (Z.of_nat k) /\
    floor_of_product (Z.of_nat (length raw)) (static_acceptRatio w)
    = Some f /\
    f <= Z.of_nat k <= f + 1 /\
    Matcher.sort_and_truncate L raw w = (Ret kept, w) /\
    length kept = k /\
    (k <= length raw)%nat /\
    kept ++ dropped = std_sort L raw /\
    Permutation (kept ++ dropped) raw /\
    StronglySorted distance_le (kept ++ dropped) /\
    (forall a b, In a kept -> In b dropped -> distance_le a b).
Proof.
  intros Hsort Hnn Hlen Hv Hu.
  destruct (Hsort raw Hnn) as [Hperm Hsorted].
  pose proof (Permutation_length Hperm) as Hl.
  destruct (numGoodMatches_near_floor (length raw) _ Hlen Hv Hu)
    as (kz & f & Hk & Hf & Hkf & Hkr).
  pose proof (sort_and_truncate_run L raw w kz Hl Hk Hkr) as Hrun.
  set (sorted := std_sort L raw) in *.
  exists (Z.to_nat kz), f, (firstn (Z.to_nat kz) sorted),
    (skipn (Z.to_nat kz) sorted).
  assert (Hss : StronglySorted distance_le sorted).
  { apply Sorted_distance; [ | exact Hsorted].
    unfold distances_are_numbers.
    apply Permutation_Forall with (1 := Permutation_sym Hperm). exact Hnn. }
  rewrite firstn_skipn. rewrite Z2Nat.id by lia.
  split; [exact Hk | ].
  split; [exact Hf | ].
  split; [exact Hkf | ].
  split; [exact Hrun | ].
  split; [apply firstn_length_le; lia | ].
  split; [lia | ].
  split; [reflexivity | ].
  split; [exact Hperm | ].
  split; [exact Hss | ].
  apply StronglySorted_app_cross; rewrite firstn_skipn; exact Hss.
Qed.

(** C1, as stated, fails: the count is not always floor (n * ratio).  After
    [ChangeAcceptRatio(0.2f)] on a new handler the shared ratio is 0.7f, a
    number just below 0.7; of ten raw matches the code keeps seven, where
    the floor of the product is six, because the single-precision product
    is rounded to 7 before it is converted to [int]. *)
Lemma MatchDescriptors_floor_counterexample :
  ~ (forall (L : Library) (referDesc inputDesc : Mat) (this : Matcher.t)
            (w : World) (m : DescriptorMatcher) (raw : list DMatch),
        off_end_returns L = true ->
        std_sort_contract (std_sort L) ->
        Matcher.matcher this = Some m ->
        cv_match L m inputDesc referDesc = inr raw ->
        distances_are_numbers raw ->
        Z.of_nat (length raw) < 2 ^ 24 ->
        F32.valid (static_acceptRatio w) = true ->
        F32.in_unit (static_acceptRatio w) = true ->
        exists (kept : list DMatch) (f : Z),
          Part000.MatchDescriptors L referDesc inputDesc this w
          = (Ret (with_matches this kept), w) /\
          floor_of_product (Z.of_nat (length raw)) (static_acceptRatio w)
          = Some f /\
          Z.of_nat (length kept) = f).
Proof.
  intros H.
  set (w := snd (Part000.ChangeAcceptRatio Toy.f0_2 Toy.empty_handler
                   initial_world)).
  set (raw := match Toy.match_ (BFMatcher NORM_L1) Toy.image10 Toy.refimg with
              | inr r => r
              | inl _ => []
              end).
  destruct (H Toy.lib Toy.refimg Toy.image10 Toy.bf_matcher w
              (BFMatcher NORM_L1) raw)
    as (kept & f & Hmd & Hf & Hlen).
  - reflexivity.
  - exact Toy_sort_contract.
  - reflexivity.
  - reflexivity.
  - vm_compute. repeat constructor.
  - reflexivity.
  - reflexivity.
  - reflexivity.
  - assert (Hact : match fst (Part000.MatchDescriptors Toy.lib Toy.refimg
                                 Toy.image10 Toy.bf_matcher w) with
                   | Ret m0 => length (Matcher.matches m0)
                   | _ => O
                   end = 7%nat) by (vm_compute; reflexivity).
    rewrite Hmd in Hact. cbn [fst with_matches Matcher.matches] in Hact.
    assert (Hf6 : Some 6 = Some f) by (rewrite <- Hf; vm_compute; reflexivity).
    injection Hf6 as <-. rewrite Hact in Hlen. discriminate.
Qed.

(** C1 (amended): when the library matcher has returned [n] raw matches,
    [MatchDescriptors] of the later version sorts them by non-decreasing
    distance and keeps the leading [k], where [k] is the single-precision
    product [float(n) * ratio] converted to [int]: [k] is floor (n * ratio)
    or that floor plus one (10 matches at 0.7f keep 7, the floor being 6),
    and it is the floor at the ratios 0, 0.5 and 1 (100 raw matches at 0.5
    keep 50).  No kept match is farther than a dropped one.  Control then
    reaches the closing brace of a function that has no [return]: the call
    returns with the kept matches stored where the compiled code goes back
    to the caller, and is undefined otherwise.  The ratio is a binary32
    number in [0,1], there are fewer than [2^24] raw matches, none at a NaN
    distance, and [std::sort] meets its contract. *)
Theorem MatchDescriptors_keeps_lowest_distance_fraction
        (L : Library) (referDesc inputDesc : Mat) (this : Matcher.t)
        (w : World) (m : DescriptorMatcher) (raw : list DMatch) :
  std_sort_contract (std_sort L) ->
  Matcher.matcher this = Some m ->
  cv_match L m inputDesc referDesc = inr raw ->
  distances_are_numbers raw ->
  Z.of_nat (length raw) < 2 ^ 24 ->
  F32.valid (static_acceptRatio w) = true ->
  F32.in_unit (static_acceptRatio w) = true ->
  exists (k : nat) (f : Z) (kept dropped : list DMatch),
    Matcher.numGoodMatches (length raw) (static_acceptRatio w)
    = Some (Z.of_nat k) /\
    floor_of_product (Z.of_nat (length raw)) (static_acceptRatio w)
    = Some f /\
    f <= Z.of_nat k <= f + 1 /\
    Part000.MatchDescriptors L referDesc inputDesc this w
    = (if off_end_returns L then Ret (with_matches this kept) else Undefined,
       w) /\
    Matcher.sort_and_truncate L raw w = (Ret kept, w) /\
    length kept = k /\
    (k <= length raw)%nat /\
    kept ++ dropped = std_sort L raw /\
    Permutation (kept ++ dropped) raw /\
    StronglySorted distance_le (kept ++ dropped) /\
    (forall a b, In a kept -> In b dropped -> distance_le a b) /\
    (Matcher.numGoodMatches 100 F32.half = Some 50 /\
     floor_of_product 100 F32.half = Some 50) /\
    (Matcher.numGoodMatches 10 Toy.f0_7 = Some 7 /\
     floor_of_product 10 Toy.f0_7 = Some 6) /\
    (forall n : nat,
        Z.of_nat n < 2 ^ 24 ->
        (Matcher.numGoodMatches n F32.zero = Some 0 /\
         floor_of_product (Z.of_nat n) F32.zero = Some 0) /\
        (Matcher.numGoodMatches n F32.half = Some (Z.of_nat n / 2) /\
         floor_of_product (Z.of_nat n) F32.half = Some (Z.of_nat n / 2)) /\
        (Matcher.numGoodMatches n F32.one = Some (Z.of_nat n) /\
         floor_of_product (Z.of_nat n) F32.one = Some (Z.of_nat n))).
Proof.
  intros Hsort Hm Hraw Hnn Hlen Hv Hu.
  destruct (sort_and_truncate_lowest L raw w Hsort Hnn Hlen Hv Hu)
    as (k & f & kept & dropped & Hk & Hf & Hkf & Hrun & Hlk & Hle & Happ
        & Hperm & Hss & Hcross).
  exists k, f, kept, dropped.
  split; [exact Hk | ].
  split; [exact Hf | ].
  split; [exact Hkf | ].
  split; [exact (MatchDescriptors_p0_run _ _ _ _ _ _ _ _ Hm Hraw Hrun) | ].
  split; [exact Hrun | ].
  split; [exact Hlk | ].
  split; [exact Hle | ].
  split; [exact Happ | ].
  split; [exact Hperm | ].
  split; [exact Hss | ].
  split; [exact Hcross | ].
  split; [split; vm_compute; reflexivity | ].
  split; [split; vm_compute; reflexivity | ].
  intros n Hn.
  split; [split; [exact (numGoodMatches_zero n Hn) | reflexivity] | ].
  split.
  - split; [exact (numGoodMatches_half n Hn) | ].
    unfold floor_of_product, F32.half. cbn [cond_Zopp Z.leb].
    change (0 <=? -24) with false. cbv iota.
    change (2 ^ (- -24)) with (2 * 8388608).
    rewrite (Z.mul_comm (Z.of_nat n)), (Z.mul_comm 2).
    rewrite Z.div_mul_cancel_l by lia. reflexivity.
  - split; [exact (numGoodMatches_one n Hn) | ].
    unfold floor_of_product, F32.one. cbn [cond_Zopp].
    change (0 <=? -23) with false. cbv iota.
    change (2 ^ (- -23)) with 8388608.
    rewrite Z.div_mul by lia. reflexivity.
Qed.

Lemma MatchDescriptors_keeps_lowest_distance_fraction_witness :
  exists (k : nat) (kept dropped : list DMatch),
    Matcher.numGoodMatches 10 Toy.f0_7 = Some (Z.of_nat k) /\
    6 <= Z.of_nat k <= 6 + 1 /\
    Part000.MatchDescriptors Toy.lib Toy.refimg Toy.image10 Toy.bf_matcher
      (snd (Part000.ChangeAcceptRatio Toy.f0_2 Toy.empty_handler
              initial_world))
    = (Ret (with_matches Toy.bf_matcher kept),
       snd (Part000.ChangeAcceptRatio Toy.f0_2 Toy.empty_handler
              initial_world)) /\
    length kept = k /\
    Permutation (kept ++ dropped)
                [Toy.match_at 0 0 10; Toy.match_at 1 0 9;
                 Toy.match_at 2 0 8; Toy.match_at 3 0 7;
                 Toy.match_at 4 0 6; Toy.match_at 5 0 5;
                 Toy.match_at 6 0 4; Toy.match_at 7 0 3;
                 Toy.match_at 8 0 2; Toy.match_at 9 0 1] /\
    (forall a b, In a kept -> In b dropped -> distance_le a b).
Proof.
  destruct (MatchDescriptors_keeps_lowest_distance_fraction
              Toy.lib Toy.refimg Toy.image10 Toy.bf_matcher
              (snd (Part000.ChangeAcceptRatio Toy.f0_2 Toy.empty_handler
                      initial_world))
              (BFMatcher NORM_L1)
              [Toy.match_at 0 0 10; Toy.match_at 1 0 9;
               Toy.match_at 2 0 8; Toy.match_at 3 0 7;
               Toy.match_at 4 0 6; Toy.match_at 5 0 5;
               Toy.match_at 6 0 4; Toy.match_at 7 0 3;
               Toy.match_at 8 0 2; Toy.match_at 9 0 1])
    as (k & f & kept & dropped & H1 & Hf & Hkf & H2 & _ & H3 & _ & _ & H4
        & _ & H5 & _).
  - exact Toy_sort_contract.
  - reflexivity.
  - reflexivity.
  - repeat constructor.
  - reflexivity.
  - reflexivity.
  - reflexivity.
  - exists k, kept, dropped.
    assert (Hf6 : f = 6) by (vm_compute in Hf; congruence).
    subst f. repeat split; try assumption; apply Hkf.
Defined.

(** The kept matches at the default ratio, computed: the two nearest of
    four. *)
Example MatchDescriptors_p0_example :
  Part000.MatchDescriptors Toy.lib Toy.refimg Toy.imageA Toy.bf_matcher
                           initial_world
  = (Ret (with_matches Toy.bf_matcher
            [Toy.match_at 3 0 1; Toy.match_at 1 0 3]), initial_world).
Proof. vm_compute. reflexivity. Qed.

(** ** Who writes the shared ratio *)

Lemma keeps_DetectAndCompute (L : Library) (img : Mat) (d : Detector.t) :
  keeps_ratio (Detector.DetectAndCompute L img d).
Proof. unfold Detector.DetectAndCompute. keeps. Qed.

Lemma keeps_sort_and_truncate (L : Library) (raw : list DMatch) :
  keeps_ratio (Matcher.sort_and_truncate L raw).
Proof. unfold Matcher.sort_and_truncate. keeps. Qed.

Lemma keeps_Detector_Factory_p0 (name : string) :
  keeps_ratio (Part000.Detector_Factory name).
Proof. unfold Part000.Detector_Factory. keeps. Qed.

Lemma keeps_Detector_Factory_hpp (name : string) :
  keeps_ratio (FeatureHpp.Detector_Factory name).
Proof. unfold FeatureHpp.Detector_Factory. keeps. Qed.

Lemma keeps_Matcher_Factory_p0 (name descName : string) :
  keeps_ratio (Part000.Matcher_Factory name descName).
Proof. unfold Part000.Matcher_Factory. keeps. Qed.

Lemma keeps_Matcher_Factory_hpp (name : string) :
  keeps_ratio (FeatureHpp.Matcher_Factory name).
Proof. unfold FeatureHpp.Matcher_Factory. keeps. Qed.

#[global] Hint Resolve keeps_DetectAndCompute keeps_sort_and_truncate
  keeps_Detector_Factory_p0 keeps_Detector_Factory_hpp
  keeps_Matcher_Factory_p0 keeps_Matcher_Factory_hpp : keeps.

Lemma keeps_MatchDescriptors_p0 (L : Library) (r i : Mat) (m : Matcher.t) :
  keeps_ratio (Part000.MatchDescriptors L r i m).
Proof. unfold Part000.MatchDescriptors. keeps. Qed.

Lemma keeps_MatchDescriptors_hpp (L : Library) (r i : Mat) (m : Matcher.t) :
  keeps_ratio (FeatureHpp.MatchDescriptors L r i m).
Proof. unfold FeatureHpp.MatchDescriptors. keeps. Qed.

Lemma keeps_DrawSingleResult_p0 (L : Library) (r i : DetectResult)
      (m : MatcherResult) :
  keeps_ratio (Part000.DrawSingleResult L r i m).
Proof. unfold Part000.DrawSingleResult. cbv zeta. keeps. Qed.

Lemma keeps_DrawSingleResult_hpp (L : Library) (r i : DetectResult)
      (m : MatcherResult) :
  keeps_ratio (FeatureHpp.DrawSingleResult L r i m).
Proof. unfold FeatureHpp.DrawSingleResult. cbv zeta. keeps. Qed.

#[global] Hint Resolve keeps_MatchDescriptors_p0 keeps_MatchDescriptors_hpp
  keeps_DrawSingleResult_p0 keeps_DrawSingleResult_hpp : keeps.

Lemma keeps_MatchHandler_ctor_p0 (features matcher : list string) :
  keeps_ratio (Part000.MatchHandler_ctor features matcher).
Proof. unfold Part000.MatchHandler_ctor. keeps. Qed.

Lemma keeps_MatchHandler_ctor_hpp (features matcher : list string) :
  keeps_ratio (FeatureHpp.MatchHandler_ctor features matcher).
Proof. unfold FeatureHpp.MatchHandler_ctor. keeps. Qed.

Lemma keeps_run_op_p0 (L : Library) (op : Op) (h : MatchHandler.t) :
  is_ChangeAcceptRatio op = false -> keeps_ratio (run_op_p0 L op h).
Proof.
  destruct op; simpl; intros H; try discriminate.
  - unfold Part000.SetRefImage. keeps.
  - unfold Part000.MatchImage. keeps.
  - unfold Part000.DrawMatchResult, Part000.DrawFrames. keeps.
Qed.

Lemma keeps_run_op_hpp (L : Library) (op : Op) (h : MatchHandler.t) :
  is_ChangeAcceptRatio op = false -> keeps_ratio (run_op_hpp L op h).
Proof.
  destruct op; simpl; intros H; try discriminate.
  - unfold FeatureHpp.SetRefImage. keeps.
  - unfold FeatureHpp.MatchImage. keeps.
  - unfold FeatureHpp.DrawMatchResult, FeatureHpp.DrawFrames. keeps.
Qed.

Lemma keeps_run_ops (step : Op -> MatchHandler.t -> M MatchHandler.t)
      (ops : list Op) :
  (forall op h, is_ChangeAcceptRatio op = false -> keeps_ratio (step op h)) ->
  forallb (fun op => negb (is_ChangeAcceptRatio op)) ops = true ->
  forall h, keeps_ratio (run_ops step ops h).
Proof.
  intros Hstep. induction ops as [ | op ops IH]; simpl; intros Hall h.
  - apply keeps_ret.
  - apply andb_true_iff in Hall as [Hop Hall].
    apply negb_true_iff in Hop.
    apply keeps_bind; [exact (Hstep op h Hop) | intros h'].
    exact (IH Hall h').
Qed.

(** The constructor sets the tracked ratio to 0.5f. *)
Lemma MatchHandler_ctor_p0_tracked (features matcher : list string)
      (w w' : World) (h : MatchHandler.t) :
  Part000.MatchHandler_ctor features matcher w = (Ret h, w') ->
  MatchHandler.acceptRatio h = F32.half.
Proof.
  unfold Part000.MatchHandler_ctor. intros H.
  apply bind_Ret_inv in H as [u [w1 [_ H]]].
  apply bind_Ret_inv in H as [r [w2 [_ H]]].
  apply bind_Ret_inv in H as [i [w3 [_ H]]].
  apply bind_Ret_inv in H as [ms [w4 [_ H]]].
  apply ret_inv in H as [<- _]. reflexivity.
Qed.

Lemma MatchHandler_ctor_hpp_tracked (features matcher : list string)
      (w w' : World) (h : MatchHandler.t) :
  FeatureHpp.MatchHandler_ctor features matcher w = (Ret h, w') ->
  MatchHandler.acceptRatio h = F32.half.
Proof.
  unfold FeatureHpp.MatchHandler_ctor. intros H.
  apply bind_Ret_inv in H as [u [w1 [_ H]]].
  apply bind_Ret_inv in H as [r [w2 [_ H]]].
  apply bind_Ret_inv in H as [i [w3 [_ H]]].
  apply bind_Ret_inv in H as [ms [w4 [_ H]]].
  apply ret_inv in H as [<- _]. reflexivity.
Qed.

(** ** Construction of the handler *)

Lemma Detector_Factory_p0_run (name : string) (w : World) :
  Part000.Detector_Factory name w =
  if recognised detector_names name
  then (Ret (detector_of name), w)
  else (Throw (ExnString "error"), w).
Proof.
  rewrite Detector_Factory_p0_table. unfold detector_of.
  pose proof (lookup_detector_recognised name) as H.
  destruct (lookup_name name detector_table) as [a | ].
  - replace (recognised detector_names name) with true; [reflexivity | ].
    symmetry. apply H. eauto.
  - destruct (recognised detector_names name); [ | reflexivity].
    destruct H as [H _]. destruct (H eq_refl). discriminate.
Qed.

Lemma Matcher_Factory_p0_run (name descName : string) (w : World) :
  Part000.Matcher_Factory name descName w =
  if recognised matcher_names name
  then (Ret (matcher_of name descName), w)
  else (Throw (ExnString "error"), w).
Proof.
  rewrite Matcher_Factory_p0_table. unfold matcher_of.
  pose proof (lookup_matcher_recognised name descName) as H.
  destruct (lookup_name name (matcher_table descName)) as [a | ].
  - replace (recognised matcher_names name) with true; [reflexivity | ].
    symmetry. apply H. eauto.
  - destruct (recognised matcher_names name); [ | reflexivity].
    destruct H as [H _]. destruct (H eq_refl). discriminate.
Qed.

Lemma for_each_Detector_Factory_p0 (features : list string) (w : World) :
  for_each Part000.Detector_Factory features w =
  if forallb (recognised detector_names) features
  then (Ret (map detector_of features), w)
  else (Throw (ExnString "error"), w).
Proof.
  induction features as [ | f features IH]; simpl; [reflexivity | ].
  unfold bind at 1. rewrite Detector_Factory_p0_run.
  destruct (recognised detector_names f); simpl; [ | reflexivity].
  unfold bind. rewrite IH.
  destruct (forallb (recognised detector_names) features); reflexivity.
Qed.

Lemma nth_error_skipn_cons {A} (l : list A) (i : nat) (x : A) :
  nth_error l i = Some x -> skipn i l = x :: skipn (S i) l.
Proof.
  revert i. induction l as [ | y l IH]; intros [ | i] H; simpl in *;
    try discriminate.
  - inversion H. reflexivity.
  - exact (IH i H).
Qed.

(** The loop that builds the matchers, from position [i] on. *)
Lemma matchers_loop_p0 (features matcher : list string) (w : World) :
  length features = length matcher ->
  forall (n i : nat) (acc : list Matcher.t),
    (i + n)%nat = length matcher ->
    for_loop n i
      (fun i matchers =>
         mi <- defined (nth_error matcher i) ;;
         di <- defined (nth_error (map detector_of features) i) ;;
         m <- Part000.Matcher_Factory mi (dr_name (Detector.getResult di)) ;;
         ret (matchers ++ [m])) acc w =
    if forallb (recognised matcher_names) (skipn i matcher)
    then (Ret (acc ++ map (fun fm => matcher_of (snd fm) (fst fm))
                          (skipn i (combine features matcher))), w)
    else (Throw (ExnString "error"), w).
Proof.
  intros Hlen. induction n as [ | n IH]; intros i acc Hi.
  - rewrite !skipn_all2 by (rewrite ?length_combine; lia).
    simpl. rewrite app_nil_r. reflexivity.
  - destruct (nth_error matcher i) as [mi | ] eqn:Emi;
      [ | apply nth_error_None in Emi; lia].
    destruct (nth_error features i) as [fi | ] eqn:Efi;
      [ | apply nth_error_None in Efi; lia].
    assert (Ec : nth_error (combine features matcher) i = Some (fi, mi)).
    { clear - Emi Efi. revert i matcher Emi Efi.
      induction features as [ | f features IHf]; intros [ | i] [ | m matcher];
        simpl; intros; try discriminate.
      - congruence.
      - apply IHf; assumption. }
    rewrite (nth_error_skipn_cons _ _ _ Emi), (nth_error_skipn_cons _ _ _ Ec).
    cbn [forallb map fst snd for_loop].
    lazymatch goal with
    | |- bind ?m ?k ?w0 = _ =>
        assert (Hbody : m w0 =
                        if recognised matcher_names mi
                        then (Ret (acc ++ [matcher_of mi fi]), w)
                        else (Throw (ExnString "error"), w))
    end.
    { unfold bind, defined. rewrite Emi, nth_error_map, Efi.
      cbn [option_map]. unfold ret. cbv beta iota.
      rewrite Matcher_Factory_p0_run.
      cbn [dr_name Detector.getResult detector_of Detector.new Detector.name].
      destruct (recognised matcher_names mi); reflexivity. }
    unfold bind at 1. rewrite Hbody.
    destruct (recognised matcher_names mi); cbn [andb]; [ | reflexivity].
    rewrite IH by lia. rewrite <- app_assoc. reflexivity.
Qed.

(** The constructor of the later version, case by case. *)
Lemma MatchHandler_ctor_p0_run (features matcher : list string) (w : World) :
  Part000.MatchHandler_ctor features matcher w =
  if negb (length features =? length matcher)%nat then (AssertFail, w)
  else if forallb (recognised detector_names) features
          && forallb (recognised matcher_names) matcher
       then (Ret (paired_handler features matcher), w)
       else (Throw (ExnString "error"), w).
Proof.
  unfold Part000.MatchHandler_ctor.
  destruct (Nat.eqb_spec (length features) (length matcher)) as [Hlen | Hlen];
    cbn [negb]; [ | reflexivity].
  rewrite (bind_run _ _ w w tt) by reflexivity.
  pose proof (for_each_Detector_Factory_p0 features w) as Hd.
  destruct (forallb (recognised detector_names) features); cbn [andb];
    [ | apply bind_throw; exact Hd].
  rewrite (bind_run _ _ _ _ _ Hd), (bind_run _ _ _ _ _ Hd).
  pose proof (matchers_loop_p0 features matcher w Hlen (length matcher) 0 []
                eq_refl) as Hm.
  cbn [skipn app] in Hm.
  destruct (forallb (recognised matcher_names) matcher);
    [ | apply bind_throw; exact Hm].
  rewrite (bind_run _ _ _ _ _ Hm). reflexivity.
Qed.

(** ** What the member functions keep *)

Lemma Forall2_map_eq {A B C} (f : A -> C) (g : B -> C) (l : list A)
      (l' : list B) :
  Forall2 (fun a b => f a = g b) l l' -> map f l = map g l'.
Proof. induction 1; simpl; congruence. Qed.

Lemma DetectAndCompute_sig (L : Library) (img : Mat) (d d' : Detector.t)
      (w w' : World) :
  Detector.DetectAndCompute L img d w = (Ret d', w') ->
  detector_sig d = detector_sig d'.
Proof.
  unfold Detector.DetectAndCompute. intros H.
  apply bind_Ret_inv in H as [f [w1 [_ H]]].
  apply bind_Ret_inv in H as [kd [w2 [_ H]]].
  apply ret_inv in H as [<- _]. reflexivity.
Qed.

Lemma for_each_DetectAndCompute_sig (L : Library) (img : Mat)
      (ds ds' : list Detector.t) (w w' : World) :
  for_each (Detector.DetectAndCompute L img) ds w = (Ret ds', w') ->
  map detector_sig ds' = map detector_sig ds.
Proof.
  intros H. symmetry. apply Forall2_map_eq.
  refine (for_each_Forall2 _ _ _ _ _ _ _ H).
  intros d w0 d' w1 Hd. exact (DetectAndCompute_sig L img d d' w0 w1 Hd).
Qed.

Lemma MatchDescriptors_p0_sig (L : Library) (r i : Mat) (m m' : Matcher.t)
      (w w' : World) :
  Part000.MatchDescriptors L r i m w = (Ret m', w') ->
  matcher_sig m' = matcher_sig m.
Proof.
  unfold Part000.MatchDescriptors. intros H.
  apply bind_Ret_inv in H as [a [w1 [_ H]]].
  apply bind_Ret_inv in H as [raw [w2 [_ H]]].
  apply bind_Ret_inv in H as [kept [w3 [_ H]]].
  apply bind_Ret_inv in H as [u [w4 [_ H]]].
  apply ret_inv in H as [<- _]. reflexivity.
Qed.

(** The earlier [MatchDescriptors] returns the matcher it was given. *)
Lemma MatchDescriptors_hpp_same (L : Library) (r i : Mat) (m m' : Matcher.t)
      (w w' : World) :
  FeatureHpp.MatchDescriptors L r i m w = (Ret m', w') -> m' = m.
Proof.
  unfold FeatureHpp.MatchDescriptors. intros H.
  apply bind_Ret_inv in H as [a [w1 [_ H]]].
  apply bind_Ret_inv in H as [raw [w2 [_ H]]].
  apply bind_Ret_inv in H as [kept [w3 [_ H]]].
  apply bind_Ret_inv in H as [u [w4 [_ H]]].
  apply ret_inv in H as [<- _]. reflexivity.
Qed.

Lemma set_nth_key {K} (key : Matcher.t -> K) (ms : list Matcher.t)
      (i : nat) (mi mi' : Matcher.t) :
  nth_error ms i = Some mi -> key mi' = key mi ->
  map key (set_nth i mi' ms) = map key ms.
Proof.
  revert i. induction ms as [ | m ms IH]; intros [ | i] Hn Hs; simpl in *;
    try discriminate.
  - inversion Hn; subst. rewrite Hs. reflexivity.
  - rewrite (IH i Hn Hs). reflexivity.
Qed.

Lemma set_nth_same {A} (l : list A) (i : nat) (x : A) :
  nth_error l i = Some x -> set_nth i x l = l.
Proof.
  revert i. induction l as [ | y l IH]; intros [ | i] H; simpl in *;
    try discriminate.
  - inversion H. reflexivity.
  - rewrite (IH i H). reflexivity.
Qed.

(** The matching loop, for any [MatchDescriptors] that keeps some part
    [key] of the matcher. *)
Lemma match_loop_key {K} (key : Matcher.t -> K)
      (MD : Mat -> Mat -> Matcher.t -> M Matcher.t)
      (referDets inputDets : list Detector.t) :
  (forall r i m m' w w', MD r i m w = (Ret m', w') -> key m' = key m) ->
  forall n i ms w ms' w',
    for_loop n i
      (fun i matchers =>
         mi <- defined (nth_error matchers i) ;;
         ri <- defined (nth_error referDets i) ;;
         di <- defined (nth_error inputDets i) ;;
         mi' <- MD (dr_descriptors (Detector.getResult ri))
                   (dr_descriptors (Detector.getResult di)) mi ;;
         ret (set_nth i mi' matchers)) ms w = (Ret ms', w') ->
    map key ms' = map key ms.
Proof.
  intros HMD n i ms w ms' w' H.
  refine (for_loop_invariant
            (fun s => map key s = map key ms) _ _
            n i ms w ms' w' eq_refl H).
  clear - HMD. intros i s w s' w' Hs H.
  apply bind_Ret_inv in H as [mi [w1 [Hmi H]]].
  apply defined_Ret_inv in Hmi as [Hmi _].
  apply bind_Ret_inv in H as [ri [w2 [_ H]]].
  apply bind_Ret_inv in H as [di [w3 [_ H]]].
  apply bind_Ret_inv in H as [mi' [w4 [Hmd H]]].
  apply ret_inv in H as [<- _].
  rewrite (set_nth_key key _ _ _ _ Hmi (HMD _ _ _ _ _ _ Hmd)). exact Hs.
Qed.

Lemma run_op_p0_pipelines (L : Library) (op : Op) (h h' : MatchHandler.t)
      (w w' : World) :
  run_op_p0 L op h w = (Ret h', w') -> pipelines h' = pipelines h.
Proof.
  destruct op as [img | img | d | mh]; simpl; intros H.
  - unfold Part000.SetRefImage in H.
    apply bind_Ret_inv in H as [ds [w1 [Hds H]]].
    apply ret_inv in H as [<- _]. unfold pipelines. simpl.
    rewrite (for_each_DetectAndCompute_sig _ _ _ _ _ _ Hds). reflexivity.
  - unfold Part000.MatchImage in H.
    apply bind_Ret_inv in H as [ds [w1 [Hds H]]].
    apply bind_Ret_inv in H as [ms [w2 [Hms H]]].
    apply ret_inv in H as [<- _]. unfold pipelines. simpl.
    rewrite (for_each_DetectAndCompute_sig _ _ _ _ _ _ Hds).
    rewrite (match_loop_key matcher_sig (Part000.MatchDescriptors L) _ _
               (MatchDescriptors_p0_sig L) _ _ _ _ _ _ Hms).
    reflexivity.
  - rewrite ChangeAcceptRatio_p0_run in H. inversion H. reflexivity.
  - apply bind_Ret_inv in H as [img [w1 [_ H]]].
    apply ret_inv in H as [<- _]. reflexivity.
Qed.

Lemma run_op_hpp_pipelines (L : Library) (op : Op) (h h' : MatchHandler.t)
      (w w' : World) :
  run_op_hpp L op h w = (Ret h', w') -> pipelines h' = pipelines h.
Proof.
  destruct op as [img | img | d | mh]; simpl; intros H.
  - unfold FeatureHpp.SetRefImage in H.
    apply bind_Ret_inv in H as [u [w0 [_ H]]].
    apply bind_Ret_inv in H as [ds [w1 [Hds H]]].
    apply ret_inv in H as [<- _]. unfold pipelines. simpl.
    rewrite (for_each_DetectAndCompute_sig _ _ _ _ _ _ Hds). reflexivity.
  - unfold FeatureHpp.MatchImage in H.
    apply bind_Ret_inv in H as [ds [w1 [Hds H]]].
    apply bind_Ret_inv in H as [ms [w2 [Hms H]]].
    apply ret_inv in H as [<- _]. unfold pipelines. simpl.
    rewrite (for_each_DetectAndCompute_sig _ _ _ _ _ _ Hds).
    rewrite (match_loop_key matcher_sig (FeatureHpp.MatchDescriptors L) _ _
               (fun r i m m' w w' Hmd =>
                  f_equal matcher_sig
                          (MatchDescriptors_hpp_same L r i m m' w w' Hmd))
               _ _ _ _ _ _ Hms).
    reflexivity.
  - rewrite ChangeAcceptRatio_hpp_run in H. inversion H. reflexivity.
  - apply bind_Ret_inv in H as [img [w1 [_ H]]].
    apply ret_inv in H as [<- _]. reflexivity.
Qed.

Lemma forallb_recognised (names : list string) (l : list string) :
  Forall (fun x => In x names) l -> forallb (recognised names) l = true.
Proof.
  intros H. apply forallb_forall. rewrite Forall_forall in H.
  intros x Hx. apply recognised_In. exact (H x Hx).
Qed.

Lemma paired_handler_shape (features matcher : list string) :
  length features = length matcher ->
  let h := paired_handler features matcher in
  length (MatchHandler.referDets h) = length features /\
  length (MatchHandler.inputDets h) = length features /\
  length (MatchHandler.matchers h) = length features /\
  forall i f m,
    nth_error features i = Some f -> nth_error matcher i = Some m ->
    nth_error (MatchHandler.referDets h) i = Some (detector_of f) /\
    nth_error (MatchHandler.inputDets h) i = Some (detector_of f) /\
    nth_error (MatchHandler.matchers h) i = Some (matcher_of m f).
Proof.
  intros Hlen h. unfold h, paired_handler. simpl.
  rewrite !length_map, length_combine, <- Hlen, Nat.min_id.
  repeat split; try reflexivity.
  - rewrite nth_error_map, H. reflexivity.
  - rewrite nth_error_map, H. reflexivity.
  - rewrite nth_error_map.
    assert (Ec : nth_error (combine features matcher) i = Some (f, m)).
    { clear - H H0. revert i matcher H H0.
      induction features as [ | f' features IHf];
        intros [ | i] [ | m' matcher]; simpl; intros; try discriminate.
      - congruence.
      - apply IHf; assumption. }
    rewrite Ec. reflexivity.
Qed.

Lemma cassert_Ret_inv (c : bool) (w w' : World) (u : unit) :
  cassert c w = (Ret u, w') -> c = true /\ w = w'.
Proof.
  unfold cassert. destruct c; intros H; inversion H; auto.
Qed.

(** The constructor of the earlier version, when it returns. *)
Lemma MatchHandler_ctor_hpp_inv (features matcher : list string)
      (w w' : World) (h : MatchHandler.t) :
  FeatureHpp.MatchHandler_ctor features matcher w = (Ret h, w') ->
  length features = length matcher /\
  MatchHandler.referDets h = map detector_of features /\
  MatchHandler.inputDets h = map detector_of features /\
  map Matcher.name (MatchHandler.matchers h) = matcher.
Proof.
  unfold FeatureHpp.MatchHandler_ctor. intros H.
  apply bind_Ret_inv in H as [u [w1 [Ha H]]].
  apply cassert_Ret_inv in Ha as [Hlen _]. apply Nat.eqb_eq in Hlen.
  apply bind_Ret_inv in H as [rs [w2 [Hrs H]]].
  apply bind_Ret_inv in H as [ds [w3 [Hds H]]].
  apply bind_Ret_inv in H as [ms [w4 [Hms H]]].
  apply ret_inv in H as [<- _]. simpl.
  assert (Hfac : forall x w0 y w0',
             FeatureHpp.Detector_Factory x w0 = (Ret y, w0') ->
             detector_of x = id y).
  { intros x w0 y w0' Hx. rewrite Detector_Factory_hpp_table in Hx.
    unfold detector_of.
    destruct (lookup_name x detector_table); inversion Hx. reflexivity. }
  split; [exact Hlen | ].
  split; [ | split].
  - rewrite <- (map_id rs). symmetry. apply Forall2_map_eq.
    exact (for_each_Forall2 _ _ Hfac _ _ _ _ Hrs).
  - rewrite <- (map_id ds). symmetry. apply Forall2_map_eq.
    exact (for_each_Forall2 _ _ Hfac _ _ _ _ Hds).
  - transitivity (map id matcher); [ | apply map_id].
    symmetry. apply Forall2_map_eq.
    refine (for_each_Forall2 _ _ _ _ _ _ _ Hms).
    intros x w0 y w0' Hx. unfold FeatureHpp.Matcher_Factory in Hx.
    apply bind_Ret_inv in Hx as [u' [w5 [_ Hx]]].
    apply bind_Ret_inv in Hx as [p [w6 [_ Hx]]].
    apply ret_inv in Hx as [<- _]. reflexivity.
Qed.

(** C7: construction from two lists of equal length n whose names are
    recognised returns a handler whose [referDets], [inputDets] and
    [matchers] all have length n, position i of each being built from the
    i-th feature name and the i-th matcher name; whenever construction
    returns, it returns that handler; with lists of unequal length it fails
    the assertion before anything is built; and every member function that
    returns leaves the names and algorithms of the three lists, hence their
    lengths and their pairing, as they were.  The earlier version agrees,
    with a matcher that does not depend on the feature name. *)
Theorem MatchHandler_pipelines_stay_paired :
  (forall features matcher w,
      length features = length matcher ->
      Forall (fun f => In f detector_names) features ->
      Forall (fun m => In m matcher_names) matcher ->
      Part000.MatchHandler_ctor features matcher w
      = (Ret (paired_handler features matcher), w)) /\
  (forall features matcher w h w',
      Part000.MatchHandler_ctor features matcher w = (Ret h, w') ->
      length features = length matcher /\ h = paired_handler features matcher) /\
  (forall features matcher,
      length features = length matcher ->
      let h := paired_handler features matcher in
      length (MatchHandler.referDets h) = length features /\
      length (MatchHandler.inputDets h) = length features /\
      length (MatchHandler.matchers h) = length features /\
      forall i f m,
        nth_error features i = Some f -> nth_error matcher i = Some m ->
        nth_error (MatchHandler.referDets h) i = Some (detector_of f) /\
        nth_error (MatchHandler.inputDets h) i = Some (detector_of f) /\
        nth_error (MatchHandler.matchers h) i = Some (matcher_of m f)) /\
  (forall features matcher w h w',
      FeatureHpp.MatchHandler_ctor features matcher w = (Ret h, w') ->
      length features = length matcher /\
      MatchHandler.referDets h = map detector_of features /\
      MatchHandler.inputDets h = map detector_of features /\
      map Matcher.name (MatchHandler.matchers h) = matcher) /\
  (forall features matcher w,
      length features <> length matcher ->
      Part000.MatchHandler_ctor features matcher w = (AssertFail, w) /\
      FeatureHpp.MatchHandler_ctor features matcher w = (AssertFail, w)) /\
  (forall L op h w h' w',
      run_op_p0 L op h w = (Ret h', w') \/
      run_op_hpp L op h w = (Ret h', w') ->
      pipelines h' = pipelines h).
Proof.
  split; [ | split; [ | split; [ | split; [ | split]]]].
  - intros features matcher w Hlen Hf Hm.
    rewrite MatchHandler_ctor_p0_run.
    apply Nat.eqb_eq in Hlen. rewrite Hlen.
    rewrite (forallb_recognised _ _ Hf), (forallb_recognised _ _ Hm).
    reflexivity.
  - intros features matcher w h w' H.
    rewrite MatchHandler_ctor_p0_run in H.
    destruct (Nat.eqb_spec (length features) (length matcher)) as [Hlen | ];
      simpl in H; [ | discriminate].
    destruct (forallb (recognised detector_names) features
              && forallb (recognised matcher_names) matcher);
      inversion H. auto.
  - exact paired_handler_shape.
  - intros features matcher w h w' H.
    exact (MatchHandler_ctor_hpp_inv _ _ _ _ _ H).
  - intros features matcher w Hne.
    apply Nat.eqb_neq in Hne.
    unfold Part000.MatchHandler_ctor, FeatureHpp.MatchHandler_ctor,
      bind, cassert.
    rewrite Hne. split; reflexivity.
  - intros L op h w h' w' [H | H].
    + exact (run_op_p0_pipelines _ _ _ _ _ _ H).
    + exact (run_op_hpp_pipelines _ _ _ _ _ _ H).
Qed.

Lemma MatchHandler_pipelines_stay_paired_witness :
  Part000.MatchHandler_ctor ["orb"; "sift"]%string ["bf"; "flann"]%string
                            initial_world
  = (Ret (paired_handler ["orb"; "sift"]%string ["bf"; "flann"]%string),
     initial_world) /\
  Part000.MatchHandler_ctor ["sift"; "orb"; "kaze"]%string
                            ["bf"; "flann"]%string initial_world
  = (AssertFail, initial_world) /\
  pipelines Toy.handler_A
  = pipelines (paired_handler ["orb"; "sift"]%string ["bf"; "flann"]%string).
Proof.
  destruct MatchHandler_pipelines_stay_paired
    as [Hctor [_ [_ [_ [Hassert Hops]]]]].
  split; [ | split].
  - apply Hctor; [reflexivity | | ];
      repeat (match goal with |- Forall _ _ => constructor end);
      unfold detector_names, matcher_names; simpl; auto 10.
  - apply (Hassert ["sift"; "orb"; "kaze"]%string ["bf"; "flann"]%string
             initial_world). simpl. discriminate.
  - apply (Hops Toy.lib (OpMatchImage Toy.imageA)
             (Toy.handler_of (Toy.session [OpSetRefImage Toy.refimg]))
             initial_world Toy.handler_A initial_world).
    left. vm_compute. reflexivity.
Defined.

(** ** Drawing *)

Lemma add_cerr_nil (w : World) : add_cerr [] w = w.
Proof. destruct w. unfold add_cerr. simpl. rewrite app_nil_r. reflexivity. Qed.

Lemma add_cerr_app (a b : list OutItem) (w : World) :
  add_cerr b (add_cerr a w) = add_cerr (a ++ b) w.
Proof. unfold add_cerr. simpl. rewrite app_assoc. reflexivity. Qed.

(** [DrawSingleResult] of the later version: the exception of
    [drawMatches] is caught and its message written to [std::cerr]; the
    frame is whatever [putText] makes of the output image, and only a
    failure of [putText] propagates. *)
Lemma DrawSingleResult_p0_run (L : Library) (ri di : Detector.t)
      (mi : Matcher.t) (w : World) :
  Part000.DrawSingleResult L (Detector.getResult ri) (Detector.getResult di)
                           (Matcher.getResult mi) w =
  match pipeline_frame L (ri, di, mi) with
  | inr f => (Ret f, add_cerr (pipeline_log L (ri, di, mi)) w)
  | inl what =>
      (Throw (ExnStd what), add_cerr (pipeline_log L (ri, di, mi)) w)
  end.
Proof.
  unfold Part000.DrawSingleResult, pipeline_frame, pipeline_log.
  cbv zeta. cbn [Detector.getResult Matcher.getResult dr_image dr_keypts
                   dr_name mr_matches].
  destruct (drawMatches L (Detector.image di) (Detector.keypts di)
              (Detector.image ri) (Detector.keypts ri)
              (Matcher.matches mi) Mat_default) as [left [what | ]];
    cbn [fst snd].
  - unfold bind at 1, try_catch_std, raise_pending, throw, put_cerr.
    fold (add_cerr [OStr what; OChar newline] w).
    unfold bind at 1.
    destruct (putText L left (Detector.name di) (10, 30)
                FONT_HERSHEY_SIMPLEX 1 0 2) as [e | f]; reflexivity.
  - unfold bind at 1, try_catch_std, raise_pending, ret at 1.
    rewrite add_cerr_nil. unfold bind at 1.
    destruct (putText L left (Detector.name di) (10, 30)
                FONT_HERSHEY_SIMPLEX 1 0 2) as [e | f]; reflexivity.
Qed.

(** [DrawSingleResult] of the earlier version has no handler: a failure of
    [drawMatches] leaves the function as an exception. *)
Lemma DrawSingleResult_hpp_propagates (L : Library) (ri di : Detector.t)
      (mi : Matcher.t) (w : World) (left : Mat) (what : string) :
  drawMatches L (Detector.image di) (Detector.keypts di)
    (Detector.image ri) (Detector.keypts ri) (Matcher.matches mi) Mat_default
  = (left, Some what) ->
  FeatureHpp.DrawSingleResult L (Detector.getResult ri)
    (Detector.getResult di) (Matcher.getResult mi) w
  = (Throw (ExnStd what), w).
Proof.
  intros H. unfold FeatureHpp.DrawSingleResult. cbv zeta.
  cbn [Detector.getResult Matcher.getResult dr_image dr_keypts
         dr_name mr_matches].
  rewrite H. reflexivity.
Qed.

Lemma nth_error_combine {A B} (l1 : list A) (l2 : list B) (i : nat) :
  nth_error (combine l1 l2) i =
  match nth_error l1 i, nth_error l2 i with
  | Some a, Some b => Some (a, b)
  | _, _ => None
  end.
Proof.
  revert l2 i. induction l1 as [ | a l1 IH]; intros [ | b l2] [ | i];
    simpl; try reflexivity.
  - destruct (nth_error l1 i); reflexivity.
  - apply IH.
Qed.

(** The loop of [DrawMatchResult] from position [i] on: one frame per
    pipeline, whatever [drawMatches] did. *)
Lemma DrawFrames_p0_loop (L : Library) (h : MatchHandler.t) :
  length (MatchHandler.referDets h) = length (MatchHandler.matchers h) ->
  length (MatchHandler.inputDets h) = length (MatchHandler.matchers h) ->
  forall (n i : nat) (acc frames : list Mat) (w : World),
    (i + n)%nat = length (MatchHandler.matchers h) ->
    Forall2 (fun rdm f => pipeline_frame L rdm = inr f)
            (skipn i (triples h)) frames ->
    for_loop n i
      (fun i resultImgs =>
         ri <- defined (nth_error (MatchHandler.referDets h) i) ;;
         di <- defined (nth_error (MatchHandler.inputDets h) i) ;;
         mi <- defined (nth_error (MatchHandler.matchers h) i) ;;
         result <- Part000.DrawSingleResult L (Detector.getResult ri)
                     (Detector.getResult di) (Matcher.getResult mi) ;;
         ret (resultImgs ++ [result])) acc w =
    (Ret (acc ++ frames),
     add_cerr (flat_map (pipeline_log L) (skipn i (triples h))) w).
Proof.
  intros Hr Hd.
  assert (Hlen : length (triples h) = length (MatchHandler.matchers h)).
  { unfold triples. rewrite !length_combine. lia. }
  induction n as [ | n IH]; intros i acc frames w Hi Hf.
  - rewrite skipn_all2 in Hf |- * by lia. inversion Hf; subst.
    simpl. rewrite app_nil_r, add_cerr_nil. reflexivity.
  - destruct (nth_error (MatchHandler.referDets h) i) as [ri | ] eqn:Eri;
      [ | apply nth_error_None in Eri; lia].
    destruct (nth_error (MatchHandler.inputDets h) i) as [di | ] eqn:Edi;
      [ | apply nth_error_None in Edi; lia].
    destruct (nth_error (MatchHandler.matchers h) i) as [mi | ] eqn:Emi;
      [ | apply nth_error_None in Emi; lia].
    assert (Et : nth_error (triples h) i = Some (ri, di, mi)).
    { unfold triples. rewrite !nth_error_combine, Eri, Edi, Emi.
      reflexivity. }
    rewrite (nth_error_skipn_cons _ _ _ Et) in Hf |- *.
    inversion Hf as [ | rdm f rest frames' Hfr Hrest]; subst.
    cbn [for_loop flat_map].
    lazymatch goal with
    | |- bind ?m ?k ?w0 = _ =>
        assert (Hbody : m w0 =
                        (Ret (acc ++ [f]),
                         add_cerr (pipeline_log L (ri, di, mi)) w))
    end.
    { unfold bind, defined. rewrite Eri, Edi, Emi. unfold ret at 1 2 3.
      rewrite DrawSingleResult_p0_run, Hfr. reflexivity. }
    rewrite (bind_run _ _ _ _ _ Hbody).
    rewrite (IH (S i) (acc ++ [f]) frames' _ ltac:(lia) Hrest).
    rewrite <- app_assoc, add_cerr_app. reflexivity.
Qed.


Lemma Forall2_nth_error_l {A B} (R : A -> B -> Prop) (l : list A)
      (l' : list B) (i : nat) (x : A) :
  Forall2 R l l' -> nth_error l i = Some x ->
  exists y, nth_error l' i = Some y /\ R x y.
Proof.
  intros H; revert i; induction H as [ | a b l l' Hab _ IH]; intros [ | i] Hi;
    simpl in *; try discriminate.
  - injection Hi as <-. eauto.
  - auto.
Qed.

(** [cv::vconcat] of the toy library that checks the widths accepts what
    OpenCV documents as acceptable. *)
Lemma Toy_strict_stack_accepts (m0 : Mat) (l : list Mat) :
  Forall (fun m => cols m = cols m0 /\ mat_type m = mat_type m0) l ->
  exists out, Toy.strict_stack (m0 :: l) = inr out.
Proof.
  intros H. unfold Toy.strict_stack.
  assert (Hall : forallb (fun m => (cols m =? cols m0)
                                   && (mat_type m =? mat_type m0))
                         (m0 :: l) = true).
  { simpl. rewrite !Z.eqb_refl. simpl.
    apply forallb_forall. intros m Hm.
    rewrite Forall_forall in H. destruct (H m Hm) as [-> ->].
    rewrite !Z.eqb_refl. reflexivity. }
  rewrite Hall. unfold Toy.stack. eauto.
Qed.

(** C3, as stated, fails: a failed [drawMatches] does not guarantee a
    composite.  The failure is caught, but the frame of that pipeline is what
    [drawMatches] left in the output image, here the empty default image, and
    [cv::vconcat], which is called outside the handler, rejects frames of
    different widths.  With a library whose [putText] and [resize] always
    return and whose [vconcat] accepts every list of matrices of one width
    and type, [DrawMatchResult] throws on a handler with two pipelines of
    which the second fails in [drawMatches]. *)
Lemma DrawMatchResult_composite_counterexample :
  ~ (forall (L : Library) (maxHeight : Z) (h : MatchHandler.t) (w : World),
        length (MatchHandler.referDets h)
        = length (MatchHandler.matchers h) ->
        length (MatchHandler.inputDets h)
        = length (MatchHandler.matchers h) ->
        (forall img text org face scale color thickness,
            exists out,
              putText L img text org face scale color thickness = inr out) ->
        (forall src dsize fx fy interp,
            exists out, resize L src dsize fx fy interp = inr out) ->
        (forall m0 l,
            Forall (fun m => cols m = cols m0 /\ mat_type m = mat_type m0) l ->
            exists out, vconcat L (m0 :: l) = inr out) ->
        exists out w',
          Part000.DrawMatchResult L maxHeight h w = (Ret out, w')).
Proof.
  intros H.
  destruct (H Toy.strict_lib 1000 Toy.handler_A initial_world)
    as (out & w' & Hrun).
  - reflexivity.
  - reflexivity.
  - intros. eexists. reflexivity.
  - intros. eexists. reflexivity.
  - exact Toy_strict_stack_accepts.
  - vm_compute in Hrun. discriminate.
Qed.

(** C3 (amended): in a handler with N pipelines, a failure of [drawMatches]
    for a pipeline is caught inside [DrawSingleResult] of the later version
    and its message written to [std::cerr]; the frame of that pipeline is
    what [drawMatches] left in the output image (the empty default image
    when it wrote nothing), passed to [putText] like any other.  When
    [putText] returns on the image of every pipeline, the loop of
    [DrawMatchResult] collects N frames, frame i being that of pipeline i,
    and hands them to [vconcat]; [DrawMatchResult] returns the composite
    (halved by [resize] when it is taller than [maxHeight]) exactly when
    [vconcat], and [resize] if called, return, and otherwise throws their
    exception: nothing makes [vconcat] accept a blank frame among others. *)
Theorem DrawMatchResult_with_failed_drawMatches
        (L : Library) (h : MatchHandler.t) (w : World) (maxHeight : Z)
        (frames : list Mat) :
  length (MatchHandler.referDets h) = length (MatchHandler.matchers h) ->
  length (MatchHandler.inputDets h) = length (MatchHandler.matchers h) ->
  Forall2 (fun rdm f => pipeline_frame L rdm = inr f) (triples h) frames ->
  let w' := add_cerr (flat_map (pipeline_log L) (triples h)) w in
  Part000.DrawFrames L h w = (Ret frames, w') /\
  length frames = length (MatchHandler.matchers h) /\
  (forall i ri di mi,
      nth_error (triples h) i = Some (ri, di, mi) ->
      exists f,
        nth_error frames i = Some f /\
        putText L
          (fst (drawMatches L (Detector.image di) (Detector.keypts di)
                  (Detector.image ri) (Detector.keypts ri)
                  (Matcher.matches mi) Mat_default))
          (Detector.name di) (10, 30) FONT_HERSHEY_SIMPLEX 1 0 2 = inr f) /\
  Part000.DrawMatchResult L maxHeight h w =
    match vconcat L frames with
    | inl what => (Throw (ExnStd what), w')
    | inr stackedResult =>
        if maxHeight <? rows stackedResult then
          match resize L stackedResult
                  (Z.quot (cols stackedResult) 2,
                   Z.quot (rows stackedResult) 2) 0 0 (CV_NEON L) with
          | inl what => (Throw (ExnStd what), w')
          | inr out => (Ret out, w')
          end
        else (Ret stackedResult, w')
    end /\
  (forall ri di mi left what w0,
      drawMatches L (Detector.image di) (Detector.keypts di)
        (Detector.image ri) (Detector.keypts ri) (Matcher.matches mi)
        Mat_default = (left, Some what) ->
      pipeline_log L (ri, di, mi) = [OStr what; OChar newline] /\
      pipeline_frame L (ri, di, mi) =
        putText L left (Detector.name di) (10, 30) FONT_HERSHEY_SIMPLEX 1 0 2 /\
      (forall f, pipeline_frame L (ri, di, mi) = inr f ->
                 Part000.DrawSingleResult L (Detector.getResult ri)
                   (Detector.getResult di) (Matcher.getResult mi) w0
                 = (Ret f, add_cerr [OStr what; OChar newline] w0))).
Proof.
  intros Hr Hd Hf w'.
  assert (Hlen : length (triples h) = length (MatchHandler.matchers h)).
  { unfold triples. rewrite !length_combine. lia. }
  assert (Hrun : Part000.DrawFrames L h w = (Ret frames, w')).
  { unfold Part000.DrawFrames.
    rewrite (DrawFrames_p0_loop L h Hr Hd _ 0 [] frames w eq_refl Hf).
    reflexivity. }
  split; [exact Hrun | ].
  split; [rewrite <- (Forall2_length Hf); exact Hlen | ].
  split.
  { intros i ri di mi Hi.
    destruct (Forall2_nth_error_l _ _ _ _ _ Hf Hi) as (f & Hfi & Hfr).
    exists f. split; [exact Hfi | exact Hfr]. }
  split.
  - unfold Part000.DrawMatchResult.
    rewrite (bind_run _ _ _ _ _ Hrun).
    unfold bind, call.
    destruct (vconcat L frames) as [what | stacked]; [reflexivity | ].
    unfold ret at 1.
    destruct (maxHeight <? rows stacked); [ | reflexivity].
    destruct (resize L stacked _ 0 0 (CV_NEON L)); reflexivity.
  - intros ri di mi left what w0 Hdraw.
    assert (Hlog : pipeline_log L (ri, di, mi) = [OStr what; OChar newline])
      by (unfold pipeline_log; rewrite Hdraw; reflexivity).
    split; [exact Hlog | ].
    split; [unfold pipeline_frame; rewrite Hdraw; reflexivity | ].
    intros f Hfr. rewrite DrawSingleResult_p0_run, Hfr, Hlog. reflexivity.
Qed.

Lemma DrawMatchResult_with_failed_drawMatches_witness :
  Part000.DrawFrames Toy.strict_lib Toy.handler_A initial_world =
  (Ret [ {| rows := 1; cols := 6; mat_type := 0;
            data := [7; 3; 8; 1; 5; 9] |};
         Mat_default ],
   add_cerr [OStr "keypoint index out of range"; OChar newline]
            initial_world) /\
  Part000.DrawMatchResult Toy.strict_lib 1000 Toy.handler_A initial_world =
  (Throw (ExnStd "vconcat: the matrices differ in width or type"),
   add_cerr [OStr "keypoint index out of range"; OChar newline]
            initial_world) /\
  Part000.DrawMatchResult Toy.lib 1000 Toy.handler_A initial_world =
  (Ret {| rows := 1; cols := 6; mat_type := 0;
          data := [7; 3; 8; 1; 5; 9] |},
   add_cerr [OStr "keypoint index out of range"; OChar newline]
            initial_world).
Proof.
  pose proof (DrawMatchResult_with_failed_drawMatches
                Toy.strict_lib Toy.handler_A initial_world 1000
                [ {| rows := 1; cols := 6; mat_type := 0;
                     data := [7; 3; 8; 1; 5; 9] |};
                  Mat_default ]
                eq_refl eq_refl
                ltac:(repeat constructor)) as (H1 & _ & _ & H2 & _).
  pose proof (DrawMatchResult_with_failed_drawMatches
                Toy.lib Toy.handler_A initial_world 1000
                [ {| rows := 1; cols := 6; mat_type := 0;
                     data := [7; 3; 8; 1; 5; 9] |};
                  Mat_default ]
                eq_refl eq_refl
                ltac:(repeat constructor)) as (_ & _ & _ & H3 & _).
  split; [exact H1 | ]. split; [exact H2 | exact H3].
Defined.

(** ** Matching again *)

(** *** Computations that leave the process state alone *)

Lemma world_ret {A} (a : A) : keeps_world (ret a).
Proof. intros w. reflexivity. Qed.

Lemma world_call {A} (r : Lib A) : keeps_world (call r).
Proof. intros w. destruct r; reflexivity. Qed.

Lemma world_defined {A} (o : option A) : keeps_world (defined o).
Proof. intros w. destruct o; reflexivity. Qed.

Lemma world_AcceptRatio : keeps_world Matcher.AcceptRatio.
Proof. intros w. reflexivity. Qed.

Lemma world_bind {A B} (m : M A) (k : A -> M B) :
  keeps_world m -> (forall a, keeps_world (k a)) -> keeps_world (bind m k).
Proof.
  intros Hm Hk w. unfold bind. specialize (Hm w).
  destruct (m w) as [[a | e | | ] w1]; simpl in *; try exact Hm.
  rewrite (Hk a w1). exact Hm.
Qed.

Lemma world_for_each {A B} (f : A -> M B) (xs : list A) :
  (forall x, keeps_world (f x)) -> keeps_world (for_each f xs).
Proof.
  intros Hf. induction xs as [ | x xs IH]; simpl.
  - apply world_ret.
  - apply world_bind; [apply Hf | intros y].
    apply world_bind; [exact IH | intros ys]. apply world_ret.
Qed.

Lemma world_for_loop {S} (body : nat -> S -> M S) (n i : nat) (s : S) :
  (forall j t, keeps_world (body j t)) -> keeps_world (for_loop n i body s).
Proof.
  intros Hb. revert i s. induction n as [ | n IH]; intros i s; simpl.
  - apply world_ret.
  - apply world_bind; [apply Hb | intros s']. apply IH.
Qed.

Create HintDb world.
#[global] Hint Resolve world_ret world_call world_defined world_AcceptRatio
  : world.

Ltac world :=
  repeat first
    [ progress intros
    | apply world_bind
    | apply world_for_each
    | apply world_for_loop
    | solve [auto with world] ].

Lemma world_off_end (L : Library) : keeps_world (off_end L).
Proof. intros w. rewrite off_end_run. reflexivity. Qed.

#[global] Hint Resolve world_off_end : world.

Lemma world_DetectAndCompute (L : Library) (img : Mat) (d : Detector.t) :
  keeps_world (Detector.DetectAndCompute L img d).
Proof. unfold Detector.DetectAndCompute. world. Qed.

Lemma world_MatchDescriptors_p0 (L : Library) (r i : Mat) (m : Matcher.t) :
  keeps_world (Part000.MatchDescriptors L r i m).
Proof.
  unfold Part000.MatchDescriptors, Matcher.sort_and_truncate. world.
Qed.

#[global] Hint Resolve world_DetectAndCompute world_MatchDescriptors_p0
  : world.

Lemma world_MatchImage_p0 (L : Library) (img : Mat) (h : MatchHandler.t) :
  keeps_world (Part000.MatchImage L img h).
Proof. unfold Part000.MatchImage. world. Qed.

(** *** What a match call depends on *)

Lemma DetectAndCompute_config (L : Library) (img : Mat)
      (d1 d2 : Detector.t) (w : World) :
  detector_sig d1 = detector_sig d2 ->
  Detector.DetectAndCompute L img d1 w = Detector.DetectAndCompute L img d2 w.
Proof.
  unfold detector_sig, Detector.DetectAndCompute. intros H.
  inversion H as [[Hn Hf]]. rewrite Hn, Hf. reflexivity.
Qed.

Lemma for_each_DetectAndCompute_config (L : Library) (img : Mat)
      (ds1 ds2 : list Detector.t) (w : World) :
  map detector_sig ds1 = map detector_sig ds2 ->
  for_each (Detector.DetectAndCompute L img) ds1 w =
  for_each (Detector.DetectAndCompute L img) ds2 w.
Proof.
  revert ds2 w. induction ds1 as [ | d1 ds1 IH]; intros [ | d2 ds2] w H;
    simpl in H; try discriminate; [reflexivity | ].
  assert (Hd : detector_sig d1 = detector_sig d2) by congruence.
  assert (Hds : map detector_sig ds1 = map detector_sig ds2) by congruence.
  simpl.
  unfold bind at 1 3. rewrite (DetectAndCompute_config L img d1 d2 w Hd).
  destruct (Detector.DetectAndCompute L img d2 w) as [[d | e | | ] w1];
    try reflexivity.
  unfold bind. rewrite (IH ds2 w1 Hds). reflexivity.
Qed.

Lemma MatchDescriptors_p0_config (L : Library) (r i : Mat)
      (m1 m2 : Matcher.t) (w : World) :
  matcher_cfg m1 = matcher_cfg m2 ->
  Part000.MatchDescriptors L r i m1 w = Part000.MatchDescriptors L r i m2 w.
Proof.
  unfold matcher_cfg, Part000.MatchDescriptors. intros H.
  inversion H as [[Hn Hm Hc]]. rewrite Hn, Hm, Hc. reflexivity.
Qed.

Lemma MatchDescriptors_p0_cfg (L : Library) (r i : Mat) (m m' : Matcher.t)
      (w w' : World) :
  Part000.MatchDescriptors L r i m w = (Ret m', w') ->
  matcher_cfg m' = matcher_cfg m.
Proof.
  unfold Part000.MatchDescriptors. intros H.
  apply bind_Ret_inv in H as [a [w1 [_ H]]].
  apply bind_Ret_inv in H as [raw [w2 [_ H]]].
  apply bind_Ret_inv in H as [kept [w3 [_ H]]].
  apply bind_Ret_inv in H as [u [w4 [_ H]]].
  apply ret_inv in H as [<- _]. reflexivity.
Qed.

Lemma map_set_nth {A B} (f : A -> B) (l : list A) (i : nat) (x : A) :
  map f (set_nth i x l) = set_nth i (f x) (map f l).
Proof.
  revert i. induction l as [ | y l IH]; intros [ | i]; simpl;
    try reflexivity.
  rewrite IH. reflexivity.
Qed.

Lemma set_nth_length {A} (l : list A) (i : nat) (x : A) :
  length (set_nth i x l) = length l.
Proof.
  revert i. induction l as [ | y l IH]; intros [ | i]; simpl;
    try reflexivity.
  rewrite IH. reflexivity.
Qed.

Lemma firstn_set_nth {A} (l : list A) (i : nat) (x y : A) :
  nth_error l i = Some y ->
  firstn (S i) (set_nth i x l) = firstn i l ++ [x].
Proof.
  revert i. induction l as [ | z l IH]; intros [ | i] H; simpl in *;
    try discriminate.
  - reflexivity.
  - f_equal. exact (IH i H).
Qed.

(** One iteration of the matching loop, once the matcher at position [i]
    is known. *)
Lemma match_body_p0 (L : Library) (referDets inputDets : list Detector.t)
      (i : nat) (ms : list Matcher.t) (a : Matcher.t) (w : World) :
  nth_error ms i = Some a ->
  (mi <- defined (nth_error ms i) ;;
   ri <- defined (nth_error referDets i) ;;
   di <- defined (nth_error inputDets i) ;;
   mi' <- Part000.MatchDescriptors L
            (dr_descriptors (Detector.getResult ri))
            (dr_descriptors (Detector.getResult di)) mi ;;
   ret (set_nth i mi' ms)) w =
  bind (ri <- defined (nth_error referDets i) ;;
        di <- defined (nth_error inputDets i) ;;
        Part000.MatchDescriptors L
          (dr_descriptors (Detector.getResult ri))
          (dr_descriptors (Detector.getResult di)) a)
       (fun mi' => ret (set_nth i mi' ms)) w.
Proof.
  intros H. rewrite H. unfold bind, defined, ret.
  destruct (nth_error referDets i) as [ri | ]; [ | reflexivity].
  destruct (nth_error inputDets i) as [di | ]; [ | reflexivity].
  destruct (Part000.MatchDescriptors L _ _ a w) as [[mi' | e | | ] w'];
    reflexivity.
Qed.

(** The matching loop from position [i] on gives the same result on two
    lists of matchers that are configured alike and agree before [i]. *)
Lemma match_loop_p0_config (L : Library)
      (referDets inputDets : list Detector.t) :
  forall (n i : nat) (ms1 ms2 : list Matcher.t) (w : World),
    map matcher_cfg ms1 = map matcher_cfg ms2 ->
    firstn i ms1 = firstn i ms2 ->
    (i + n)%nat = length ms1 ->
    for_loop n i
      (fun i matchers =>
         mi <- defined (nth_error matchers i) ;;
         ri <- defined (nth_error referDets i) ;;
         di <- defined (nth_error inputDets i) ;;
         mi' <- Part000.MatchDescriptors L
                  (dr_descriptors (Detector.getResult ri))
                  (dr_descriptors (Detector.getResult di)) mi ;;
         ret (set_nth i mi' matchers)) ms1 w =
    for_loop n i
      (fun i matchers =>
         mi <- defined (nth_error matchers i) ;;
         ri <- defined (nth_error referDets i) ;;
         di <- defined (nth_error inputDets i) ;;
         mi' <- Part000.MatchDescriptors L
                  (dr_descriptors (Detector.getResult ri))
                  (dr_descriptors (Detector.getResult di)) mi ;;
         ret (set_nth i mi' matchers)) ms2 w.
Proof.
  induction n as [ | n IH]; intros i ms1 ms2 w Hcfg Hfst Hlen.
  - assert (Hl : length ms2 = length ms1).
    { rewrite <- (length_map matcher_cfg ms1), Hcfg, length_map.
      reflexivity. }
    rewrite firstn_all2 in Hfst by lia.
    rewrite firstn_all2 in Hfst by lia.
    subst ms2. reflexivity.
  - assert (Hl : length ms2 = length ms1).
    { rewrite <- (length_map matcher_cfg ms1), Hcfg, length_map.
      reflexivity. }
    destruct (nth_error ms1 i) as [a1 | ] eqn:E1;
      [ | apply nth_error_None in E1; lia].
    destruct (nth_error ms2 i) as [a2 | ] eqn:E2;
      [ | apply nth_error_None in E2; lia].
    assert (Ha : matcher_cfg a1 = matcher_cfg a2).
    { pose proof (f_equal (fun l => nth_error l i) Hcfg) as Hi.
      simpl in Hi. rewrite !nth_error_map, E1, E2 in Hi.
      simpl in Hi. congruence. }
    cbn [for_loop].
    etransitivity;
      [apply bind_congr;
       [exact (match_body_p0 L referDets inputDets i ms1 a1 w E1)
       | intros s w' _; reflexivity] | ].
    etransitivity;
      [ | symmetry; apply bind_congr;
          [exact (match_body_p0 L referDets inputDets i ms2 a2 w E2)
          | intros s w' _; reflexivity]].
    rewrite !bind_map_ret.
    apply bind_congr.
    + apply bind_ext. intros ri w1. apply bind_ext. intros di w2.
      apply MatchDescriptors_p0_config. exact Ha.
    + intros mi' w' _. apply IH.
      * rewrite !map_set_nth, Hcfg. reflexivity.
      * rewrite (firstn_set_nth _ _ _ _ E1), (firstn_set_nth _ _ _ _ E2),
          Hfst. reflexivity.
      * rewrite set_nth_length. lia.
Qed.

(** After a match call that returned, the reference side, the tracked ratio
    and the configuration of every detector and matcher are as before. *)
Lemma MatchImage_p0_inv (L : Library) (img : Mat) (h h' : MatchHandler.t)
      (w w' : World) :
  Part000.MatchImage L img h w = (Ret h', w') ->
  w' = w /\
  MatchHandler.referDets h' = MatchHandler.referDets h /\
  MatchHandler.acceptRatio h' = MatchHandler.acceptRatio h /\
  map detector_sig (MatchHandler.inputDets h')
  = map detector_sig (MatchHandler.inputDets h) /\
  map matcher_cfg (MatchHandler.matchers h')
  = map matcher_cfg (MatchHandler.matchers h).
Proof.
  intros H.
  split.
  { pose proof (world_MatchImage_p0 L img h w) as Hw.
    rewrite H in Hw. exact Hw. }
  unfold Part000.MatchImage in H.
  apply bind_Ret_inv in H as [ds [w1 [Hds H]]].
  apply bind_Ret_inv in H as [ms [w2 [Hms H]]].
  apply ret_inv in H as [<- _]. simpl.
  split; [reflexivity | ]. split; [reflexivity | ]. split.
  - exact (for_each_DetectAndCompute_sig _ _ _ _ _ _ Hds).
  - exact (match_loop_key matcher_cfg (Part000.MatchDescriptors L) _ _
             (MatchDescriptors_p0_cfg L) _ _ _ _ _ _ Hms).
Qed.

(** In the later version a match call overwrites what the previous one
    stored: matching image B after image A gives the handler, and the
    outcome, of matching image B alone. *)
Lemma MatchImage_p0_last_write_wins (L : Library) (imgA imgB : Mat)
      (h hA : MatchHandler.t) (w wA : World) :
  Part000.MatchImage L imgA h w = (Ret hA, wA) ->
  Part000.MatchImage L imgB hA wA = Part000.MatchImage L imgB h w.
Proof.
  intros HA.
  destruct (MatchImage_p0_inv _ _ _ _ _ _ HA)
    as [-> [Hr [Ha [Hd Hm]]]].
  unfold Part000.MatchImage. rewrite Hr, Ha.
  assert (Hlen : length (MatchHandler.matchers hA)
                 = length (MatchHandler.matchers h)).
  { rewrite <- (length_map matcher_cfg (MatchHandler.matchers hA)), Hm,
      length_map. reflexivity. }
  rewrite Hlen.
  apply bind_congr.
  - apply for_each_DetectAndCompute_config. exact Hd.
  - intros ds w1 _. apply bind_congr; [ | reflexivity].
    apply match_loop_p0_config; [exact Hm | reflexivity | lia].
Qed.

(** *** The earlier version never stores a match *)

Lemma match_loop_hpp_same (L : Library)
      (referDets inputDets : list Detector.t) :
  forall n i ms w ms' w',
    for_loop n i
      (fun i matchers =>
         mi <- defined (nth_error matchers i) ;;
         ri <- defined (nth_error referDets i) ;;
         di <- defined (nth_error inputDets i) ;;
         mi' <- FeatureHpp.MatchDescriptors L
                  (dr_descriptors (Detector.getResult ri))
                  (dr_descriptors (Detector.getResult di)) mi ;;
         ret (set_nth i mi' matchers)) ms w = (Ret ms', w') ->
    ms' = ms.
Proof.
  intros n i ms w ms' w' H.
  refine (for_loop_invariant (fun s => s = ms) _ _ n i ms w ms' w' eq_refl H).
  clear. intros i s w s' w' Hs H. subst s.
  apply bind_Ret_inv in H as [mi [w1 [Hmi H]]].
  apply defined_Ret_inv in Hmi as [Hmi _].
  apply bind_Ret_inv in H as [ri [w2 [_ H]]].
  apply bind_Ret_inv in H as [di [w3 [_ H]]].
  apply bind_Ret_inv in H as [mi' [w4 [Hmd H]]].
  apply ret_inv in H as [<- _].
  apply MatchDescriptors_hpp_same in Hmd. subst mi'.
  apply set_nth_same. exact Hmi.
Qed.

Lemma run_op_hpp_matchers (L : Library) (op : Op) (h h' : MatchHandler.t)
      (w w' : World) :
  run_op_hpp L op h w = (Ret h', w') ->
  MatchHandler.matchers h' = MatchHandler.matchers h.
Proof.
  destruct op as [img | img | d | mh]; simpl; intros H.
  - unfold FeatureHpp.SetRefImage in H.
    apply bind_Ret_inv in H as [u [w0 [_ H]]].
    apply bind_Ret_inv in H as [ds [w1 [_ H]]].
    apply ret_inv in H as [<- _]. reflexivity.
  - unfold FeatureHpp.MatchImage in H.
    apply bind_Ret_inv in H as [ds [w1 [_ H]]].
    apply bind_Ret_inv in H as [ms [w2 [Hms H]]].
    apply ret_inv in H as [<- _]. simpl.
    exact (match_loop_hpp_same _ _ _ _ _ _ _ _ _ Hms).
  - rewrite ChangeAcceptRatio_hpp_run in H. inversion H. reflexivity.
  - apply bind_Ret_inv in H as [img [w1 [_ H]]].
    apply ret_inv in H as [<- _]. reflexivity.
Qed.

(** In the earlier version, whatever is called on a handler, the list that
    [getResult] of a matcher shows is the one it had at construction. *)
Lemma run_ops_hpp_matchers (L : Library) (ops : list Op) :
  forall (h h' : MatchHandler.t) (w w' : World),
    run_ops (run_op_hpp L) ops h w = (Ret h', w') ->
    MatchHandler.matchers h' = MatchHandler.matchers h.
Proof.
  induction ops as [ | op ops IH]; intros h h' w w' H; simpl in H.
  - apply ret_inv in H as [<- _]. reflexivity.
  - apply bind_Ret_inv in H as [h1 [w1 [H1 H]]].
    rewrite (IH _ _ _ _ H). exact (run_op_hpp_matchers _ _ _ _ _ _ H1).
Qed.

Lemma MatchHandler_ctor_hpp_no_matches (features matcher : list string)
      (w w' : World) (h : MatchHandler.t) :
  FeatureHpp.MatchHandler_ctor features matcher w = (Ret h, w') ->
  Forall (fun m => mr_matches (Matcher.getResult m) = [])
         (MatchHandler.matchers h).
Proof.
  unfold FeatureHpp.MatchHandler_ctor. intros H.
  apply bind_Ret_inv in H as [u [w1 [_ H]]].
  apply bind_Ret_inv in H as [rs [w2 [_ H]]].
  apply bind_Ret_inv in H as [ds [w3 [_ H]]].
  apply bind_Ret_inv in H as [ms [w4 [Hms H]]].
  apply ret_inv in H as [<- _]. simpl.
  assert (HF : Forall2 (fun (_ : string) m =>
                          mr_matches (Matcher.getResult m) = []) matcher ms).
  { refine (for_each_Forall2 _ _ _ _ _ _ _ Hms).
    intros x w0 y w0' Hx. unfold FeatureHpp.Matcher_Factory in Hx.
    apply bind_Ret_inv in Hx as [u' [w5 [_ Hx]]].
    apply bind_Ret_inv in Hx as [p [w6 [_ Hx]]].
    apply ret_inv in Hx as [<- _]. reflexivity. }
  clear - HF. induction HF; constructor; assumption.
Qed.

(** C2 on the earlier version: with two pipelines, after the reference
    image and image A, and again after image B, every matcher of
    [src/feature.hpp] still shows an empty match list, where the later
    version shows the matches of the latest image only. *)
Theorem MatchImage_hpp_stores_no_matches :
  Toy.stored_matches
    (Toy.handler_of
       (Toy.session_hpp [OpSetRefImage Toy.refimg; OpMatchImage Toy.imageA]))
  = [[]; []] /\
  Toy.stored_matches
    (Toy.handler_of
       (Toy.session_hpp [OpSetRefImage Toy.refimg; OpMatchImage Toy.imageA;
                         OpMatchImage Toy.imageB]))
  = [[]; []] /\
  Toy.stored_matches
    (Toy.handler_of
       (Toy.session [OpSetRefImage Toy.refimg; OpMatchImage Toy.imageA]))
  = [[Toy.match_at 3 0 1; Toy.match_at 1 0 3];
     [Toy.match_at 3 1000 1; Toy.match_at 1 1000 3]] /\
  Toy.stored_matches
    (Toy.handler_of
       (Toy.session [OpSetRefImage Toy.refimg; OpMatchImage Toy.imageA;
                     OpMatchImage Toy.imageB]))
  = [[Toy.match_at 1 0 2]; [Toy.match_at 1 1000 2]] /\
  Toy.stored_matches
    (Toy.handler_of
       (Toy.session [OpSetRefImage Toy.refimg; OpMatchImage Toy.imageB]))
  = [[Toy.match_at 1 0 2]; [Toy.match_at 1 1000 2]].
Proof. repeat split; vm_compute; reflexivity. Qed.

(** ** Further properties of the member functions *)

(** *** Loops with the index and the process state in the invariant *)

Lemma for_loop_invariant_at {S} (P : nat -> S -> World -> Prop)
      (body : nat -> S -> M S) :
  (forall i s w s' w', P i s w -> body i s w = (Ret s', w') ->
                       P (Datatypes.S i) s' w') ->
  forall n i s w s' w',
    P i s w -> for_loop n i body s w = (Ret s', w') -> P (i + n)%nat s' w'.
Proof.
  intros Hstep n; induction n as [|n IH]; intros i s w s' w' HP Hrun.
  - cbn in Hrun. apply ret_inv in Hrun as [<- <-].
    now rewrite Nat.add_0_r.
  - cbn [for_loop] in Hrun.
    apply bind_Ret_inv in Hrun as (s1 & w1 & Hb & Hrest).
    replace (i + Datatypes.S n)%nat with (Datatypes.S i + n)%nat by lia.
    eapply IH; [|exact Hrest]. eapply Hstep; eauto.
Qed.

Lemma nth_error_set_nth_eq {A} (l : list A) (i : nat) (x : A) :
  (i < length l)%nat -> nth_error (set_nth i x l) i = Some x.
Proof.
  revert i; induction l as [|y l IH]; intros [|i] Hi; cbn in *;
    try lia; auto.
  apply IH; lia.
Qed.

Lemma nth_error_set_nth_neq {A} (l : list A) (i j : nat) (x : A) :
  i <> j -> nth_error (set_nth i x l) j = nth_error l j.
Proof.
  revert i j; induction l as [|y l IH]; intros [|i] [|j] Hij; cbn;
    try reflexivity; try congruence.
  apply IH; congruence.
Qed.

(** *** [Detector::DetectAndCompute] and [MatchHandler::SetRefImage] *)

Lemma DetectAndCompute_Ret_inv (L : Library) (img : Mat) (d d' : Detector.t)
      (w w' : World) :
  Detector.DetectAndCompute L img d w = (Ret d', w') ->
  w' = w /\ detected L img d d'.
Proof.
  unfold Detector.DetectAndCompute. intros H.
  apply bind_Ret_inv in H as (f & w1 & Hf & H).
  apply defined_Ret_inv in Hf as [Hf <-].
  apply bind_Ret_inv in H as (kd & w2 & Hkd & H).
  apply call_Ret_inv in Hkd as [Hkd <-].
  apply ret_inv in H as [<- <-].
  split; [reflexivity|].
  unfold detected, detector_sig; cbn. repeat split.
  exists f. split; [exact Hf|]. rewrite Hkd. now destruct kd.
Qed.

Lemma DetectAndCompute_returns (L : Library) (img : Mat) (d : Detector.t)
      (w : World) :
  detects L img d ->
  exists d', Detector.DetectAndCompute L img d w = (Ret d', w).
Proof.
  intros (f & kd & Hf & Hkd). unfold Detector.DetectAndCompute.
  rewrite Hf. unfold bind, defined, ret. rewrite Hkd. cbn. eauto.
Qed.

Lemma for_each_DetectAndCompute_returns (L : Library) (img : Mat)
      (ds : list Detector.t) (w : World) :
  (exists ds' w', for_each (Detector.DetectAndCompute L img) ds w
                  = (Ret ds', w'))
  <-> Forall (detects L img) ds.
Proof.
  split.
  - intros (ds' & w' & H). revert ds' w w' H.
    induction ds as [|d ds IH]; intros ds' w w' H; [constructor|].
    cbn [for_each] in H.
    apply bind_Ret_inv in H as (d' & w1 & Hd & H).
    apply bind_Ret_inv in H as (ds1 & w2 & Hds & H).
    constructor; [|eapply IH; exact Hds].
    apply DetectAndCompute_Ret_inv in Hd as [_ (_ & _ & f & Hf & Hkd)].
    exists f. eexists. split; [exact Hf | exact Hkd].
  - intros H. revert w. induction H as [|d ds Hd _ IH]; intros w.
    + exists [], w. reflexivity.
    + destruct (DetectAndCompute_returns L img d w Hd) as (d' & Hd').
      destruct (IH w) as (ds' & w' & Hds).
      exists (d' :: ds'), w'. cbn [for_each].
      rewrite (bind_run _ _ _ _ _ Hd'). rewrite (bind_run _ _ _ _ _ Hds).
      reflexivity.
Qed.

(** X1: in the later version a call of [MatchImage] forgets the image of the
    call before it: after [MatchImage(A)] has returned, [MatchImage(B)] gives
    the handler, the outcome and the process state that it gives without the
    call for A. *)
Theorem MatchImage_forgets_the_previous_image
        (L : Library) (imgA imgB : Mat) (h hA : MatchHandler.t)
        (w wA : World) :
  Part000.MatchImage L imgA h w = (Ret hA, wA) ->
  Part000.MatchImage L imgB hA wA = Part000.MatchImage L imgB h w.
Proof.
  exact (MatchImage_p0_last_write_wins L imgA imgB h hA w wA).
Qed.

Lemma MatchImage_forgets_the_previous_image_witness :
  Part000.MatchImage Toy.lib Toy.imageB Toy.handler_A initial_world
  = Part000.MatchImage Toy.lib Toy.imageB
      (Toy.handler_of (Toy.session [OpSetRefImage Toy.refimg]))
      initial_world.
Proof.
  apply (MatchImage_forgets_the_previous_image Toy.lib Toy.imageA).
  vm_compute. reflexivity.
Defined.

(** X2: [SetRefImage] of the later version returns exactly when every
    reference detector has an algorithm on which [detectAndCompute] returns
    for the image.  It then replaces the image, the keypoints and the
    descriptors of every reference detector by those of this image and
    touches nothing else: the input detectors, the matchers, the tracked
    ratio and the process state are as before, and a later [SetRefImage]
    gives what it gives without this call. *)
Theorem SetRefImage_replaces_the_reference_side
        (L : Library) (imgA imgB : Mat) (h : MatchHandler.t) (w : World) :
  ((exists hA wA, Part000.SetRefImage L imgA h w = (Ret hA, wA))
   <-> Forall (detects L imgA) (MatchHandler.referDets h)) /\
  (forall hA wA,
      Part000.SetRefImage L imgA h w = (Ret hA, wA) ->
      wA = w /\
      MatchHandler.inputDets hA = MatchHandler.inputDets h /\
      MatchHandler.matchers hA = MatchHandler.matchers h /\
      MatchHandler.acceptRatio hA = MatchHandler.acceptRatio h /\
      Forall2 (detected L imgA)
              (MatchHandler.referDets h) (MatchHandler.referDets hA) /\
      Part000.SetRefImage L imgB hA wA = Part000.SetRefImage L imgB h w).
Proof.
  split.
  - rewrite <- (for_each_DetectAndCompute_returns L imgA _ w).
    unfold Part000.SetRefImage. split.
    + intros (hA & wA & H).
      apply bind_Ret_inv in H as (ds & w1 & Hds & _). eauto.
    + intros (ds & w1 & Hds). rewrite (bind_run _ _ _ _ _ Hds).
      unfold ret. eauto.
  - intros hA wA H. unfold Part000.SetRefImage in H.
    apply bind_Ret_inv in H as (ds & w1 & Hds & H).
    apply ret_inv in H as [<- <-]. cbn.
    assert (Hw : w1 = w).
    { pose proof (world_for_each (Detector.DetectAndCompute L imgA)
                    (MatchHandler.referDets h)
                    (world_DetectAndCompute L imgA) w) as Hk.
      rewrite Hds in Hk. exact Hk. }
    subst w1. repeat split.
    + revert Hds. apply for_each_Forall2.
      intros d w0 d' w0' Hd.
      now apply DetectAndCompute_Ret_inv in Hd as [_ Hd].
    + unfold Part000.SetRefImage. cbn.
      apply bind_congr; [|reflexivity].
      apply for_each_DetectAndCompute_config.
      eapply for_each_DetectAndCompute_sig; exact Hds.
Qed.

Lemma SetRefImage_replaces_the_reference_side_witness :
  exists hA,
    Part000.SetRefImage Toy.lib Toy.refimg
      (paired_handler ["orb"; "sift"]%string ["bf"; "flann"]%string)
      initial_world = (Ret hA, initial_world) /\
    Part000.SetRefImage Toy.lib Toy.imageB hA initial_world
    = Part000.SetRefImage Toy.lib Toy.imageB
        (paired_handler ["orb"; "sift"]%string ["bf"; "flann"]%string)
        initial_world.
Proof.
  exists (Toy.handler_of (Toy.session [OpSetRefImage Toy.refimg])).
  assert (H : Part000.SetRefImage Toy.lib Toy.refimg
                (paired_handler ["orb"; "sift"]%string ["bf"; "flann"]%string)
                initial_world
              = (Ret (Toy.handler_of (Toy.session [OpSetRefImage Toy.refimg])),
                 initial_world))
    by (vm_compute; reflexivity).
  split; [exact H|].
  exact (proj2 (proj2 (proj2 (proj2 (proj2
    (proj2 (SetRefImage_replaces_the_reference_side Toy.lib Toy.refimg
              Toy.imageB _ initial_world) _ _ H)))))).
Defined.

(** *** [MatchHandler::MatchImage], pipeline by pipeline *)

Lemma world_sort_and_truncate (L : Library) (raw : list DMatch) :
  keeps_world (Matcher.sort_and_truncate L raw).
Proof. unfold Matcher.sort_and_truncate. world. Qed.

Lemma MatchDescriptors_p0_Ret_inv (L : Library) (r d : Detector.t)
      (m m' : Matcher.t) (w w' : World) :
  Part000.MatchDescriptors L
    (dr_descriptors (Detector.getResult r))
    (dr_descriptors (Detector.getResult d)) m w = (Ret m', w') ->
  w' = w /\ matched_from L w r d m m'.
Proof.
  intros H.
  pose proof (MatchDescriptors_p0_cfg _ _ _ _ _ _ _ H) as Hcfg.
  unfold Part000.MatchDescriptors in H.
  apply bind_Ret_inv in H as (algo & w1 & Ha & H).
  apply defined_Ret_inv in Ha as [Ha <-].
  apply bind_Ret_inv in H as (raw & w2 & Hraw & H).
  apply call_Ret_inv in Hraw as [Hraw <-].
  apply bind_Ret_inv in H as (kept & w3 & Hk & H).
  apply bind_Ret_inv in H as (u & w4 & Hoff & H).
  apply off_end_Ret_inv in Hoff as [_ ->].
  apply ret_inv in H as [<- <-].
  pose proof (world_sort_and_truncate L raw w) as Hw.
  rewrite Hk in Hw. cbn in Hw. subst w3.
  split; [reflexivity|].
  exists algo, raw. cbn. auto.
Qed.

Lemma Forall2_nth_error_r {A B} (R : A -> B -> Prop) (l : list A)
      (l' : list B) (i : nat) (y : B) :
  Forall2 R l l' -> nth_error l' i = Some y ->
  exists x, nth_error l i = Some x /\ R x y.
Proof.
  intros H; revert i; induction H as [|a b l l' Hab _ IH]; intros [|i] Hi;
    cbn in *; try discriminate.
  - injection Hi as <-. eauto.
  - auto.
Qed.

Lemma match_loop_p0_pipelines (L : Library)
      (referDets inputDets : list Detector.t) (ms0 : list Matcher.t)
      (w : World) (ms' : list Matcher.t) (w' : World) :
  for_loop (length ms0) 0
    (fun i matchers =>
       mi <- defined (nth_error matchers i) ;;
       ri <- defined (nth_error referDets i) ;;
       di <- defined (nth_error inputDets i) ;;
       mi' <- Part000.MatchDescriptors L
                (dr_descriptors (Detector.getResult ri))
                (dr_descriptors (Detector.getResult di)) mi ;;
       ret (set_nth i mi' matchers)) ms0 w = (Ret ms', w') ->
  w' = w /\ length ms' = length ms0 /\
  forall i m', nth_error ms' i = Some m' ->
    exists m r d,
      nth_error ms0 i = Some m /\ nth_error referDets i = Some r /\
      nth_error inputDets i = Some d /\ matched_from L w r d m m'.
Proof.
  intros Hrun.
  pose (P := fun (i : nat) (ms : list Matcher.t) (wc : World) =>
    wc = w /\ length ms = length ms0 /\
    (forall j m', (j < i)%nat -> nth_error ms j = Some m' ->
       exists m r d,
         nth_error ms0 j = Some m /\ nth_error referDets j = Some r /\
         nth_error inputDets j = Some d /\ matched_from L w r d m m') /\
    (forall j, (i <= j)%nat -> nth_error ms j = nth_error ms0 j)).
  assert (HP : P (0 + length ms0)%nat ms' w').
  { refine (for_loop_invariant_at P _ _ _ _ _ _ _ _ _ Hrun).
    - intros i s wc s' wc' (-> & Hlen & Hdone & Hrest) Hb.
      apply bind_Ret_inv in Hb as (mi & w1 & Hmi & Hb).
      apply defined_Ret_inv in Hmi as [Hmi <-].
      apply bind_Ret_inv in Hb as (ri & w2 & Hri & Hb).
      apply defined_Ret_inv in Hri as [Hri <-].
      apply bind_Ret_inv in Hb as (di & w3 & Hdi & Hb).
      apply defined_Ret_inv in Hdi as [Hdi <-].
      apply bind_Ret_inv in Hb as (mi' & w4 & Hmd & Hb).
      apply ret_inv in Hb as [<- <-].
      apply MatchDescriptors_p0_Ret_inv in Hmd as [-> Hmd].
      assert (Hi : (i < length s)%nat)
        by (apply nth_error_Some; congruence).
      unfold P. split; [reflexivity|]. split.
      { now rewrite set_nth_length. }
      split.
      + intros j m' Hj Hm'.
        destruct (Nat.eq_dec i j) as [<-|Hne].
        * rewrite nth_error_set_nth_eq in Hm' by exact Hi.
          injection Hm' as <-.
          exists mi, ri, di. rewrite <- Hrest by lia. auto.
        * rewrite nth_error_set_nth_neq in Hm' by exact Hne.
          apply Hdone; [lia | exact Hm'].
      + intros j Hj. rewrite nth_error_set_nth_neq by lia.
        apply Hrest; lia.
    - unfold P. repeat split; auto. intros; lia. }
  destruct HP as (-> & Hlen & Hdone & _).
  repeat split; [exact Hlen|].
  intros i m' Hm'. apply Hdone; [|exact Hm'].
  cbn. rewrite <- Hlen. apply nth_error_Some. congruence.
Qed.

(** X3: when [MatchImage] of the later version returns, the matcher of
    position i holds exactly the result of [MatchDescriptors] for pipeline i:
    the library matcher of that position, called with the descriptors that
    input detector i computed on the new image as the query and the stored
    descriptors of reference detector i as the train set, then sorted and
    truncated under the shared ratio.  Nothing of another position enters,
    the number of matchers is unchanged and so is the process state. *)
Theorem MatchImage_matches_each_pipeline_on_its_own
        (L : Library) (img : Mat) (h h' : MatchHandler.t) (w w' : World) :
  Part000.MatchImage L img h w = (Ret h', w') ->
  w' = w /\
  length (MatchHandler.matchers h') = length (MatchHandler.matchers h) /\
  forall i m',
    nth_error (MatchHandler.matchers h') i = Some m' ->
    exists m r d0 d,
      nth_error (MatchHandler.matchers h) i = Some m /\
      nth_error (MatchHandler.referDets h) i = Some r /\
      nth_error (MatchHandler.inputDets h) i = Some d0 /\
      nth_error (MatchHandler.inputDets h') i = Some d /\
      detected L img d0 d /\
      matched_from L w r d m m'.
Proof.
  intros H. unfold Part000.MatchImage in H.
  apply bind_Ret_inv in H as (ds & w1 & Hds & H).
  apply bind_Ret_inv in H as (ms & w2 & Hms & H).
  apply ret_inv in H as [<- <-]. cbn.
  assert (Hw : w1 = w).
  { pose proof (world_for_each (Detector.DetectAndCompute L img)
                  (MatchHandler.inputDets h)
                  (world_DetectAndCompute L img) w) as Hk.
    rewrite Hds in Hk. exact Hk. }
  subst w1.
  assert (HF : Forall2 (detected L img) (MatchHandler.inputDets h) ds).
  { revert Hds. apply for_each_Forall2. intros d w0 d' w0' Hd.
    now apply DetectAndCompute_Ret_inv in Hd as [_ Hd]. }
  apply match_loop_p0_pipelines in Hms as (-> & Hlen & Hall).
  repeat split; [exact Hlen|].
  intros i m' Hm'.
  destruct (Hall i m' Hm') as (m & r & d & Hm & Hr & Hd & Hmatched).
  destruct (Forall2_nth_error_r _ _ _ _ _ HF Hd) as (d0 & Hd0 & Hdet).
  exists m, r, d0, d. auto 10.
Qed.

Lemma MatchImage_matches_each_pipeline_on_its_own_witness :
  exists m r d0 d,
    nth_error (MatchHandler.matchers
                 (Toy.handler_of (Toy.session [OpSetRefImage Toy.refimg])))
              1 = Some m /\
    nth_error (MatchHandler.referDets
                 (Toy.handler_of (Toy.session [OpSetRefImage Toy.refimg])))
              1 = Some r /\
    nth_error (MatchHandler.inputDets
                 (Toy.handler_of (Toy.session [OpSetRefImage Toy.refimg])))
              1 = Some d0 /\
    nth_error (MatchHandler.inputDets Toy.handler_A) 1 = Some d /\
    detected Toy.lib Toy.imageA d0 d /\
    matched_from Toy.lib initial_world r d m
      (with_matches (Matcher.new "flann"
                       (Some (FlannBasedMatcher DefaultIndexParams)))
         [Toy.match_at 3 1000 1; Toy.match_at 1 1000 3]).
Proof.
  refine (proj2 (proj2
    (MatchImage_matches_each_pipeline_on_its_own Toy.lib Toy.imageA
       (Toy.handler_of (Toy.session [OpSetRefImage Toy.refimg]))
       Toy.handler_A initial_world initial_world _)) 1%nat _ _).
  - vm_compute. reflexivity.
  - vm_compute. reflexivity.
Defined.

(** *** The tracked ratio and the shared ratio *)

Lemma bind2_map {A B C D} (m : M A) (k : A -> M B) (g : A -> B -> C)
      (f : C -> D) (w : World) :
  (a <- m ;; b <- k a ;; ret (f (g a b))) w
  = (Outcome_map f (fst ((a <- m ;; b <- k a ;; ret (g a b)) w)),
     snd ((a <- m ;; b <- k a ;; ret (g a b)) w)).
Proof.
  unfold bind, ret. destruct (m w) as [[a| | |] w1]; try reflexivity.
  destruct (k a w1) as [[b| | |] w2]; reflexivity.
Qed.

(** X4: [MatchImage] never reads the ratio the handler tracks: in both
    versions a handler that differs only in its tracked ratio gives the same
    outcome, the same detectors and matchers and the same process state.
    What it filters with is the shared ratio of the process state. *)
Theorem MatchImage_ignores_the_tracked_ratio
        (L : Library) (img : Mat) (h : MatchHandler.t) (r : F32.t)
        (w : World) :
  Part000.MatchImage L img (set_tracked h r) w
  = (Outcome_map (fun h' => set_tracked h' r)
       (fst (Part000.MatchImage L img h w)),
     snd (Part000.MatchImage L img h w)) /\
  FeatureHpp.MatchImage L img (set_tracked h r) w
  = (Outcome_map (fun h' => set_tracked h' r)
       (fst (FeatureHpp.MatchImage L img h w)),
     snd (FeatureHpp.MatchImage L img h w)).
Proof.
  split.
  - exact (bind2_map _ _
             (fun ds ms =>
                {| MatchHandler.referDets := MatchHandler.referDets h;
                   MatchHandler.inputDets := ds;
                   MatchHandler.matchers := ms;
                   MatchHandler.acceptRatio := MatchHandler.acceptRatio h |})
             (fun h' => set_tracked h' r) w).
  - exact (bind2_map _ _
             (fun ds ms =>
                {| MatchHandler.referDets := MatchHandler.referDets h;
                   MatchHandler.inputDets := ds;
                   MatchHandler.matchers := ms;
                   MatchHandler.acceptRatio := MatchHandler.acceptRatio h |})
             (fun h' => set_tracked h' r) w).
Qed.

Lemma leb_true_ltb_false (x y : F32.t) :
  F32.leb x y = true -> F32.ltb y x = false.
Proof.
  unfold F32.leb, F32.ltb, SFleb, SFltb.
  rewrite (SFcompare_antisym y x).
  destruct (SFcompare x y) as [[| |]|]; cbn; congruence.
Qed.

Lemma clamp01_fixes_unit (x : F32.t) :
  F32.in_unit x = true -> clamp01 x = x.
Proof.
  unfold F32.in_unit. intros H. apply andb_true_iff in H as [H0 H1].
  unfold clamp01, F32.std_min, F32.std_max.
  rewrite (leb_true_ltb_false _ _ H1), (leb_true_ltb_false _ _ H0).
  reflexivity.
Qed.

Lemma add_zero_r (x : F32.t) :
  x <> S754_zero true -> F32.add x F32.zero = x.
Proof. destruct x as [[|]| | |]; cbn; congruence. Qed.

(** X5: a change of zero is not a no-op on the process: it leaves the
    handler as it is and writes the handler's tracked ratio over the shared
    ratio, whatever value another handler had put there.  (The tracked ratio
    is taken between 0 and 1 and other than the negative zero, as every
    constructed handler has it.) *)
Theorem ChangeAcceptRatio_by_zero_publishes_the_tracked_ratio
        (this : MatchHandler.t) (w : World) :
  F32.in_unit (MatchHandler.acceptRatio this) = true ->
  MatchHandler.acceptRatio this <> S754_zero true ->
  fst (Part000.ChangeAcceptRatio F32.zero this w) = Ret this /\
  static_acceptRatio (snd (Part000.ChangeAcceptRatio F32.zero this w))
  = MatchHandler.acceptRatio this /\
  fst (FeatureHpp.ChangeAcceptRatio F32.zero this w) = Ret this /\
  static_acceptRatio (snd (FeatureHpp.ChangeAcceptRatio F32.zero this w))
  = MatchHandler.acceptRatio this.
Proof.
  intros Hunit Hnz.
  rewrite ChangeAcceptRatio_p0_run, ChangeAcceptRatio_hpp_run. cbn.
  rewrite (add_zero_r _ Hnz), (clamp01_fixes_unit _ Hunit).
  destruct this; cbn. repeat split.
Qed.

Lemma ChangeAcceptRatio_by_zero_publishes_the_tracked_ratio_witness :
  static_acceptRatio
    (snd (Part000.ChangeAcceptRatio F32.zero
            (paired_handler ["orb"]%string ["bf"]%string)
            (with_ratio F32.one initial_world)))
  = F32.half.
Proof.
  refine (proj1 (proj2
    (ChangeAcceptRatio_by_zero_publishes_the_tracked_ratio
       (paired_handler ["orb"]%string ["bf"]%string)
       (with_ratio F32.one initial_world) _ _))).
  - reflexivity.
  - discriminate.
Defined.

Lemma add_nan (x y : F32.t) :
  F32.is_nan x = true \/ F32.is_nan y = true -> F32.add x y = S754_nan.
Proof.
  destruct x as [[|]|[|]| |], y as [[|]|[|]| |]; cbn;
    intros [H|H]; try discriminate; reflexivity.
Qed.

Lemma mul_nan_r (x : F32.t) : F32.mul x S754_nan = S754_nan.
Proof. now destruct x. Qed.

Lemma sort_and_truncate_nan (L : Library) (raw : list DMatch) (w : World) :
  static_acceptRatio w = S754_nan ->
  Matcher.sort_and_truncate L raw w = (Undefined, w).
Proof.
  intros Hnan. unfold Matcher.sort_and_truncate, Matcher.AcceptRatio.
  unfold bind at 1. rewrite Hnan.
  unfold Matcher.numGoodMatches. rewrite mul_nan_r. reflexivity.
Qed.

(** X6: a NaN is absorbing for the ratio and makes matching undefined.
    When the change or the tracked ratio is a NaN, [ChangeAcceptRatio] stores
    a NaN as the tracked and as the shared ratio (both versions), so every
    later change stores a NaN again.  With a NaN as the shared ratio,
    [MatchDescriptors] on a matcher whose library call returns converts a NaN
    to [int], which is undefined behaviour, in both versions. *)
Theorem nan_ratio_is_absorbing_and_breaks_matching :
  (forall change this w,
      F32.is_nan change = true \/
      F32.is_nan (MatchHandler.acceptRatio this) = true ->
      Part000.ChangeAcceptRatio change this w
      = (Ret (set_tracked this S754_nan),
         with_ratio S754_nan
           (add_cout [OStr " Change number: "; OFloat change; OEndl;
                      OStr "Ratio:"; OFloat S754_nan; OEndl] w)) /\
      FeatureHpp.ChangeAcceptRatio change this w
      = (Ret (set_tracked this S754_nan), with_ratio S754_nan w)) /\
  (forall L referDesc inputDesc this algo raw w,
      static_acceptRatio w = S754_nan ->
      Matcher.matcher this = Some algo ->
      cv_match L algo inputDesc referDesc = inr raw ->
      Part000.MatchDescriptors L referDesc inputDesc this w = (Undefined, w) /\
      FeatureHpp.MatchDescriptors L referDesc inputDesc this w
      = (Undefined, w)).
Proof.
  split.
  - intros change this w H.
    rewrite ChangeAcceptRatio_p0_run, ChangeAcceptRatio_hpp_run. cbn.
    assert (Hadd : F32.add (MatchHandler.acceptRatio this) change = S754_nan)
      by (apply add_nan; tauto).
    rewrite Hadd. unfold with_ratio, add_cout; cbn.
    rewrite <- app_assoc. split; reflexivity.
  - intros L referDesc inputDesc this algo raw w Hnan Halgo Hraw.
    assert (Ha : defined (Matcher.matcher this) w = (Ret algo, w))
      by (rewrite Halgo; reflexivity).
    assert (Hc : call (cv_match L algo inputDesc referDesc) w = (Ret raw, w))
      by (rewrite Hraw; reflexivity).
    unfold Part000.MatchDescriptors, FeatureHpp.MatchDescriptors.
    rewrite !(bind_run _ _ _ _ _ Ha), !(bind_run _ _ _ _ _ Hc).
    unfold bind. rewrite (sort_and_truncate_nan L raw w Hnan).
    split; reflexivity.
Qed.

Lemma nan_ratio_is_absorbing_and_breaks_matching_witness :
  Part000.MatchDescriptors Toy.lib Toy.refimg Toy.imageA Toy.bf_matcher
    (snd (Part000.ChangeAcceptRatio S754_nan Toy.empty_handler initial_world))
  = (Undefined,
     snd (Part000.ChangeAcceptRatio S754_nan Toy.empty_handler
            initial_world)).
Proof.
  refine (proj1 (proj2 nan_ratio_is_absorbing_and_breaks_matching
                   Toy.lib Toy.refimg Toy.imageA Toy.bf_matcher
                   (BFMatcher NORM_L1) _ _ _ _ _)).
  - rewrite (proj1 (proj1 nan_ratio_is_absorbing_and_breaks_matching
                      S754_nan Toy.empty_handler initial_world
                      (or_introl eq_refl))).
    reflexivity.
  - reflexivity.
  - reflexivity.
Defined.

(** *** The downscaling of [MatchHandler::DrawMatchResult] *)

(** X7: [DrawMatchResult] of the later version halves the composite at most
    once.  With a [cv::resize] that gives its result the requested number of
    rows and a [maxHeight] that is not negative, the returned image has the
    rows of the composite when these do not exceed [maxHeight] and half of
    them (rounded toward zero) otherwise; so it respects [maxHeight] exactly
    when the composite has at most [2 * maxHeight + 1] rows. *)
Theorem DrawMatchResult_halves_at_most_once
        (L : Library) (maxHeight : Z) (h : MatchHandler.t) (w w' : World)
        (out : Mat) :
  (forall src dsize fx fy interp dst,
      resize L src dsize fx fy interp = inr dst -> rows dst = snd dsize) ->
  0 <= maxHeight ->
  Part000.DrawMatchResult L maxHeight h w = (Ret out, w') ->
  exists frames stacked,
    Part000.DrawFrames L h w = (Ret frames, w') /\
    vconcat L frames = inr stacked /\
    (if maxHeight <? rows stacked
     then resize L stacked
            (Z.quot (cols stacked) 2, Z.quot (rows stacked) 2) 0 0 (CV_NEON L)
          = inr out
     else out = stacked) /\
    rows out = (if maxHeight <? rows stacked
                then Z.quot (rows stacked) 2 else rows stacked) /\
    (rows out <= maxHeight <-> rows stacked <= 2 * maxHeight + 1).
Proof.
  intros Hresize Hmh H. unfold Part000.DrawMatchResult in H.
  apply bind_Ret_inv in H as (frames & w1 & Hframes & H).
  apply bind_Ret_inv in H as (stacked & w2 & Hstack & H).
  apply call_Ret_inv in Hstack as [Hstack <-].
  exists frames, stacked.
  destruct (Z.ltb_spec maxHeight (rows stacked)) as [Hlt|Hge].
  - apply call_Ret_inv in H as [Hout <-].
    pose proof (Hresize _ _ _ _ _ _ Hout) as Hrows. cbn in Hrows.
    assert (Hq : Z.quot (rows stacked) 2 = rows stacked / 2)
      by (apply Z.quot_div_nonneg; lia).
    split; [exact Hframes|]. split; [exact Hstack|].
    split; [exact Hout|]. split; [exact Hrows|].
    rewrite Hrows, Hq. split; intros; Z.div_mod_to_equations; lia.
  - apply ret_inv in H as [<- <-].
    split; [exact Hframes|]. split; [exact Hstack|].
    split; [reflexivity|]. split; [reflexivity|].
    split; intros; lia.
Qed.

Lemma DrawMatchResult_halves_at_most_once_witness :
  exists frames stacked,
    Part000.DrawFrames Toy.lib Toy.handler_A initial_world
    = (Ret frames,
       add_cerr [OStr "keypoint index out of range"; OChar newline]
                initial_world) /\
    vconcat Toy.lib frames = inr stacked /\
    (if 0 <? rows stacked
     then resize Toy.lib stacked
            (Z.quot (cols stacked) 2, Z.quot (rows stacked) 2) 0 0
            (CV_NEON Toy.lib)
          = inr {| rows := 0; cols := 3; mat_type := 0;
                   data := [7; 3; 8; 1; 5; 9] |}
     else {| rows := 0; cols := 3; mat_type := 0;
             data := [7; 3; 8; 1; 5; 9] |} = stacked) /\
    rows {| rows := 0; cols := 3; mat_type := 0;
            data := [7; 3; 8; 1; 5; 9] |}
    = (if 0 <? rows stacked
       then Z.quot (rows stacked) 2 else rows stacked) /\
    (rows {| rows := 0; cols := 3; mat_type := 0;
             data := [7; 3; 8; 1; 5; 9] |} <= 0
     <-> rows stacked <= 2 * 0 + 1).
Proof.
  apply (DrawMatchResult_halves_at_most_once Toy.lib 0 Toy.handler_A
           initial_world).
  - intros src dsize fx fy interp dst H. cbn in H.
    unfold Toy.scale in H. injection H as <-. reflexivity.
  - lia.
  - vm_compute. reflexivity.
Defined.

(** *** The constructor of [MatchHandler] *)

Lemma add_cout_nil (w : World) : add_cout [] w = w.
Proof. destruct w; unfold add_cout; cbn. now rewrite app_nil_r. Qed.

Lemma add_cout_app (a b : list OutItem) (w : World) :
  add_cout b (add_cout a w) = add_cout (a ++ b) w.
Proof. unfold add_cout; cbn. now rewrite app_assoc. Qed.

Lemma Matcher_Factory_hpp_run (name : string) (w : World) :
  FeatureHpp.Matcher_Factory name w =
  if recognised matcher_names name
  then (Ret (hpp_matcher name), add_cout (hpp_trace name) w)
  else (Throw (ExnString "error"),
        add_cout [OStr "match factorcy"; OEndl] w).
Proof.
  unfold FeatureHpp.Matcher_Factory, recognised, matcher_names, hpp_matcher,
    hpp_trace. cbn [existsb].
  destruct (name =? "flann")%string eqn:Ef; cbn [orb].
  - unfold bind, put_cout, ret, add_cout; cbn. now rewrite <- app_assoc.
  - destruct (name =? "bf")%string eqn:Eb; cbn [orb].
    + unfold bind, put_cout, ret, add_cout; cbn. now rewrite <- app_assoc.
    + reflexivity.
Qed.

Lemma for_each_Matcher_Factory_hpp (matcher : list string) (w : World) :
  forallb (recognised matcher_names) matcher = true ->
  for_each FeatureHpp.Matcher_Factory matcher w
  = (Ret (map hpp_matcher matcher), add_cout (flat_map hpp_trace matcher) w).
Proof.
  revert w; induction matcher as [|m ms IH]; intros w H.
  - cbn. now rewrite add_cout_nil.
  - cbn [forallb] in H. apply andb_true_iff in H as [Hm Hms].
    cbn [for_each map flat_map].
    assert (Hrun : FeatureHpp.Matcher_Factory m w
                   = (Ret (hpp_matcher m), add_cout (hpp_trace m) w))
      by (rewrite Matcher_Factory_hpp_run, Hm; reflexivity).
    rewrite (bind_run _ _ _ _ _ Hrun).
    rewrite (bind_run _ _ _ _ _ (IH _ Hms)).
    unfold ret. now rewrite add_cout_app.
Qed.

Lemma for_each_Matcher_Factory_hpp_fails (matcher : list string) (w : World) :
  forallb (recognised matcher_names) matcher = false ->
  fst (for_each FeatureHpp.Matcher_Factory matcher w)
  = Throw (ExnString "error").
Proof.
  revert w; induction matcher as [|m ms IH]; intros w H.
  - discriminate.
  - cbn [forallb] in H. cbn [for_each].
    pose proof (Matcher_Factory_hpp_run m w) as Hrun.
    destruct (recognised matcher_names m) eqn:Hm.
    + rewrite (bind_run _ _ _ _ _ Hrun). cbn in H.
      specialize (IH (add_cout (hpp_trace m) w) H).
      unfold bind at 1.
      destruct (for_each FeatureHpp.Matcher_Factory ms _) as [[y| | |] w1];
        cbn in IH; try discriminate; exact IH.
    + now rewrite (bind_throw _ _ _ _ _ Hrun).
Qed.

Lemma for_each_Detector_Factory_hpp (features : list string) (w : World) :
  for_each FeatureHpp.Detector_Factory features w
  = for_each Part000.Detector_Factory features w.
Proof.
  revert w; induction features as [|f fs IH]; intros w; [reflexivity|].
  cbn [for_each]. apply bind_congr.
  - now rewrite Detector_Factory_hpp_table, Detector_Factory_p0_table.
  - intros a w' _. apply bind_congr; [apply IH | reflexivity].
Qed.

(** X8: the constructor of the earlier version, for lists of equal length
    of recognised names, returns the handler whose matchers are the default
    FLANN matcher for [flann] and the brute-force matcher with the L1 norm
    otherwise, whatever the feature of the pipeline (also for [orb]), and it
    writes two lines per matcher to [std::cout]: [match factorcy], then
    [im in] for [flann] or [im in2] for [bf]. *)
Theorem MatchHandler_ctor_hpp_builds_default_matchers
        (features matcher : list string) (w : World) :
  length features = length matcher ->
  Forall (fun f => In f detector_names) features ->
  Forall (fun m => In m matcher_names) matcher ->
  FeatureHpp.MatchHandler_ctor features matcher w
  = (Ret (hpp_handler features matcher),
     add_cout (flat_map hpp_trace matcher) w).
Proof.
  intros Hlen Hf Hm. unfold FeatureHpp.MatchHandler_ctor.
  assert (Hc : cassert (length features =? length matcher)%nat w = (Ret tt, w)).
  { unfold cassert. now rewrite (proj2 (Nat.eqb_eq _ _) Hlen). }
  rewrite (bind_run _ _ _ _ _ Hc).
  assert (Hd : for_each FeatureHpp.Detector_Factory features w
               = (Ret (map detector_of features), w)).
  { rewrite for_each_Detector_Factory_hpp, for_each_Detector_Factory_p0.
    now rewrite (forallb_recognised _ _ Hf). }
  rewrite (bind_run _ _ _ _ _ Hd). rewrite (bind_run _ _ _ _ _ Hd).
  rewrite (bind_run _ _ _ _ _
             (for_each_Matcher_Factory_hpp matcher w
                (forallb_recognised _ _ Hm))).
  reflexivity.
Qed.

Lemma MatchHandler_ctor_hpp_builds_default_matchers_witness :
  FeatureHpp.MatchHandler_ctor ["orb"; "sift"]%string ["bf"; "flann"]%string
                               initial_world
  = (Ret {| MatchHandler.referDets :=
              [Detector.new "orb" (Some ORB); Detector.new "sift" (Some SIFT)];
            MatchHandler.inputDets :=
              [Detector.new "orb" (Some ORB); Detector.new "sift" (Some SIFT)];
            MatchHandler.matchers :=
              [Matcher.new "bf" (Some (BFMatcher NORM_L1));
               Matcher.new "flann"
                 (Some (FlannBasedMatcher DefaultIndexParams))];
            MatchHandler.acceptRatio := F32.half |},
     add_cout [OStr "match factorcy"; OEndl; OStr "im in2"; OEndl;
               OStr "match factorcy"; OEndl; OStr "im in"; OEndl]
              initial_world).
Proof.
  apply (MatchHandler_ctor_hpp_builds_default_matchers
           ["orb"; "sift"]%string ["bf"; "flann"]%string initial_world).
  - reflexivity.
  - repeat (match goal with |- Forall _ _ => constructor end);
      unfold detector_names; simpl; auto 10.
  - repeat (match goal with |- Forall _ _ => constructor end);
      unfold matcher_names; simpl; auto 10.
Defined.

Lemma forallb_unrecognised (names l : list string) :
  Exists (fun x => ~ In x names) l -> forallb (recognised names) l = false.
Proof.
  intros H. apply not_true_is_false. intros Hall.
  rewrite forallb_forall in Hall.
  apply Exists_exists in H as (x & Hx & Hnot).
  apply Hnot, recognised_In, Hall, Hx.
Qed.

(** X9: with lists of equal length of which some name is not recognised,
    the constructor throws the [std::string] [error] and no handler exists:
    in the later version the process state is untouched, whichever list holds
    the unknown name; in the earlier version the same exception leaves, the
    shared ratio and [std::cerr] are untouched, and an unknown feature name
    is found before anything is printed. *)
Theorem MatchHandler_ctor_rejects_unknown_names
        (features matcher : list string) (w : World) :
  length features = length matcher ->
  Exists (fun f => ~ In f detector_names) features \/
  Exists (fun m => ~ In m matcher_names) matcher ->
  Part000.MatchHandler_ctor features matcher w
  = (Throw (ExnString "error"), w) /\
  fst (FeatureHpp.MatchHandler_ctor features matcher w)
  = Throw (ExnString "error") /\
  static_acceptRatio (snd (FeatureHpp.MatchHandler_ctor features matcher w))
  = static_acceptRatio w /\
  cerr (snd (FeatureHpp.MatchHandler_ctor features matcher w)) = cerr w /\
  (Exists (fun f => ~ In f detector_names) features ->
   FeatureHpp.MatchHandler_ctor features matcher w
   = (Throw (ExnString "error"), w)).
Proof.
  intros Hlen Hbad.
  assert (Hc : cassert (length features =? length matcher)%nat w = (Ret tt, w)).
  { unfold cassert. now rewrite (proj2 (Nat.eqb_eq _ _) Hlen). }
  assert (Hhpp_f : forallb (recognised detector_names) features = false ->
                   FeatureHpp.MatchHandler_ctor features matcher w
                   = (Throw (ExnString "error"), w)).
  { intros Hf. unfold FeatureHpp.MatchHandler_ctor.
    rewrite (bind_run _ _ _ _ _ Hc).
    apply bind_throw.
    rewrite for_each_Detector_Factory_hpp, for_each_Detector_Factory_p0.
    now rewrite Hf. }
  split; [|split; [|split; [|split]]].
  - rewrite MatchHandler_ctor_p0_run.
    rewrite (proj2 (Nat.eqb_eq _ _) Hlen). cbn [negb].
    destruct Hbad as [Hb|Hb]; apply forallb_unrecognised in Hb; rewrite Hb;
      [reflexivity | now rewrite andb_false_r].
  - destruct (forallb (recognised detector_names) features) eqn:Hf;
      [|now rewrite (Hhpp_f eq_refl)].
    destruct Hbad as [Hb|Hb]; apply forallb_unrecognised in Hb;
      [congruence|].
    unfold FeatureHpp.MatchHandler_ctor.
    rewrite (bind_run _ _ _ _ _ Hc).
    assert (Hd : for_each FeatureHpp.Detector_Factory features w
                 = (Ret (map detector_of features), w)).
    { rewrite for_each_Detector_Factory_hpp, for_each_Detector_Factory_p0.
      now rewrite Hf. }
    rewrite (bind_run _ _ _ _ _ Hd). rewrite (bind_run _ _ _ _ _ Hd).
    pose proof (for_each_Matcher_Factory_hpp_fails matcher w Hb) as Hm.
    unfold bind at 1.
    destruct (for_each FeatureHpp.Matcher_Factory matcher w)
      as [[y| | |] w1]; cbn in Hm |- *; try discriminate; congruence.
  - apply keeps_MatchHandler_ctor_hpp.
  - destruct (forallb (recognised detector_names) features) eqn:Hf;
      [|now rewrite (Hhpp_f eq_refl)].
    unfold FeatureHpp.MatchHandler_ctor.
    rewrite (bind_run _ _ _ _ _ Hc).
    assert (Hd : for_each FeatureHpp.Detector_Factory features w
                 = (Ret (map detector_of features), w)).
    { rewrite for_each_Detector_Factory_hpp, for_each_Detector_Factory_p0.
      now rewrite Hf. }
    rewrite (bind_run _ _ _ _ _ Hd). rewrite (bind_run _ _ _ _ _ Hd).
    assert (Hcerr : forall ms w0,
               cerr (snd (for_each FeatureHpp.Matcher_Factory ms w0))
               = cerr w0).
    { induction ms as [|m ms IH]; intros w0; [reflexivity|].
      cbn [for_each]. pose proof (Matcher_Factory_hpp_run m w0) as Hrun.
      destruct (recognised matcher_names m).
      - rewrite (bind_run _ _ _ _ _ Hrun). unfold bind at 1.
        specialize (IH (add_cout (hpp_trace m) w0)).
        destruct (for_each FeatureHpp.Matcher_Factory ms _)
          as [[y| | |] w1]; exact IH.
      - rewrite (bind_throw _ _ _ _ _ Hrun). reflexivity. }
    specialize (Hcerr matcher w). unfold bind at 1.
    destruct (for_each FeatureHpp.Matcher_Factory matcher w)
      as [[y| | |] w1]; exact Hcerr.
  - intros Hb. apply Hhpp_f, forallb_unrecognised, Hb.
Qed.

Lemma MatchHandler_ctor_rejects_unknown_names_witness :
  Part000.MatchHandler_ctor ["orb"; "sift"]%string ["bf"; "knn"]%string
                            initial_world
  = (Throw (ExnString "error"), initial_world) /\
  fst (FeatureHpp.MatchHandler_ctor ["orb"; "sift"]%string
         ["bf"; "knn"]%string initial_world)
  = Throw (ExnString "error").
Proof.
  assert (Hbad : Exists (fun m => ~ In m matcher_names)
                        ["bf"; "knn"]%string).
  { apply Exists_cons_tl, Exists_cons_hd. unfold matcher_names. cbn.
    intros [H|[H|[]]]; discriminate. }
  pose proof (MatchHandler_ctor_rejects_unknown_names
                ["orb"; "sift"]%string ["bf"; "knn"]%string initial_world
                eq_refl (or_intror Hbad)) as H.
  exact (conj (proj1 H) (proj1 (proj2 H))).
Defined.

(** *** Drawing in the earlier version *)

Lemma DrawSingleResult_hpp_run (L : Library) (ri di : Detector.t)
      (mi : Matcher.t) (w : World) :
  FeatureHpp.DrawSingleResult L (Detector.getResult ri)
    (Detector.getResult di) (Matcher.getResult mi) w =
  match snd (drawMatches L (Detector.image di) (Detector.keypts di)
               (Detector.image ri) (Detector.keypts ri)
               (Matcher.matches mi) Mat_default) with
  | Some what => (Throw (ExnStd what), w)
  | None =>
      match pipeline_frame L (ri, di, mi) with
      | inr f => (Ret f, w)
      | inl what => (Throw (ExnStd what), w)
      end
  end.
Proof.
  unfold FeatureHpp.DrawSingleResult, pipeline_frame.
  cbv zeta. cbn [Detector.getResult Matcher.getResult dr_image dr_keypts
                   dr_name mr_matches].
  destruct (drawMatches L (Detector.image di) (Detector.keypts di)
              (Detector.image ri) (Detector.keypts ri)
              (Matcher.matches mi) Mat_default) as [left [what | ]];
    cbn [fst snd].
  - reflexivity.
  - unfold bind at 1, raise_pending, ret at 1. unfold bind at 1.
    destruct (putText L left (Detector.name di) (10, 30)
                FONT_HERSHEY_SIMPLEX 1 0 2) as [e | f]; reflexivity.
Qed.

Lemma DrawSingleResult_hpp_draws (L : Library) (ri di : Detector.t)
      (mi : Matcher.t) (w : World) :
  draws L (ri, di, mi) ->
  exists f,
    FeatureHpp.DrawSingleResult L (Detector.getResult ri)
      (Detector.getResult di) (Matcher.getResult mi) w = (Ret f, w).
Proof.
  intros [Hlog (f & Hf)]. exists f.
  rewrite DrawSingleResult_hpp_run, Hf.
  unfold pipeline_log in Hlog.
  destruct (snd (drawMatches L (Detector.image di) (Detector.keypts di)
                   (Detector.image ri) (Detector.keypts ri)
                   (Matcher.matches mi) Mat_default));
    [discriminate | reflexivity].
Qed.

Lemma skipn_cons_inv {A} (l : list A) (i : nat) (x : A) (rest : list A) :
  skipn i l = x :: rest ->
  nth_error l i = Some x /\ skipn (S i) l = rest.
Proof.
  revert l; induction i as [|i IH]; intros [|y l] H; cbn in H;
    try discriminate.
  - injection H as -> ->. split; reflexivity.
  - apply IH in H. exact H.
Qed.

Lemma nth_error_triples (h : MatchHandler.t) (i : nat)
      (ri di : Detector.t) (mi : Matcher.t) :
  nth_error (triples h) i = Some (ri, di, mi) ->
  nth_error (MatchHandler.referDets h) i = Some ri /\
  nth_error (MatchHandler.inputDets h) i = Some di /\
  nth_error (MatchHandler.matchers h) i = Some mi.
Proof.
  unfold triples. rewrite !nth_error_combine.
  destruct (nth_error (MatchHandler.referDets h) i),
           (nth_error (MatchHandler.inputDets h) i),
           (nth_error (MatchHandler.matchers h) i);
    intros H; try discriminate.
  injection H as -> -> ->. auto.
Qed.

Lemma DrawFrames_hpp_aborts (L : Library) (h : MatchHandler.t)
      (ri di : Detector.t) (mi : Matcher.t) (left : Mat) (what : string)
      (post : list (Detector.t * Detector.t * Matcher.t)) :
  drawMatches L (Detector.image di) (Detector.keypts di)
    (Detector.image ri) (Detector.keypts ri) (Matcher.matches mi) Mat_default
  = (left, Some what) ->
  forall (pre : list (Detector.t * Detector.t * Matcher.t))
         (n i : nat) (acc : list Mat) (w : World),
    (i + n)%nat = length (MatchHandler.matchers h) ->
    skipn i (triples h) = pre ++ (ri, di, mi) :: post ->
    Forall (draws L) pre ->
    for_loop n i
      (fun i resultImgs =>
         ri <- defined (nth_error (MatchHandler.referDets h) i) ;;
         di <- defined (nth_error (MatchHandler.inputDets h) i) ;;
         mi <- defined (nth_error (MatchHandler.matchers h) i) ;;
         result <- FeatureHpp.DrawSingleResult L (Detector.getResult ri)
                     (Detector.getResult di) (Matcher.getResult mi) ;;
         ret (resultImgs ++ [result])) acc w =
    (Throw (ExnStd what), w).
Proof.
  intros Hdraw pre; induction pre as [|[[r0 d0] m0] pre IH];
    intros n i acc w Hn Hskip Hpre; cbn [app] in Hskip;
    apply skipn_cons_inv in Hskip as [Hnth Hskip];
    pose proof (nth_error_triples _ _ _ _ _ Hnth) as (Er & Ed & Em);
    (assert (Hi : (i < length (MatchHandler.matchers h))%nat)
      by (apply nth_error_Some; congruence));
    (destruct n as [|n]; [lia|]); cbn [for_loop].
  - apply bind_throw.
    unfold bind, defined. rewrite Er, Ed, Em. unfold ret at 1 2 3.
    now rewrite (DrawSingleResult_hpp_propagates _ _ _ _ _ _ _ Hdraw).
  - inversion Hpre as [|x l Hx Hrest]; subst.
    destruct (DrawSingleResult_hpp_draws L r0 d0 m0 w Hx) as (f & Hf).
    lazymatch goal with
    | |- bind ?m ?k ?w0 = _ =>
        assert (Hbody : m w0 = (Ret (acc ++ [f]), w))
    end.
    { unfold bind, defined. rewrite Er, Ed, Em. unfold ret at 1 2 3.
      rewrite Hf. reflexivity. }
    rewrite (bind_run _ _ _ _ _ Hbody).
    apply IH; [lia | exact Hskip | exact Hrest].
Qed.

(** X10: [DrawMatchResult] of the earlier version has no handler around
    [drawMatches]: when the pipelines before position i are drawn without
    failure and [drawMatches] fails for pipeline i, the exception of that
    call leaves [DrawMatchResult]; no frame is returned, [vconcat] is not
    reached, nothing is written to [std::cerr] and the process state is as
    before the call.  The pipelines after i are not looked at. *)
Theorem DrawMatchResult_hpp_aborts_at_first_failed_drawMatches
        (L : Library) (maxHeight : Z) (h : MatchHandler.t) (w : World)
        (pre post : list (Detector.t * Detector.t * Matcher.t))
        (ri di : Detector.t) (mi : Matcher.t) (left : Mat) (what : string) :
  triples h = pre ++ (ri, di, mi) :: post ->
  Forall (draws L) pre ->
  drawMatches L (Detector.image di) (Detector.keypts di)
    (Detector.image ri) (Detector.keypts ri) (Matcher.matches mi) Mat_default
  = (left, Some what) ->
  FeatureHpp.DrawFrames L h w = (Throw (ExnStd what), w) /\
  FeatureHpp.DrawMatchResult L maxHeight h w = (Throw (ExnStd what), w).
Proof.
  intros Ht Hpre Hdraw.
  assert (Hframes : FeatureHpp.DrawFrames L h w = (Throw (ExnStd what), w)).
  { unfold FeatureHpp.DrawFrames.
    apply (DrawFrames_hpp_aborts L h ri di mi left what post Hdraw pre);
      [reflexivity | exact Ht | exact Hpre]. }
  split; [exact Hframes|].
  unfold FeatureHpp.DrawMatchResult. now apply bind_throw.
Qed.

Lemma DrawMatchResult_hpp_aborts_at_first_failed_drawMatches_witness :
  FeatureHpp.DrawMatchResult Toy.lib 1000 Toy.handler_A initial_world
  = (Throw (ExnStd "keypoint index out of range"), initial_world).
Proof.
  refine (proj2
    (DrawMatchResult_hpp_aborts_at_first_failed_drawMatches
       Toy.lib 1000 Toy.handler_A initial_world
       (firstn 1 (triples Toy.handler_A)) []
       (fst (fst (nth 1 (triples Toy.handler_A)
                      (Detector.new "" None, Detector.new "" None,
                       Matcher.new "" None))))
       (snd (fst (nth 1 (triples Toy.handler_A)
                      (Detector.new "" None, Detector.new "" None,
                       Matcher.new "" None))))
       (snd (nth 1 (triples Toy.handler_A)
                 (Detector.new "" None, Detector.new "" None,
                  Matcher.new "" None)))
       Mat_default "keypoint index out of range" _ _ _)).
  - reflexivity.
  - constructor; [|constructor]. split; [reflexivity|].
    eexists. reflexivity.
  - reflexivity.
Defined.

(** X11: in the earlier version the stored matches of a handler are empty
    for its whole life: after the constructor and any sequence of
    [SetRefImage], [MatchImage], [ChangeAcceptRatio] and [DrawMatchResult]
    that returns, with any library, the matchers are those the constructor
    built and each of them reports an empty list of matches. *)
Theorem stored_matches_stay_empty_in_the_earlier_version
        (L : Library) (features matcher : list string) (ops : list Op)
        (w w1 w' : World) (h h' : MatchHandler.t) :
  FeatureHpp.MatchHandler_ctor features matcher w = (Ret h, w1) ->
  run_ops (run_op_hpp L) ops h w1 = (Ret h', w') ->
  MatchHandler.matchers h' = MatchHandler.matchers h /\
  Forall (fun m => mr_matches (Matcher.getResult m) = [])
         (MatchHandler.matchers h').
Proof.
  intros Hctor Hops.
  pose proof (run_ops_hpp_matchers L ops h h' w1 w' Hops) as Hsame.
  split; [exact Hsame|]. rewrite Hsame.
  exact (MatchHandler_ctor_hpp_no_matches _ _ _ _ _ Hctor).
Qed.

Lemma stored_matches_stay_empty_in_the_earlier_version_witness :
  Forall (fun m => mr_matches (Matcher.getResult m) = [])
    (MatchHandler.matchers
       (Toy.handler_of
          (Toy.session_hpp [OpSetRefImage Toy.refimg; OpMatchImage Toy.imageA;
                            OpChangeAcceptRatio Toy.f0_8;
                            OpMatchImage Toy.imageB;
                            OpDrawMatchResult 1000]))).
Proof.
  refine (proj2
    (stored_matches_stay_empty_in_the_earlier_version Toy.lib
       ["orb"; "sift"]%string ["bf"; "flann"]%string
       [OpSetRefImage Toy.refimg; OpMatchImage Toy.imageA;
        OpChangeAcceptRatio Toy.f0_8; OpMatchImage Toy.imageB;
        OpDrawMatchResult 1000]
       initial_world
       (add_cout [OStr "match factorcy"; OEndl; OStr "im in2"; OEndl;
                  OStr "match factorcy"; OEndl; OStr "im in"; OEndl]
                 initial_world)
       (snd (Toy.session_hpp
               [OpSetRefImage Toy.refimg; OpMatchImage Toy.imageA;
                OpChangeAcceptRatio Toy.f0_8; OpMatchImage Toy.imageB;
                OpDrawMatchResult 1000]))
       (hpp_handler ["orb"; "sift"]%string ["bf"; "flann"]%string)
       _ _ _)).
  - vm_compute. reflexivity.
  - vm_compute. reflexivity.
Defined.

(** *** What drawing cannot do *)

Lemma safe_at_bind {A B} (R : World -> World -> Prop) (m : M A)
      (k : A -> M B) (w : World) :
  (forall w1 w2 w3, R w1 w2 -> R w2 w3 -> R w1 w3) ->
  safe_at R m w ->
  (forall a w1, m w = (Ret a, w1) -> safe_at R (k a) w1) ->
  safe_at R (bind m k) w.
Proof.
  unfold safe_at, bind. intros Htrans [Hb HR] Hk.
  destruct (m w) as [[a|[s|what]| |] w1]; cbn in *; try contradiction.
  - destruct (Hk a w1 eq_refl) as [Hb' HR']. split; [exact Hb'|].
    eapply Htrans; eauto.
  - auto.
Qed.

Lemma safe_at_call {A} (R : World -> World -> Prop) (r : Lib A) (w : World) :
  R w w -> safe_at R (call r) w.
Proof. intros HR. destruct r; split; cbn; auto. Qed.

Lemma safe_at_ret {A} (R : World -> World -> Prop) (a : A) (w : World) :
  R w w -> safe_at R (ret a) w.
Proof. intros HR. split; cbn; auto. Qed.

Lemma cerr_grows_refl (w : World) : cerr_grows w w.
Proof. exists []. now rewrite add_cerr_nil. Qed.

Lemma cerr_grows_trans (w1 w2 w3 : World) :
  cerr_grows w1 w2 -> cerr_grows w2 w3 -> cerr_grows w1 w3.
Proof.
  intros [a ->] [b ->]. exists (a ++ b). apply add_cerr_app.
Qed.

Lemma draw_loop_safe (R : World -> World -> Prop)
      (DS : DetectResult -> DetectResult -> MatcherResult -> M Mat)
      (h : MatchHandler.t) :
  (forall w, R w w) ->
  (forall w1 w2 w3, R w1 w2 -> R w2 w3 -> R w1 w3) ->
  (forall r d m w, safe_at R (DS r d m) w) ->
  length (MatchHandler.referDets h) = length (MatchHandler.matchers h) ->
  length (MatchHandler.inputDets h) = length (MatchHandler.matchers h) ->
  forall (n i : nat) (acc : list Mat) (w : World),
    (i + n)%nat = length (MatchHandler.matchers h) ->
    safe_at R
      (for_loop n i
         (fun i resultImgs =>
            ri <- defined (nth_error (MatchHandler.referDets h) i) ;;
            di <- defined (nth_error (MatchHandler.inputDets h) i) ;;
            mi <- defined (nth_error (MatchHandler.matchers h) i) ;;
            result <- DS (Detector.getResult ri) (Detector.getResult di)
                         (Matcher.getResult mi) ;;
            ret (resultImgs ++ [result])) acc) w.
Proof.
  intros Hrefl Htrans HDS Hr Hd.
  induction n as [|n IH]; intros i acc w Hi; cbn [for_loop].
  - now apply safe_at_ret.
  - destruct (nth_error (MatchHandler.referDets h) i) as [ri|] eqn:Eri;
      [|apply nth_error_None in Eri; lia].
    destruct (nth_error (MatchHandler.inputDets h) i) as [di|] eqn:Edi;
      [|apply nth_error_None in Edi; lia].
    destruct (nth_error (MatchHandler.matchers h) i) as [mi|] eqn:Emi;
      [|apply nth_error_None in Emi; lia].
    apply safe_at_bind; [exact Htrans| |].
    + unfold defined. apply safe_at_bind; [exact Htrans| |].
      { now apply safe_at_ret. }
      intros a w1 Ha. apply ret_inv in Ha as [<- <-].
      apply safe_at_bind; [exact Htrans| |].
      { now apply safe_at_ret. }
      intros a w1 Ha. apply ret_inv in Ha as [<- <-].
      apply safe_at_bind; [exact Htrans| |].
      { now apply safe_at_ret. }
      intros a w1 Ha. apply ret_inv in Ha as [<- <-].
      apply safe_at_bind; [exact Htrans|apply HDS|].
      intros f w1 _. now apply safe_at_ret.
    + intros acc' w1 _. apply IH. lia.
Qed.

Lemma DrawSingleResult_p0_safe (L : Library) (r d : DetectResult)
      (m : MatcherResult) (w : World) :
  safe_at cerr_grows (Part000.DrawSingleResult L r d m) w.
Proof.
  pose proof (DrawSingleResult_p0_run L
                (Detector.mk None (dr_name r) (dr_image r) (dr_keypts r)
                             (dr_descriptors r))
                (Detector.mk None (dr_name d) (dr_image d) (dr_keypts d)
                             (dr_descriptors d))
                (Matcher.mk None (mr_name m) (mr_matches m) 10) w) as H.
  unfold Detector.getResult, Matcher.getResult in H. cbn in H.
  destruct r, d, m. cbn in H. unfold safe_at. rewrite H.
  match goal with
  | |- context [match ?x with inl _ => _ | inr _ => _ end] => destruct x
  end; cbn; split; eauto; eexists; reflexivity.
Qed.

Lemma DrawSingleResult_hpp_safe (L : Library) (r d : DetectResult)
      (m : MatcherResult) (w : World) :
  safe_at eq (FeatureHpp.DrawSingleResult L r d m) w.
Proof.
  pose proof (DrawSingleResult_hpp_run L
                (Detector.mk None (dr_name r) (dr_image r) (dr_keypts r)
                             (dr_descriptors r))
                (Detector.mk None (dr_name d) (dr_image d) (dr_keypts d)
                             (dr_descriptors d))
                (Matcher.mk None (mr_name m) (mr_matches m) 10) w) as H.
  unfold Detector.getResult, Matcher.getResult in H. cbn in H.
  destruct r, d, m. cbn in H. unfold safe_at. rewrite H.
  match goal with
  | |- context [match snd ?x with Some _ => _ | None => _ end] =>
      destruct (snd x)
  end; cbn; [split; auto|].
  match goal with
  | |- context [match ?x with inl _ => _ | inr _ => _ end] => destruct x
  end; cbn; split; auto.
Qed.

(** X12: on a handler whose three lists have the same length, as every
    constructed handler has them, [DrawMatchResult] has no undefined
    behaviour, fails no assertion and throws no [std::string], whatever the
    library does: it returns an image or throws a [std::exception] of the
    library.  The later version changes the process state only by appending
    to [std::cerr]; the earlier version does not change it at all. *)
Theorem DrawMatchResult_returns_or_throws_a_library_exception
        (L : Library) (maxHeight : Z) (h : MatchHandler.t) (w : World) :
  length (MatchHandler.referDets h) = length (MatchHandler.matchers h) ->
  length (MatchHandler.inputDets h) = length (MatchHandler.matchers h) ->
  (benign (fst (Part000.DrawMatchResult L maxHeight h w)) /\
   exists items,
     snd (Part000.DrawMatchResult L maxHeight h w) = add_cerr items w) /\
  (benign (fst (FeatureHpp.DrawMatchResult L maxHeight h w)) /\
   snd (FeatureHpp.DrawMatchResult L maxHeight h w) = w).
Proof.
  intros Hr Hd. split.
  - change (safe_at cerr_grows (Part000.DrawMatchResult L maxHeight h) w).
    unfold Part000.DrawMatchResult.
    apply safe_at_bind; [exact cerr_grows_trans| |].
    + apply (draw_loop_safe cerr_grows (Part000.DrawSingleResult L) h
               cerr_grows_refl cerr_grows_trans
               (DrawSingleResult_p0_safe L) Hr Hd); reflexivity.
    + intros frames w1 _.
      apply safe_at_bind; [exact cerr_grows_trans| |].
      * apply safe_at_call, cerr_grows_refl.
      * intros stacked w2 _.
        destruct (maxHeight <? rows stacked);
          [apply safe_at_call | apply safe_at_ret]; apply cerr_grows_refl.
  - assert (Htrans : forall w1 w2 w3 : World, w1 = w2 -> w2 = w3 -> w1 = w3)
      by (intros; congruence).
    assert (H : safe_at eq (FeatureHpp.DrawMatchResult L maxHeight h) w).
    { unfold FeatureHpp.DrawMatchResult.
      apply safe_at_bind; [exact Htrans| |].
      + apply (draw_loop_safe eq (FeatureHpp.DrawSingleResult L) h
                 (fun w0 => eq_refl) Htrans
                 (DrawSingleResult_hpp_safe L) Hr Hd); reflexivity.
      + intros frames w1 _. now apply safe_at_call. }
    destruct H as [Hb Hw]. split; [exact Hb | now symmetry].
Qed.

Lemma DrawMatchResult_returns_or_throws_a_library_exception_witness :
  benign (fst (Part000.DrawMatchResult Toy.lib 1000 Toy.handler_A
                 initial_world)) /\
  snd (FeatureHpp.DrawMatchResult Toy.lib 1000 Toy.handler_A initial_world)
  = initial_world.
Proof.
  pose proof (DrawMatchResult_returns_or_throws_a_library_exception
                Toy.lib 1000 Toy.handler_A initial_world eq_refl eq_refl)
    as H.
  exact (conj (proj1 (proj1 H)) (proj2 (proj2 H))).
Defined.

(** *** The earlier [MatchImage] against the later one *)

Lemma sim_bind {A1 A2 B1 B2} (RA : A1 -> A2 -> Prop) (RB : B1 -> B2 -> Prop)
      (m1 : M A1) (m2 : M A2) (k1 : A1 -> M B1) (k2 : A2 -> M B2)
      (w : World) :
  sim RA (m1 w) (m2 w) ->
  (forall a1 a2 w', RA a1 a2 -> sim RB (k1 a1 w') (k2 a2 w')) ->
  sim RB (bind m1 k1 w) (bind m2 k2 w).
Proof.
  unfold sim at 1, bind. intros [Hw Ho] Hk.
  destruct (m1 w) as [[a1|e1| |] w1], (m2 w) as [[a2|e2| |] w2];
    cbn in *; try contradiction; subst; try (split; cbn; auto; fail).

  now apply Hk.
Qed.

Lemma sim_refl {A} (r : Outcome A * World) : sim eq r r.
Proof. destruct r as [[a|e| |] w]; split; cbn; auto. Qed.

Lemma sim_fun {A B} (f : A -> B) (r1 : Outcome A * World)
      (r2 : Outcome B * World) :
  sim (fun a b => b = f a) r1 r2 -> r2 = (Outcome_map f (fst r1), snd r1).
Proof.
  destruct r1 as [[a|e| |] w1], r2 as [[b|e'| |] w2]; intros [Hw Ho];
    cbn in *; try contradiction; subst; reflexivity.
Qed.

Lemma sim_MatchDescriptors (L : Library) (r i : Mat) (m1 m0 : Matcher.t)
      (w : World) :
  matcher_cfg m1 = matcher_cfg m0 ->
  sim (fun m' m0' => matcher_cfg m' = matcher_cfg m0 /\ m0' = m0)
      (Part000.MatchDescriptors L r i m1 w)
      (FeatureHpp.MatchDescriptors L r i m0 w).
Proof.
  intros Hcfg. rewrite (MatchDescriptors_p0_config L r i m1 m0 w Hcfg).
  unfold Part000.MatchDescriptors, FeatureHpp.MatchDescriptors.
  eapply sim_bind; [apply sim_refl|]. intros a ? w1 <-.
  eapply sim_bind; [apply sim_refl|]. intros raw ? w2 <-.
  eapply sim_bind; [apply sim_refl|]. intros kept ? w3 <-.
  eapply sim_bind; [apply sim_refl|]. intros u ? w4 <-.
  split; cbn; auto.
Qed.

Lemma nth_error_cfg (ms1 ms0 : list Matcher.t) (i : nat) :
  map matcher_cfg ms1 = map matcher_cfg ms0 ->
  option_map matcher_cfg (nth_error ms1 i)
  = option_map matcher_cfg (nth_error ms0 i).
Proof. intros H. now rewrite <- !nth_error_map, H. Qed.

Lemma sim_match_loop (L : Library) (referDets inputDets : list Detector.t)
      (ms0 : list Matcher.t) :
  forall (n i : nat) (ms1 : list Matcher.t) (w : World),
    map matcher_cfg ms1 = map matcher_cfg ms0 ->
    sim (fun ms' ms0' => ms0' = ms0)
      (for_loop n i
         (fun i matchers =>
            mi <- defined (nth_error matchers i) ;;
            ri <- defined (nth_error referDets i) ;;
            di <- defined (nth_error inputDets i) ;;
            mi' <- Part000.MatchDescriptors L
                     (dr_descriptors (Detector.getResult ri))
                     (dr_descriptors (Detector.getResult di)) mi ;;
            ret (set_nth i mi' matchers)) ms1 w)
      (for_loop n i
         (fun i matchers =>
            mi <- defined (nth_error matchers i) ;;
            ri <- defined (nth_error referDets i) ;;
            di <- defined (nth_error inputDets i) ;;
            mi' <- FeatureHpp.MatchDescriptors L
                     (dr_descriptors (Detector.getResult ri))
                     (dr_descriptors (Detector.getResult di)) mi ;;
            ret (set_nth i mi' matchers)) ms0 w).
Proof.
  induction n as [|n IH]; intros i ms1 w Hcfg; cbn [for_loop].
  - split; cbn; auto.
  - eapply (sim_bind
              (fun ms' ms0' => map matcher_cfg ms' = map matcher_cfg ms0
                               /\ ms0' = ms0)).
    + pose proof (nth_error_cfg ms1 ms0 i Hcfg) as Hnth.
      destruct (nth_error ms1 i) as [a1|] eqn:E1,
               (nth_error ms0 i) as [a0|] eqn:E0; cbn in Hnth;
        try discriminate.
      * assert (Ha : matcher_cfg a1 = matcher_cfg a0) by congruence.
        clear Hnth.
        eapply (sim_bind (fun m1 m0 => m1 = a1 /\ m0 = a0));
          [split; cbn; auto|].
        intros ? ? w1 [-> ->].
        eapply sim_bind; [apply sim_refl|]. intros ri ? w2 <-.
        eapply sim_bind; [apply sim_refl|]. intros di ? w3 <-.
        eapply sim_bind; [apply (sim_MatchDescriptors _ _ _ _ _ _ Ha)|].
        intros m' ? w4 [Hm' ->]. split; cbn; [reflexivity|]. split.
        -- rewrite (set_nth_key matcher_cfg ms1 i a1 m' E1); congruence.
        -- now apply set_nth_same.
      * split; cbn; auto.
    + intros ms' ? w' [Hcfg' ->]. now apply IH.
Qed.

Lemma MatchImage_hpp_world_and_outcome
      (L : Library) (img : Mat) (h : MatchHandler.t) (w : World) :
  FeatureHpp.MatchImage L img h w
  = (Outcome_map (fun h' => with_matchers h' (MatchHandler.matchers h))
       (fst (Part000.MatchImage L img h w)),
     snd (Part000.MatchImage L img h w)).
Proof.
  apply sim_fun. unfold Part000.MatchImage, FeatureHpp.MatchImage.
  eapply sim_bind; [apply sim_refl|]. intros ds ? w1 <-.
  eapply sim_bind; [now apply sim_match_loop|].
  intros ms' ? w2 ->. split; reflexivity.
Qed.

(** X13: [MatchImage] of the earlier version does all the work of the later
    one and discards it: for every library, handler and process state it ends
    as the later version ends (return, the same exception, or undefined
    behaviour), in the same process state, and when both return its handler
    is the handler of the later version with the matchers of before the
    call put back. *)
Theorem MatchImage_hpp_is_the_later_one_with_the_matchers_put_back
        (L : Library) (img : Mat) (h : MatchHandler.t) (w : World) :
  FeatureHpp.MatchImage L img h w
  = (Outcome_map (fun h' => with_matchers h' (MatchHandler.matchers h))
       (fst (Part000.MatchImage L img h w)),
     snd (Part000.MatchImage L img h w)).
Proof. exact (MatchImage_hpp_world_and_outcome L img h w). Qed.

(** *** When [MatchImage] can go wrong *)










Lemma Toy_sort_length (l : list DMatch) : length (Toy.sort l) = length l.
Proof.
  induction l as [|x l IH]; [reflexivity|]. cbn [Toy.sort].
  rewrite (Permutation_length (Toy_insert_perm x (Toy.sort l))).
  cbn. now rewrite IH.
Qed.

Lemma with_match_cap_bound (cap : nat) (L : Library)
      (algo : DescriptorMatcher) (q t : Mat) (raw : list DMatch) :
  cv_match (with_match_cap cap L) algo q t = inr raw ->
  (length raw <= cap)%nat.
Proof.
  cbn. destruct (cv_match L algo q t) as [e|raw0]; [discriminate|].
  intros H. injection H as <-. apply firstn_le_length.
Qed.


(** *** [SetRefImage] and the process state *)

Lemma stateless_ret {A} (a : A) : stateless (ret a).
Proof. exists (Ret a). reflexivity. Qed.

Lemma stateless_call {A} (r : Lib A) : stateless (call r).
Proof.
  destruct r as [e|a]; [exists (Throw (ExnStd e)) | exists (Ret a)];
    reflexivity.
Qed.

Lemma stateless_defined {A} (o : option A) : stateless (defined o).
Proof.
  destruct o as [a|]; [exists (Ret a) | exists Undefined]; reflexivity.
Qed.

Lemma stateless_bind {A B} (m : M A) (k : A -> M B) :
  stateless m -> (forall a, stateless (k a)) -> stateless (bind m k).
Proof.
  intros [o Ho] Hk. destruct o as [a|e| |].
  - destruct (Hk a) as [o' Ho']. exists o'. intros w.
    unfold bind. now rewrite Ho, Ho'.
  - exists (Throw e). intros w. unfold bind. now rewrite Ho.
  - exists AssertFail. intros w. unfold bind. now rewrite Ho.
  - exists Undefined. intros w. unfold bind. now rewrite Ho.
Qed.

Lemma stateless_for_each {A B} (f : A -> M B) (xs : list A) :
  (forall x, stateless (f x)) -> stateless (for_each f xs).
Proof.
  intros Hf; induction xs as [|x xs IH]; cbn [for_each].
  - apply stateless_ret.
  - apply stateless_bind; [apply Hf|]. intros y.
    apply stateless_bind; [exact IH|]. intros ys. apply stateless_ret.
Qed.

Lemma stateless_DetectAndCompute (L : Library) (img : Mat) (d : Detector.t) :
  stateless (Detector.DetectAndCompute L img d).
Proof.
  unfold Detector.DetectAndCompute.
  apply stateless_bind; [apply stateless_defined|]. intros f.
  apply stateless_bind; [apply stateless_call|]. intros kd.
  apply stateless_ret.
Qed.

(** X15: what [SetRefImage] does neither reads nor writes the process
    state.  In the later version its outcome is the same in every process
    state and that state is left as it is; the earlier version has the same
    outcome and first writes the line [ Set Ref!!!] to [std::cout], also
    when the detection then fails. *)
Theorem SetRefImage_is_stateless_up_to_its_trace
        (L : Library) (img : Mat) (h : MatchHandler.t) :
  exists o,
    (forall w, Part000.SetRefImage L img h w = (o, w)) /\
    (forall w, FeatureHpp.SetRefImage L img h w
               = (o, add_cout [OStr " Set Ref!!!"; OEndl] w)).
Proof.
  assert (H : stateless (Part000.SetRefImage L img h)).
  { unfold Part000.SetRefImage.
    apply stateless_bind.
    - apply stateless_for_each. intros d. apply stateless_DetectAndCompute.
    - intros ds. apply stateless_ret. }
  destruct H as [o Ho]. exists o. split; [exact Ho|].
  intros w. exact (Ho (add_cout [OStr " Set Ref!!!"; OEndl] w)).
Qed.

(** *** The ratio over a session with one handler *)

Lemma run_op_tracked_p0 (L : Library) (op : Op) (h h' : MatchHandler.t)
      (w w' : World) :
  is_ChangeAcceptRatio op = false ->
  run_op_p0 L op h w = (Ret h', w') ->
  MatchHandler.acceptRatio h' = MatchHandler.acceptRatio h.
Proof.
  destruct op as [img|img|d|mh]; cbn; intros Hop H; try discriminate.
  - unfold Part000.SetRefImage in H.
    apply bind_Ret_inv in H as (ds & w1 & _ & H).
    apply ret_inv in H as [<- _]. reflexivity.
  - now apply MatchImage_p0_inv in H.
  - apply bind_Ret_inv in H as (m & w1 & _ & H).
    apply ret_inv in H as [<- _]. reflexivity.
Qed.

Lemma run_op_tracked_hpp (L : Library) (op : Op) (h h' : MatchHandler.t)
      (w w' : World) :
  is_ChangeAcceptRatio op = false ->
  run_op_hpp L op h w = (Ret h', w') ->
  MatchHandler.acceptRatio h' = MatchHandler.acceptRatio h.
Proof.
  destruct op as [img|img|d|mh]; cbn; intros Hop H; try discriminate.
  - unfold FeatureHpp.SetRefImage in H.
    apply bind_Ret_inv in H as (ds & w1 & _ & H).
    apply ret_inv in H as [<- _]. reflexivity.
  - unfold FeatureHpp.MatchImage in H.
    apply bind_Ret_inv in H as (ds & w1 & _ & H).
    apply bind_Ret_inv in H as (ms & w2 & _ & H).
    apply ret_inv in H as [<- _]. reflexivity.
  - apply bind_Ret_inv in H as (m & w1 & _ & H).
    apply ret_inv in H as [<- _]. reflexivity.
Qed.

Lemma session_ratio (step : Op -> MatchHandler.t -> M MatchHandler.t) :
  (forall op h, is_ChangeAcceptRatio op = false -> keeps_ratio (step op h)) ->
  (forall op h h' w w',
      is_ChangeAcceptRatio op = false -> step op h w = (Ret h', w') ->
      MatchHandler.acceptRatio h' = MatchHandler.acceptRatio h) ->
  (forall d h w,
      fst (step (OpChangeAcceptRatio d) h w)
      = Ret (set_tracked h (clamp01 (F32.add (MatchHandler.acceptRatio h) d)))
      /\ static_acceptRatio (snd (step (OpChangeAcceptRatio d) h w))
         = clamp01 (F32.add (MatchHandler.acceptRatio h) d)) ->
  forall ops h w h' w',
    run_ops step ops h w = (Ret h', w') ->
    MatchHandler.acceptRatio h'
    = apply_changes (MatchHandler.acceptRatio h) (changes ops) /\
    static_acceptRatio w'
    = match changes ops with
      | [] => static_acceptRatio w
      | _ :: _ => MatchHandler.acceptRatio h'
      end.
Proof.
  intros Hkeep Htracked Hchange.
  assert (Hgen : forall ops h w h' w',
             run_ops step ops h w = (Ret h', w') ->
             MatchHandler.acceptRatio h'
             = apply_changes (MatchHandler.acceptRatio h) (changes ops) /\
             (changes ops = [] -> static_acceptRatio w' = static_acceptRatio w)
             /\
             (static_acceptRatio w = MatchHandler.acceptRatio h
              \/ changes ops <> [] ->
              static_acceptRatio w' = MatchHandler.acceptRatio h')).
  { induction ops as [|op ops IH]; intros h w h' w' H; cbn [run_ops] in H.
    - apply ret_inv in H as [<- <-]. cbn. repeat split; auto.
      intros [Heq|Hne]; [exact Heq | congruence].
    - apply bind_Ret_inv in H as (h1 & w1 & Hstep & Hrest).
      destruct (IH _ _ _ _ Hrest) as (Ht & Hnil & Hsync).
      destruct (is_ChangeAcceptRatio op) eqn:Hop.
      + destruct op as [img|img|d|mh]; try discriminate.
        destruct (Hchange d h w) as [Hfst Hsnd].
        rewrite Hstep in Hfst, Hsnd. cbn in Hfst, Hsnd.
        injection Hfst as ->. cbn in Ht, Hsync |- *.
        split; [exact Ht|]. split; [discriminate|].
        intros _. apply Hsync. left. exact Hsnd.
      + pose proof (Htracked _ _ _ _ _ Hop Hstep) as Hsame.
        pose proof (Hkeep op h Hop w) as Hk. rewrite Hstep in Hk.
        cbn in Hk.
        assert (Hch : changes (op :: ops) = changes ops)
          by (destruct op; try discriminate; reflexivity).
        rewrite Hch, <- Hsame. split; [exact Ht|]. split.
        * intros Hn. rewrite (Hnil Hn). exact Hk.
        * intros Hs. apply Hsync.
          destruct Hs as [Hs|Hs]; [left; congruence | right; exact Hs]. }
  intros ops h w h' w' H.
  destruct (Hgen ops h w h' w' H) as (Ht & Hnil & Hsync).
  split; [exact Ht|].
  destruct (changes ops) as [|d ds] eqn:Hc.
  - now apply Hnil.
  - apply Hsync. right. discriminate.
Qed.

(** X16: over a session on one handler that returns, in either version,
    the tracked ratio of the handler is the initial one with the requested
    changes applied in order, each sum clamped before the next change is
    added, whatever other calls lie between; and from the first
    [ChangeAcceptRatio] on the shared ratio equals the tracked ratio of the
    handler, while before it the shared ratio is the one the session
    started with. *)
Theorem session_ratio_follows_the_changes
        (L : Library) (ops : list Op) (h h' : MatchHandler.t)
        (w w' : World) :
  run_ops (run_op_p0 L) ops h w = (Ret h', w') \/
  run_ops (run_op_hpp L) ops h w = (Ret h', w') ->
  MatchHandler.acceptRatio h'
  = apply_changes (MatchHandler.acceptRatio h) (changes ops) /\
  static_acceptRatio w'
  = match changes ops with
    | [] => static_acceptRatio w
    | _ :: _ => MatchHandler.acceptRatio h'
    end.
Proof.
  intros [H|H].
  - revert H. apply (session_ratio (run_op_p0 L)).
    + apply keeps_run_op_p0.
    + apply run_op_tracked_p0.
    + intros d h0 w0. cbn [run_op_p0].
      rewrite ChangeAcceptRatio_p0_run. split; reflexivity.
  - revert H. apply (session_ratio (run_op_hpp L)).
    + apply keeps_run_op_hpp.
    + apply run_op_tracked_hpp.
    + intros d h0 w0. cbn [run_op_hpp].
      rewrite ChangeAcceptRatio_hpp_run. split; reflexivity.
Qed.

Lemma session_ratio_follows_the_changes_witness :
  MatchHandler.acceptRatio
    (Toy.handler_of
       (Toy.session [OpSetRefImage Toy.refimg; OpChangeAcceptRatio Toy.f0_8;
                     OpMatchImage Toy.imageA; OpChangeAcceptRatio Toy.fm2]))
  = apply_changes F32.half [Toy.f0_8; Toy.fm2] /\
  static_acceptRatio
    (snd (Toy.session
            [OpSetRefImage Toy.refimg; OpChangeAcceptRatio Toy.f0_8;
             OpMatchImage Toy.imageA; OpChangeAcceptRatio Toy.fm2]))
  = MatchHandler.acceptRatio
      (Toy.handler_of
         (Toy.session [OpSetRefImage Toy.refimg; OpChangeAcceptRatio Toy.f0_8;
                       OpMatchImage Toy.imageA; OpChangeAcceptRatio Toy.fm2])).
Proof.
  refine (session_ratio_follows_the_changes Toy.lib
            [OpSetRefImage Toy.refimg; OpChangeAcceptRatio Toy.f0_8;
             OpMatchImage Toy.imageA; OpChangeAcceptRatio Toy.fm2]
            (paired_handler ["orb"; "sift"]%string ["bf"; "flann"]%string)
            _ initial_world _ (or_introl _)).
  vm_compute. reflexivity.
Defined.

(** ** The default ratio *)

(** At the default ratio the truncation keeps the first half, rounded down,
    of the sorted matches. *)
Lemma sort_and_truncate_half (L : Library) (raw : list DMatch) (w : World) :
  static_acceptRatio w = F32.half ->
  length (std_sort L raw) = length raw ->
  Z.of_nat (length raw) < 2 ^ 24 ->
  Matcher.sort_and_truncate L raw w
  = (Ret (firstn (length raw / 2) (std_sort L raw)), w).
Proof.
  intros Hw Hlen Hn.
  pose proof (numGoodMatches_half (length raw) Hn) as Hk.
  rewrite <- Hw in Hk.
  assert (Hr : 0 <= Z.of_nat (length raw) / 2 <= Z.of_nat (length raw)).
  { split; [apply Z.div_pos; lia | ].
    apply Z.div_le_upper_bound; lia. }
  rewrite (sort_and_truncate_run L raw w _ Hlen Hk Hr).
  replace (Z.to_nat (Z.of_nat (length raw) / 2)) with (length raw / 2)%nat;
    [reflexivity | ].
  rewrite <- (Nat2Z.id (length raw / 2)). f_equal.
  rewrite Nat2Z.inj_div. reflexivity.
Qed.

(** A session without [ChangeAcceptRatio] that starts in the initial process
    state ends with the default ratio. *)
Lemma session_keeps_default_ratio (L : Library) (features matcher : list string)
      (ops : list Op) (h : MatchHandler.t) (w : World) :
  forallb (fun op => negb (is_ChangeAcceptRatio op)) ops = true ->
  (h0 <- Part000.MatchHandler_ctor features matcher ;;
   run_ops (run_op_p0 L) ops h0) initial_world = (Ret h, w) \/
  (h0 <- FeatureHpp.MatchHandler_ctor features matcher ;;
   run_ops (run_op_hpp L) ops h0) initial_world = (Ret h, w) ->
  static_acceptRatio w = F32.half.
Proof.
  intros Hops [H | H].
  - assert (Hk : static_acceptRatio
                   (snd ((h0 <- Part000.MatchHandler_ctor features matcher ;;
                          run_ops (run_op_p0 L) ops h0) initial_world))
                 = F32.half).
    { refine (keeps_bind _ _ (keeps_MatchHandler_ctor_p0 _ _) _ initial_world).
      intros h0. apply keeps_run_ops; [apply keeps_run_op_p0 | exact Hops]. }
    rewrite H in Hk. exact Hk.
  - assert (Hk : static_acceptRatio
                   (snd ((h0 <- FeatureHpp.MatchHandler_ctor features matcher ;;
                          run_ops (run_op_hpp L) ops h0) initial_world))
                 = F32.half).
    { refine (keeps_bind _ _ (keeps_MatchHandler_ctor_hpp _ _) _
                initial_world).
      intros h0. apply keeps_run_ops; [apply keeps_run_op_hpp | exact Hops]. }
    rewrite H in Hk. exact Hk.
Qed.

(** C9: the shared ratio starts at 0.5 and every constructed handler tracks
    0.5 (both versions); no member function other than [ChangeAcceptRatio]
    writes the shared ratio, so in every process state that a session
    without [ChangeAcceptRatio] reaches, a call of [MatchDescriptors] on [n]
    raw matches filters at 0.5: it sorts them and keeps the first [n / 2],
    none of them farther than a dropped one.  The later version stores them
    in the matcher, and after [MatchImage] the matcher of every pipeline
    holds the best half of what its library matcher returned; the earlier
    version computes the same half into a local vector and returns the
    matcher as it was.  In both, control then reaches the closing brace of a
    function without [return]. *)
Theorem default_ratio_is_half :
  static_acceptRatio initial_world = F32.half /\
  (forall features matcher w w' h,
      (Part000.MatchHandler_ctor features matcher w = (Ret h, w') \/
       FeatureHpp.MatchHandler_ctor features matcher w = (Ret h, w')) ->
      MatchHandler.acceptRatio h = F32.half) /\
  (forall features matcher,
      keeps_ratio (Part000.MatchHandler_ctor features matcher) /\
      keeps_ratio (FeatureHpp.MatchHandler_ctor features matcher)) /\
  (forall L ops h,
      forallb (fun op => negb (is_ChangeAcceptRatio op)) ops = true ->
      keeps_ratio (run_ops (run_op_p0 L) ops h) /\
      keeps_ratio (run_ops (run_op_hpp L) ops h)) /\
  (forall L features matcher ops,
      forallb (fun op => negb (is_ChangeAcceptRatio op)) ops = true ->
      static_acceptRatio
        (snd ((h <- Part000.MatchHandler_ctor features matcher ;;
               run_ops (run_op_p0 L) ops h) initial_world)) = F32.half /\
      static_acceptRatio
        (snd ((h <- FeatureHpp.MatchHandler_ctor features matcher ;;
               run_ops (run_op_hpp L) ops h) initial_world)) = F32.half) /\
  (forall L raw w,
      static_acceptRatio w = F32.half ->
      length (std_sort L raw) = length raw ->
      Z.of_nat (length raw) < 2 ^ 24 ->
      Matcher.sort_and_truncate L raw w
      = (Ret (firstn (length raw / 2) (std_sort L raw)), w)) /\
  (forall L features matcher ops h w referDesc inputDesc this m raw,
      forallb (fun op => negb (is_ChangeAcceptRatio op)) ops = true ->
      (h0 <- Part000.MatchHandler_ctor features matcher ;;
       run_ops (run_op_p0 L) ops h0) initial_world = (Ret h, w) \/
      (h0 <- FeatureHpp.MatchHandler_ctor features matcher ;;
       run_ops (run_op_hpp L) ops h0) initial_world = (Ret h, w) ->
      std_sort_contract (std_sort L) ->
      Matcher.matcher this = Some m ->
      cv_match L m inputDesc referDesc = inr raw ->
      distances_are_numbers raw ->
      Z.of_nat (length raw) < 2 ^ 24 ->
      exists kept dropped : list DMatch,
        kept = firstn (length raw / 2) (std_sort L raw) /\
        length kept = (length raw / 2)%nat /\
        kept ++ dropped = std_sort L raw /\
        Permutation (kept ++ dropped) raw /\
        (forall a b, In a kept -> In b dropped -> distance_le a b) /\
        Part000.MatchDescriptors L referDesc inputDesc this w
        = (if off_end_returns L then Ret (with_matches this kept)
           else Undefined, w) /\
        FeatureHpp.MatchDescriptors L referDesc inputDesc this w
        = (if off_end_returns L then Ret this else Undefined, w)) /\
  (forall L features matcher ops h w img h' w',
      forallb (fun op => negb (is_ChangeAcceptRatio op)) ops = true ->
      (h0 <- Part000.MatchHandler_ctor features matcher ;;
       run_ops (run_op_p0 L) ops h0) initial_world = (Ret h, w) ->
      (forall raw, length (std_sort L raw) = length raw) ->
      (forall algo q t raw,
          cv_match L algo q t = inr raw -> Z.of_nat (length raw) < 2 ^ 24) ->
      Part000.MatchImage L img h w = (Ret h', w') ->
      forall i m',
        nth_error (MatchHandler.matchers h') i = Some m' ->
        exists m r d algo raw,
          nth_error (MatchHandler.matchers h) i = Some m /\
          nth_error (MatchHandler.referDets h) i = Some r /\
          nth_error (MatchHandler.inputDets h') i = Some d /\
          Matcher.matcher m = Some algo /\
          cv_match L algo (Detector.descriptors d) (Detector.descriptors r)
          = inr raw /\
          Matcher.matches m' = firstn (length raw / 2) (std_sort L raw)).
Proof.
  split; [reflexivity | ].
  split.
  { intros features matcher w w' h [H | H].
    - exact (MatchHandler_ctor_p0_tracked _ _ _ _ _ H).
    - exact (MatchHandler_ctor_hpp_tracked _ _ _ _ _ H). }
  split.
  { intros features matcher. split.
    - apply keeps_MatchHandler_ctor_p0.
    - apply keeps_MatchHandler_ctor_hpp. }
  split.
  { intros L ops h Hops. split.
    - apply keeps_run_ops; [apply keeps_run_op_p0 | exact Hops].
    - apply keeps_run_ops; [apply keeps_run_op_hpp | exact Hops]. }
  split.
  { intros L features matcher ops Hops. split.
    - refine (keeps_bind _ _ (keeps_MatchHandler_ctor_p0 _ _) _ initial_world).
      intros h. apply keeps_run_ops; [apply keeps_run_op_p0 | exact Hops].
    - refine (keeps_bind _ _ (keeps_MatchHandler_ctor_hpp _ _) _
                initial_world).
      intros h. apply keeps_run_ops; [apply keeps_run_op_hpp | exact Hops]. }
  split; [exact sort_and_truncate_half | ].
  split.
  { intros L features matcher ops h w referDesc inputDesc this m raw
           Hops Hsession Hsort Hm Hraw Hnn Hn.
    pose proof (session_keeps_default_ratio _ _ _ _ _ _ Hops Hsession) as Hw.
    destruct (Hsort raw Hnn) as [Hperm Hsorted].
    pose proof (Permutation_length Hperm) as Hl.
    pose proof (sort_and_truncate_half L raw w Hw Hl Hn) as Hrun.
    destruct (sort_and_truncate_lowest L raw w Hsort Hnn Hn)
      as (k & f & kept & dropped & _ & _ & _ & Hrun' & Hlk & _ & Happ
          & Hperm' & _ & Hcross);
      [rewrite Hw; reflexivity | rewrite Hw; reflexivity | ].
    assert (Hkept : kept = firstn (length raw / 2) (std_sort L raw))
      by congruence.
    exists kept, dropped.
    split; [exact Hkept | ].
    split.
    { rewrite Hkept. apply firstn_length_le. rewrite Hl.
      apply Nat.Div0.div_le_upper_bound. lia. }
    split; [exact Happ | ].
    split; [exact Hperm' | ].
    split; [exact Hcross | ].
    split.
    - exact (MatchDescriptors_p0_run _ _ _ _ _ _ _ _ Hm Hraw Hrun').
    - exact (MatchDescriptors_hpp_run _ _ _ _ _ _ _ _ Hm Hraw Hrun'). }
  intros L features matcher ops h w img h' w' Hops Hsession Hsort Hsize
         Himg i m' Hm'.
  pose proof (session_keeps_default_ratio _ _ _ _ _ _ Hops
                (or_introl Hsession)) as Hw.
  unfold Part000.MatchImage in Himg.
  apply bind_Ret_inv in Himg as (ds & w1 & Hds & Himg).
  apply bind_Ret_inv in Himg as (ms & w2 & Hms & Himg).
  apply ret_inv in Himg as [<- <-].
  cbn [MatchHandler.matchers MatchHandler.inputDets MatchHandler.referDets]
    in Hm' |- *.
  assert (Hw1 : w1 = w).
  { pose proof (world_for_each (Detector.DetectAndCompute L img)
                  (MatchHandler.inputDets h)
                  (world_DetectAndCompute L img) w) as Hk.
    rewrite Hds in Hk. exact Hk. }
  subst w1.
  apply match_loop_p0_pipelines in Hms as (_ & _ & Hall).
  destruct (Hall i m' Hm')
    as (m & r & d & Hm & Hr & Hd & algo & raw & Ha & Hraw & Hrun & _).
  exists m, r, d, algo, raw.
  repeat (split; [assumption | ]).
  rewrite (sort_and_truncate_half L raw w Hw (Hsort raw)
             (Hsize _ _ _ _ Hraw)) in Hrun.
  congruence.
Qed.

Lemma default_ratio_is_half_witness :
  (exists kept dropped : list DMatch,
      kept = [Toy.match_at 3 0 1; Toy.match_at 1 0 3] /\
      Part000.MatchDescriptors Toy.lib Toy.refimg Toy.imageA Toy.bf_matcher
                               initial_world
      = (Ret (with_matches Toy.bf_matcher kept), initial_world) /\
      (forall a b, In a kept -> In b dropped -> distance_le a b)) /\
  (exists raw : list DMatch,
      nth_error (Toy.stored_matches Toy.handler_A) 1
      = Some (firstn (length raw / 2) (Toy.sort raw))).
Proof.
  destruct default_ratio_is_half as (_ & _ & _ & _ & _ & _ & HMD & HMI).
  split.
  - destruct (HMD Toy.lib ["orb"; "sift"]%string ["bf"; "flann"]%string
                [OpSetRefImage Toy.refimg]
                (Toy.handler_of (Toy.session [OpSetRefImage Toy.refimg]))
                initial_world Toy.refimg Toy.imageA Toy.bf_matcher
                (BFMatcher NORM_L1)
                [Toy.match_at 0 0 7; Toy.match_at 1 0 3;
                 Toy.match_at 2 0 8; Toy.match_at 3 0 1])
      as (kept & dropped & Hkept & _ & _ & _ & Hcross & Hp0 & _).
    + reflexivity.
    + left. vm_compute. reflexivity.
    + exact Toy_sort_contract.
    + reflexivity.
    + reflexivity.
    + repeat constructor.
    + reflexivity.
    + exists kept, dropped.
      split; [rewrite Hkept; vm_compute; reflexivity | ].
      split; [exact Hp0 | exact Hcross].
  - destruct (HMI (with_match_cap 1000 Toy.lib)
                ["orb"; "sift"]%string ["bf"; "flann"]%string
                [OpSetRefImage Toy.refimg]
                (Toy.handler_of (Toy.session [OpSetRefImage Toy.refimg]))
                initial_world Toy.imageA Toy.handler_A initial_world
                eq_refl)
      with (i := 1%nat)
           (m' := with_matches
                    (Matcher.new "flann"
                       (Some (FlannBasedMatcher DefaultIndexParams)))
                    [Toy.match_at 3 1000 1; Toy.match_at 1 1000 3])
      as (m & r & d & algo & raw & _ & _ & _ & _ & _ & Hmatches).
    + vm_compute. reflexivity.
    + exact Toy_sort_length.
    + intros algo q t raw H. apply with_match_cap_bound in H.
      apply Z.le_lt_trans with (m := 1000); [lia | reflexivity].
    + vm_compute. reflexivity.
    + reflexivity.
    + exists raw.
      change (std_sort (with_match_cap 1000 Toy.lib)) with Toy.sort
        in Hmatches.
      rewrite <- Hmatches. reflexivity.
Defined.
